(** * Hua Rong Dao solver (hrd.py): board model, successor generation, search

    A shallow embedding of [src/hrd.py].  Python integers are [Z], Python
    lists are [list] with Python's indexing rules (negative indices count
    from the end, anything else out of range raises [IndexError]), raised
    exceptions are the [Raise] branch of [result]. *)

From Stdlib Require Import ZArith String Ascii.
From stdpp Require Import base list gmap strings sorting.

Local Open Scope Z_scope.
#[local] Set Warnings "-clear-no-such-hyp".

(** ** Exceptions *)

Inductive exn : Type :=
| ValueError (msg : string)
| IndexError
| AttributeError.

Inductive result (A : Type) : Type :=
| Ok (a : A)
| Raise (e : exn).
Arguments Ok {A} a.
Arguments Raise {A} e.

Definition rbind {A B} (r : result A) (k : A → result B) : result B :=
  match r with
  | Ok a => k a
  | Raise e => Raise e
  end.

Notation "x ←? r ; k" := (rbind r (λ x, k))
  (at level 20, r at level 100, k at level 200, right associativity,
   format "x  ←?  r ;  '/' k").

Definition is_Ok {A} (r : result A) : bool :=
  match r with Ok _ => true | Raise _ => false end.

(** ** Python list indexing *)

Definition py_index (len : nat) (i : Z) : option nat :=
  if decide (0 ≤ i < Z.of_nat len) then Some (Z.to_nat i)
  else if decide (- Z.of_nat len ≤ i < 0) then Some (Z.to_nat (Z.of_nat len + i))
  else None.

Definition py_getitem {A} (l : list A) (i : Z) : result A :=
  match py_index (length l) i with
  | Some n => match l !! n with Some a => Ok a | None => Raise IndexError end
  | None => Raise IndexError
  end.

Definition py_setitem {A} (l : list A) (i : Z) (a : A) : result (list A) :=
  match py_index (length l) i with
  | Some n => Ok (<[n := a]> l)
  | None => Raise IndexError
  end.

(** ** Pieces *)

Definition char_goal : ascii := "1".
Definition char_single : ascii := "2".
Definition char_empty : ascii := ".".

(** [orientation] is ['h'], ['v'] or [None] (docstring of [Piece.__init__]). *)
Inductive Orientation : Type := OrientNone | OrientH | OrientV.

Global Instance Orientation_eq_dec : EqDecision Orientation.
Proof. solve_decision. Defined.

Record Piece : Type := mkPiece {
  is_goal : bool;
  is_single : bool;
  coord_x : Z;
  coord_y : Z;
  orientation : Orientation
}.

Global Instance Piece_eq_dec : EqDecision Piece.
Proof. solve_decision. Defined.

Module Piece.
(** [Piece.move] *)
Definition move (self : Piece) (x y : Z) : result Piece :=
  let new_x := coord_x self + x in
  let new_y := coord_y self + y in
  if decide (new_x < 0 ∨ new_y < 0)
  then Raise (ValueError "x and y must be non-negative")
  else Ok (mkPiece (is_goal self) (is_single self) new_x new_y (orientation self)).
End Piece.

(** ** Boards *)

(** The grid: a list of rows, each a list of one-character symbols. *)
Abbreviation Grid := (list (list ascii)).

Record Board : Type := mkBoard {
  width : Z;
  height : Z;
  pieces : list Piece;
  grid : Grid;
  goal : option Piece;
  board_string : string
}.

(** [self.grid[y][x] = c]: the row is fetched, then assigned in place. *)
Definition grid_set (g : Grid) (y x : Z) (c : ascii) : result Grid :=
  match py_index (length g) y with
  | None => Raise IndexError
  | Some j =>
      match g !! j with
      | None => Raise IndexError
      | Some row =>
          match py_index (length row) x with
          | None => Raise IndexError
          | Some i => Ok (<[j := <[i := c]> row]> g)
          end
      end
  end.

(** The assignments [(y, x, symbol)] the overlay loop performs for one piece,
    in program order. *)
Definition piece_writes (piece : Piece) : list (Z * Z * ascii) :=
  let x := coord_x piece in
  let y := coord_y piece in
  if is_goal piece then
    [(y, x, char_goal); (y, x + 1, char_goal);
     (y + 1, x, char_goal); (y + 1, x + 1, char_goal)]
  else if is_single piece then
    [(y, x, char_single)]
  else
    match orientation piece with
    | OrientH => [(y, x, "<"%char); (y, x + 1, ">"%char)]
    | OrientV => [(y, x, "^"%char); (y + 1, x, "v"%char)]
    | OrientNone => []
    end.

Fixpoint do_writes (g : Grid) (ws : list (Z * Z * ascii)) : result Grid :=
  match ws with
  | [] => Ok g
  | (y, x, c) :: ws' => g' ←? grid_set g y x c; do_writes g' ws'
  end.

(** One iteration of [for piece in self.pieces]; the state is the grid and
    [self.goal]. *)
Definition place_piece (st : Grid * option Piece) (piece : Piece)
  : result (Grid * option Piece) :=
  g' ←? do_writes st.1 (piece_writes piece);
  Ok (g', if is_goal piece then Some piece else st.2).

Fixpoint place_pieces (st : Grid * option Piece) (ps : list Piece)
  : result (Grid * option Piece) :=
  match ps with
  | [] => Ok st
  | piece :: ps' => st' ←? place_piece st piece; place_pieces st' ps'
  end.

Definition count_row (row : list ascii) : Z :=
  Z.of_nat (length (filter (λ c, c = char_empty) row)).

Definition count_empty (g : Grid) : Z :=
  foldr (λ row acc, count_row row + acc) 0 g.

Definition blank_grid (w h : Z) : Grid :=
  replicate (Z.to_nat h) (replicate (Z.to_nat w) char_empty).

Definition newline : string := String "010"%char EmptyString.

Definition grid_string (g : Grid) : string :=
  String.concat newline (map string_of_list_ascii g).

(** [print(s, end=e)], as the text the standard output holds afterwards. *)
Definition print (out s end_ : string) : string := out +:+ s +:+ end_.

Module Board.
(** [Board.__construct_grid]: the grid and goal on success. *)
Definition construct_grid (w h : Z) (ps : list Piece)
  : result (Grid * option Piece) :=
  st ←? place_pieces (blank_grid w h, None) ps;
  if decide (count_empty st.1 ≠ 2)
  then Raise (ValueError "The board is not valid.")
  else Ok st.

(** [Board.__init__] *)
Definition init (ps : list Piece) : result Board :=
  let w := 4 in
  let h := 5 in
  st ←? construct_grid w h ps;
  Ok (mkBoard w h ps st.1 st.2 (grid_string st.1)).

(** [Board.move] *)
Definition move (self : Board) (piece_number x y : Z) : result Board :=
  let new_pieces := pieces self in
  old ←? py_getitem new_pieces piece_number;
  moved ←? Piece.move old x y;
  new_pieces' ←? py_setitem new_pieces piece_number moved;
  init new_pieces'.

(** [Board.display]: every symbol of a row is printed with [end=''], and a
    bare [print()] ends the row. *)
Definition display (self : Board) (out : string) : string :=
  foldl (λ out line,
           print (foldl (λ out ch, print out (String ch EmptyString) EmptyString) out line)
                 EmptyString newline)
        out (grid self).
End Board.

(** ** Search states *)

#[warnings="-register-all"]
Inductive State : Type := mkState {
  board : Board;
  f : Z;
  depth : Z;
  parent : option State
}.

Module State.
(** [abs(goal.coord_x - 1) + abs(goal.coord_y - 3)] on a board; reading an
    attribute of [None] raises [AttributeError]. *)
Definition board_distance (b : Board) : result Z :=
  match goal b with
  | Some g => Ok (Z.abs (coord_x g - 1) + Z.abs (coord_y g - 3))
  | None => Raise AttributeError
  end.

(** [State.manhattan_distance] *)
Definition manhattan_distance (self : State) : result Z :=
  board_distance (board self).

(** [State.__init__]; the unused [id] attribute is left out. *)
Definition init (b : Board) (d : Z) (p : option State) : result State :=
  h ←? board_distance b;
  Ok (mkState b (d + h) d p).


(** [State.__eq__] *)
Definition eq (self other : State) : bool :=
  bool_decide (board_string (board self) = board_string (board other)).

(** [State.__lt__] *)
Definition lt (self other : State) : bool :=
  bool_decide (f self < f other).

(** [State.is_goal] *)
Definition is_goal (self : State) : result bool :=
  match goal (board self) with
  | Some g => Ok (bool_decide (coord_x g = 1) && bool_decide (coord_y g = 3))
  | None => Raise AttributeError
  end.

Definition directions : list (Z * Z) := [(1, 0); (-1, 0); (0, 1); (0, -1)].

(** The body of the [try] block for piece [i] and direction [(x, y)]. *)
Definition candidate (self : State) (i : Z) (d : Z * Z) : result State :=
  new_board ←? Board.move (board self) i d.1 d.2;
  init new_board (depth self + 1) (Some self).

(** [try: ... finally: continue] discards whatever the body raises. *)
Definition attempt (self : State) (i : Z) (d : Z * Z) : list State :=
  match candidate self i d with
  | Ok t => [t]
  | Raise _ => []
  end.

(** [State.generate_successors] *)
Definition generate_successors (self : State) : list State :=
  flat_map (λ i : nat, flat_map (attempt self (Z.of_nat i)) directions)
           (seq 0 (length (pieces (board self)))).

(** [State.to_list]: boards from the root to [self]. *)
Fixpoint to_list (self : State) : list Board :=
  match parent self with
  | Some p => to_list p ++ [board self]
  | None => [board self]
  end.
End State.

(** ** Frontiers *)

(** [heappush] and [heappop] of Python's [heapq] module, which the [Heap]
    class wraps; the module is not part of the repository and is modelled
    after its reference implementation (array-based binary min-heap, items
    compared with [<] only). *)
Module heapq.
Section Ops.
Context {A : Type} (lt : A → A → bool).

(** [_siftdown(heap, startpos, pos)]: the loop, carrying [newitem]. *)
Fixpoint siftdown_loop (fuel : nat) (heap : list A) (newitem : A)
    (startpos pos : nat) : list A :=
  match fuel with
  | O => <[pos := newitem]> heap
  | S fuel' =>
      if decide (startpos < pos)%nat then
        let parentpos := ((pos - 1) / 2)%nat in
        match heap !! parentpos with
        | Some parent =>
            if lt newitem parent
            then siftdown_loop fuel' (<[pos := parent]> heap) newitem startpos parentpos
            else <[pos := newitem]> heap
        | None => <[pos := newitem]> heap
        end
      else <[pos := newitem]> heap
  end.

Definition siftdown (heap : list A) (startpos pos : nat) : list A :=
  match heap !! pos with
  | Some newitem => siftdown_loop pos heap newitem startpos pos
  | None => heap
  end.

(** [_siftup(heap, pos)]: the loop that moves the smaller child up until
    a leaf is reached; returns the heap and the position of the hole. *)
Fixpoint siftup_loop (fuel : nat) (heap : list A) (pos childpos : nat)
    : list A * nat :=
  match fuel with
  | O => (heap, pos)
  | S fuel' =>
      if decide (childpos < length heap)%nat then
        let rightpos := (childpos + 1)%nat in
        let childpos' :=
          match heap !! childpos, heap !! rightpos with
          | Some l, Some r => if negb (lt l r) then rightpos else childpos
          | _, _ => childpos
          end in
        match heap !! childpos' with
        | Some c =>
            siftup_loop fuel' (<[pos := c]> heap) childpos' (2 * childpos' + 1)%nat
        | None => (heap, pos)
        end
      else (heap, pos)
  end.

Definition siftup (heap : list A) (pos : nat) : list A :=
  match heap !! pos with
  | Some newitem =>
      let '(heap', pos') := siftup_loop (length heap) heap pos (2 * pos + 1)%nat in
      siftdown (<[pos' := newitem]> heap') pos pos'
  | None => heap
  end.

Definition heappush (heap : list A) (item : A) : list A :=
  let heap' := heap ++ [item] in
  siftdown heap' 0 (length heap' - 1).

(** [heappop]; [heap.pop()] on an empty list raises [IndexError]. *)
Definition heappop (heap : list A) : result (A * list A) :=
  match last heap with
  | None => Raise IndexError
  | Some lastelt =>
      let heap' := removelast heap in
      match heap' with
      | returnitem :: _ => Ok (returnitem, siftup (<[0%nat := lastelt]> heap') 0)
      | [] => Ok (lastelt, heap')
      end
  end.
End Ops.
End heapq.

(** The operations [State.search] uses on its [frontier] argument:
    [append], [pop], [__bool__] and [extend]. *)
Class Frontier (F : Type) : Type := {
  fr_append : F → State → F;
  fr_pop : F → result (State * F);
  fr_bool : F → bool;
  fr_extend : F → list State → F
}.

(** The [Heap] class. *)
Record Heap : Type := mkHeap { heap : list State }.

Module Heap.
Definition init : Heap := mkHeap [].
Definition append (self : Heap) (item : State) : Heap :=
  mkHeap (heapq.heappush State.lt (heap self) item).
Definition pop (self : Heap) : result (State * Heap) :=
  r ←? heapq.heappop State.lt (heap self); Ok (r.1, mkHeap r.2).
Definition bool (self : Heap) : bool :=
  match heap self with [] => false | _ => true end.
Definition extend (self : Heap) (items : list State) : Heap :=
  foldl append self items.
End Heap.

Global Instance Heap_frontier : Frontier Heap :=
  {| fr_append := Heap.append; fr_pop := Heap.pop;
     fr_bool := Heap.bool; fr_extend := Heap.extend |}.

(** A Python list used as a stack. *)
Module PyList.
Definition append (self : list State) (item : State) : list State := self ++ [item].
Definition pop (self : list State) : result (State * list State) :=
  match last self with
  | Some x => Ok (x, removelast self)
  | None => Raise IndexError
  end.
Definition bool (self : list State) : bool :=
  match self with [] => false | _ => true end.
Definition extend (self : list State) (items : list State) : list State := self ++ items.
End PyList.

Global Instance list_frontier : Frontier (list State) :=
  {| fr_append := PyList.append; fr_pop := PyList.pop;
     fr_bool := PyList.bool; fr_extend := PyList.extend |}.

(** ** The search loop *)

(** The members of [seen] are states under [__eq__] and [__hash__], that is,
    board strings. *)
Definition key (s : State) : string := board_string (board s).

(** Outcome of a run bounded by [fuel] iterations of the [while] loop:
    [None] when the bound is hit, otherwise what [search] returns or raises;
    [Ok None] is Python's [None], returned when the loop ends. *)
Fixpoint search_loop {F} `{Frontier F} (fuel : nat) (seen : gset string)
    (frontier : F) : option (result (option State)) :=
  match fuel with
  | O => None
  | S fuel' =>
      if fr_bool frontier then
        match fr_pop frontier with
        | Raise e => Some (Raise e)
        | Ok (state, frontier') =>
            if decide (key state ∈ seen) then search_loop fuel' seen frontier'
            else
              let seen' := seen ∪ {[key state]} in
              match State.is_goal state with
              | Raise e => Some (Raise e)
              | Ok true => Some (Ok (Some state))
              | Ok false =>
                  search_loop fuel' seen'
                    (fr_extend frontier' (State.generate_successors state))
              end
        end
      else Some (Ok None)
  end.

(** [State.search] *)
Definition search {F} `{Frontier F} (fuel : nat) (self : State) (frontier : F)
  : option (result (option State)) :=
  search_loop fuel ∅ (fr_append frontier self).

(** ** Loader and entry point *)

(** The pieces one character of the layout contributes; the state is the
    piece list and [g_found]. *)
Definition read_char (line_index : Z) (st : list Piece * bool) (x : Z) (ch : ascii)
  : list Piece * bool :=
  let '(ps, g_found) := st in
  if decide (ch = "^"%char) then (ps ++ [mkPiece false false x line_index OrientV], g_found)
  else if decide (ch = "<"%char) then (ps ++ [mkPiece false false x line_index OrientH], g_found)
  else if decide (ch = char_single) then (ps ++ [mkPiece false true x line_index OrientNone], g_found)
  else if decide (ch = char_goal) then
    if g_found then (ps, g_found)
    else (ps ++ [mkPiece true false x line_index OrientNone], true)
  else (ps, g_found).

Fixpoint read_line (line_index : Z) (st : list Piece * bool) (x : Z) (line : list ascii)
  : list Piece * bool :=
  match line with
  | [] => st
  | ch :: line' => read_line line_index (read_char line_index st x ch) (x + 1) line'
  end.

Fixpoint read_lines (st : list Piece * bool) (line_index : Z) (lines : list string)
  : list Piece * bool :=
  match lines with
  | [] => st
  | line :: lines' =>
      read_lines (read_line line_index st 0 (list_ascii_of_string line))
                 (line_index + 1) lines'
  end.

Definition read_pieces (lines : list string) : list Piece :=
  (read_lines ([], false) 0 lines).1.

(** [read_from_file], on the lines of the opened file. *)
Definition read_from_file (lines : list string) : result Board :=
  Board.init (read_pieces lines).

Inductive Algo : Type := astar | dfs.

(** The [__main__] block up to the text written to the output file.
    Calling [to_list] on the [None] that an exhausted search returns raises
    [AttributeError]. *)
Definition main (fuel : nat) (lines : list string) (algo : Algo)
  : option (result string) :=
  match read_from_file lines with
  | Raise e => Some (Raise e)
  | Ok b =>
      match State.init b 0 None with
      | Raise e => Some (Raise e)
      | Ok new_state =>
          let found :=
            match algo with
            | astar => search fuel new_state Heap.init
            | dfs => search fuel new_state ([] : list State)
            end in
          match found with
          | None => None
          | Some (Raise e) => Some (Raise e)
          | Some (Ok None) => Some (Raise AttributeError)
          | Some (Ok (Some sol)) =>
              Some (Ok (String.concat (newline +:+ newline)
                          (map board_string (State.to_list sol))))
          end
      end
  end.

(** * Boards as objects

    [Board.__init__] keeps a reference to the list it is given
    ([self.pieces = pieces]) and [Board.move] works on a copy of it
    ([self.pieces[:]]).  Here piece lists and boards live in a store and are
    named by locations, so that sharing and in-place assignment are visible.
    The grid is created and filled inside [__init__] and no reference to it
    exists before [__init__] returns, so it is kept as a value of the board
    object. *)
Module Mem.

Definition loc : Type := positive.

Record BoardObj : Type := mkBoardObj {
  o_width : Z;
  o_height : Z;
  o_pieces : loc;
  o_grid : Grid;
  o_goal : option Piece;
  o_board_string : string
}.

Record store : Type := mkStore {
  lists : gmap loc (list Piece);
  boards : gmap loc BoardObj
}.

(** A computation on the store: [None] when it follows a location the store
    does not hold, otherwise the value or exception and the store reached. *)
Definition M (A : Type) : Type := store → option (result A * store).

Definition ret {A} (a : A) : M A := λ σ, Some (Ok a, σ).

Definition lift {A} (r : result A) : M A := λ σ, Some (r, σ).

Definition bind {A B} (m : M A) (k : A → M B) : M B :=
  λ σ, match m σ with
       | None => None
       | Some (Raise e, σ') => Some (Raise e, σ')
       | Some (Ok a, σ') => k a σ'
       end.

Notation "x ←! m ; k" := (bind m (λ x, k))
  (at level 20, m at level 100, k at level 200, right associativity).

Definition read_list (l : loc) : M (list Piece) :=
  λ σ, ps ← lists σ !! l; Some (Ok ps, σ).

Definition alloc_list (ps : list Piece) : M loc :=
  λ σ, let l := fresh (dom (lists σ)) in
       Some (Ok l, mkStore (<[l := ps]> (lists σ)) (boards σ)).

(** [l[i]] *)
Definition load_item (l : loc) (i : Z) : M Piece :=
  λ σ, ps ← lists σ !! l; Some (py_getitem ps i, σ).

(** [l[i] = v] *)
Definition store_item (l : loc) (i : Z) (v : Piece) : M unit :=
  λ σ, ps ← lists σ !! l;
       match py_setitem ps i v with
       | Ok ps' => Some (Ok (), mkStore (<[l := ps']> (lists σ)) (boards σ))
       | Raise e => Some (Raise e, σ)
       end.

Definition read_board (l : loc) : M BoardObj :=
  λ σ, b ← boards σ !! l; Some (Ok b, σ).

Definition alloc_board (b : BoardObj) : M loc :=
  λ σ, let l := fresh (dom (boards σ)) in
       Some (Ok l, mkStore (lists σ) (<[l := b]> (boards σ))).

(** [Board(pieces)] *)
Definition Board_init (pieces : loc) : M loc :=
  ps ←! read_list pieces;
  st ←! lift (Board.construct_grid 4 5 ps);
  alloc_board (mkBoardObj 4 5 pieces st.1 st.2 (grid_string st.1)).

(** [Board.move] *)
Definition Board_move (self : loc) (piece_number x y : Z) : M loc :=
  b ←! read_board self;
  ps ←! read_list (o_pieces b);
  new_pieces ←! alloc_list ps;
  old ←! load_item new_pieces piece_number;
  moved ←! lift (Piece.move old x y);
  _ ←! store_item new_pieces piece_number moved;
  Board_init new_pieces.

(** The board a board object stands for, with its piece list read from the
    store. *)
Definition view (σ : store) (b : BoardObj) : option Board :=
  ps ← lists σ !! o_pieces b;
  Some (mkBoard (o_width b) (o_height b) ps (o_grid b) (o_goal b) (o_board_string b)).

End Mem.

(** * Vocabulary of the properties *)

(** ** Boards and successors *)

Definition grid_shape (h w : nat) (g : Grid) : Prop :=
  length g = h ∧ Forall (λ row, length row = w) g.

(** [self.goal] after the loop: the last piece of the list flagged
    [is_goal], if any. *)
Definition last_goal (init : option Piece) (ps : list Piece) : option Piece :=
  foldl (λ acc p, if is_goal p then Some p else acc) init ps.

(** Pieces that agree on [is_goal] and lie within a unit step of each other. *)
Definition near (p q : Piece) : Prop :=
  is_goal p = is_goal q ∧
  Z.abs (coord_x q - coord_x p) + Z.abs (coord_y q - coord_y p) ≤ 1.

(** A state as the program builds it: a board made by [Board.__init__]
    wrapped by [State.__init__]. *)
Definition constructed (s : State) : Prop :=
  ∃ ps d p, Board.init ps = Ok (board s) ∧ State.init (board s) d p = Ok s.



Definition all_writes (ps : list Piece) : list (Z * Z * ascii) :=
  flat_map piece_writes ps.

(** Python accepts the indices of a write into a grid of [h] rows and [w]
    columns; a negative index counts from the end. *)
Definition write_in_range (h w : nat) (wr : Z * Z * ascii) : Prop :=
  (- Z.of_nat h ≤ wr.1.1 < Z.of_nat h) ∧ (- Z.of_nat w ≤ wr.1.2 < Z.of_nat w).

Global Instance write_in_range_dec h w wr : Decision (write_in_range h w wr).
Proof. unfold write_in_range. apply _. Defined.

(** ** Board strings *)

(** The characters of ["\n".join(rows)]. *)
Fixpoint join_rows (rows : Grid) : list ascii :=
  match rows with
  | [] => []
  | [row] => row
  | row :: rows' => row ++ "010"%char :: join_rows rows'
  end.

Definition count_char (c : ascii) (s : string) : Z :=
  Z.of_nat (length (filter (λ a, a = c) (list_ascii_of_string s))).

(** ** Sample boards *)

Definition no_board : Board := mkBoard 0 0 [] [] None "".
Definition no_state : State := mkState no_board 0 0 None.

Definition board_of (ps : list Piece) : Board :=
  match Board.init ps with Ok b => b | Raise _ => no_board end.

Definition root_of (ps : list Piece) : State :=
  match State.init (board_of ps) 0 None with Ok s => s | Raise _ => no_state end.

(** The classic opening layout. *)
Definition classic_layout : list string :=
  ["^11^"; "v11v"; "^<>^"; "v22v"; "2..2"].
Definition classic_pieces : list Piece := Eval vm_compute in read_pieces classic_layout.
Definition classic_board : Board := Eval vm_compute in board_of classic_pieces.
Definition classic_root : State := Eval vm_compute in root_of classic_pieces.

(** A layout the constructor accepts although two pieces overlap: a single
    block lies under the top-left cell of the goal block. *)
Definition stacked_pieces : list Piece :=
  [ mkPiece false true 1 2 OrientNone; mkPiece true false 1 2 OrientNone;
    mkPiece false true 0 0 OrientNone; mkPiece false false 0 1 OrientV;
    mkPiece false false 0 3 OrientV; mkPiece false false 1 0 OrientH;
    mkPiece false false 1 1 OrientH; mkPiece false true 3 0 OrientNone;
    mkPiece false false 3 1 OrientV; mkPiece false false 3 3 OrientV ].
Definition stacked_board : Board := Eval vm_compute in board_of stacked_pieces.
Definition stacked_root : State := Eval vm_compute in root_of stacked_pieces.

(** [stacked_pieces] with its first two pieces exchanged: the single block
    is now written after the goal block. *)
Definition restacked_pieces : list Piece :=
  match stacked_pieces with
  | p0 :: p1 :: rest => p1 :: p0 :: rest
  | _ => stacked_pieces
  end.
Definition restacked_board : Board := Eval vm_compute in board_of restacked_pieces.


(** Eighteen single blocks and no goal block. *)
Definition goalless_layout : list string :=
  ["2222"; "2222"; "2222"; "2222"; "22.."].
Definition goalless_board : Board :=
  Eval vm_compute in board_of (read_pieces goalless_layout).

(** ** Layouts read by the loader *)

Definition no_goal_marker (lines : list string) : Prop :=
  Forall (λ line, char_goal ∉ list_ascii_of_string line) lines.

Global Instance no_goal_marker_dec lines : Decision (no_goal_marker lines).
Proof. unfold no_goal_marker. apply _. Defined.

Definition no_goal_piece (ps : list Piece) : Prop :=
  Forall (λ p, is_goal p = false) ps.

(** The lines of a file that holds the rows of a grid, each ended by a
    newline. *)
Definition grid_lines (g : Grid) : list string :=
  (λ row, string_of_list_ascii (row ++ ["010"%char])) <$> g.

(** The characters of a layout with their line index and column, in the
    order the loader meets them. *)
Fixpoint line_marks (y x : Z) (line : list ascii) : list (Z * Z * ascii) :=
  match line with
  | [] => []
  | ch :: line' => (y, x, ch) :: line_marks y (x + 1) line'
  end.

Fixpoint marks (y : Z) (lines : list string) : list (Z * Z * ascii) :=
  match lines with
  | [] => []
  | line :: lines' =>
      line_marks y 0 (list_ascii_of_string line) ++ marks (y + 1) lines'
  end.

(** One step of the loader on a character with its position. *)
Definition read_mark (st : list Piece * bool) (m : Z * Z * ascii) : list Piece * bool :=
  read_char m.1.1 st m.1.2 m.2.

(** The piece the loader makes of a character other than the goal marker. *)
Definition mark_piece (m : Z * Z * ascii) : option Piece :=
  if decide (m.2 = "^"%char) then Some (mkPiece false false m.1.2 m.1.1 OrientV)
  else if decide (m.2 = "<"%char) then Some (mkPiece false false m.1.2 m.1.1 OrientH)
  else if decide (m.2 = char_single) then Some (mkPiece false true m.1.2 m.1.1 OrientNone)
  else None.

(** Reading order of the characters of a layout. *)
Definition before (a b : Z * Z * ascii) : Prop :=
  a.1.1 < b.1.1 ∨ (a.1.1 = b.1.1 ∧ a.1.2 < b.1.2).

(** The cell of the top-left corner of a piece. *)
Definition start (p : Piece) : Z * Z := (coord_y p, coord_x p).

(** The three kinds of pieces the loader makes. *)
Definition loaded (q : Piece) : Prop :=
  (is_goal q = true ∧ is_single q = false ∧ orientation q = OrientNone) ∨
  (is_goal q = false ∧ is_single q = true ∧ orientation q = OrientNone) ∨
  (is_goal q = false ∧ is_single q = false ∧ orientation q ≠ OrientNone).

(** ** A sample store *)

Definition classic_object : Mem.BoardObj :=
  Mem.mkBoardObj 4 5 1%positive (grid classic_board) (goal classic_board)
    (board_string classic_board).

Definition classic_store : Mem.store :=
  Mem.mkStore {[ 1%positive := classic_pieces ]} {[ 1%positive := classic_object ]}.

(** ** Cells and footprints *)

(** The symbol at row [pos.1], column [pos.2], for non-negative indices. *)
Definition grid_get (g : Grid) (pos : Z * Z) : option ascii :=
  row ← g !! Z.to_nat pos.1; row !! Z.to_nat pos.2.

Definition on_grid (pos : Z * Z) : Prop :=
  (0 ≤ pos.1 < 5) ∧ (0 ≤ pos.2 < 4).

Global Instance on_grid_dec pos : Decision (on_grid pos).
Proof. unfold on_grid. apply _. Defined.

(** The cells a piece covers, and the cells a piece list covers, in the
    order they are written. *)
Definition cells (p : Piece) : list (Z * Z) := (piece_writes p).*1.
Definition footprint (ps : list Piece) : list (Z * Z) := (all_writes ps).*1.

Definition write_nonneg (wr : Z * Z * ascii) : Prop := 0 ≤ wr.1.1 ∧ 0 ≤ wr.1.2.

(** Every covered cell is on the grid (in particular no coordinate is
    negative), no cell is covered twice, and every piece covers a cell. *)
Record tidy (ps : list Piece) : Prop := mkTidy {
  tidy_on_grid : Forall on_grid (footprint ps);
  tidy_disjoint : NoDup (footprint ps);
  tidy_solid : Forall (λ p, cells p ≠ []) ps
}.

(** ** Board strings a run can meet *)

Definition all_ascii : list ascii := ascii_of_nat <$> seq 0 256.

Fixpoint words (n : nat) : list (list ascii) :=
  match n with
  | O => [[]]
  | S n' => flat_map (λ a, (a ::.) <$> words n') all_ascii
  end.

(** Every string of the length of a board string. *)
Definition key_universe : gset string :=
  list_to_set (string_of_list_ascii <$> words 24).

Global Arguments all_ascii : simpl never.
Global Arguments words : simpl never.
Global Arguments key_universe : simpl never.

(** ** Reachability and frontiers *)

Inductive path (root : State) : State → nat → Prop :=
| path_root : path root root 0
| path_step t u n :
    path root t n → u ∈ State.generate_successors t → path root u (S n).

(** The contents of a frontier and the effect of its operations on them;
    [fr_ok] is the representation invariant the operations maintain. *)
Class FrontierLaws (F : Type) `{Frontier F} : Type := {
  fr_items : F → list State;
  fr_ok : F → Prop;
  fr_bool_items fr : fr_bool fr = true ↔ fr_items fr ≠ [];
  fr_append_items fr x :
    fr_ok fr → fr_ok (fr_append fr x) ∧ fr_items (fr_append fr x) ≡ₚ x :: fr_items fr;
  fr_extend_items fr xs :
    fr_ok fr → fr_ok (fr_extend fr xs) ∧ fr_items (fr_extend fr xs) ≡ₚ xs ++ fr_items fr;
  fr_pop_items fr :
    fr_ok fr → fr_items fr ≠ [] →
    ∃ x fr', fr_pop fr = Ok (x, fr') ∧ fr_ok fr' ∧ fr_items fr ≡ₚ x :: fr_items fr'
}.

(** A priority frontier pops an item whose [f] is least. *)
Class PriorityLaws (F : Type) `{FrontierLaws F} : Prop := {
  fr_pop_least fr x fr' :
    fr_ok fr → fr_pop fr = Ok (x, fr') → ∀ y, y ∈ fr_items fr → f x ≤ f y
}.

Definition parent_pos (i : nat) : nat := ((i - 1) / 2)%nat.

(** A goal state can be reached from [root] through [generate_successors]. *)
Definition solvable (root : State) : Prop :=
  ∃ t n, path root t n ∧ State.is_goal t = Ok true.

(** The heuristic part of a state's priority. *)
Definition heur (s : State) : Z := f s - depth s.

(** The grid after a run of writes, started from a grid whose empty cells
    are the on-grid cells outside [S0]. *)
Definition empties_outside (g : Grid) (S0 : gset (Z * Z)) : Prop :=
  grid_shape 5 4 g ∧
  (∀ pos, on_grid pos → (grid_get g pos = Some char_empty ↔ pos ∉ S0)) ∧
  count_empty g = 20 - Z.of_nat (size S0).

(** ** Legal layouts *)

(** A tidy layout with exactly one goal block. *)
Record legal (ps : list Piece) : Prop := mkLegal {
  legal_tidy : tidy ps;
  legal_one_goal : length (filter (λ p, is_goal p = true) ps) = 1%nat
}.

Global Instance tidy_dec ps : Decision (tidy ps).
Proof.
  destruct (decide (Forall on_grid (footprint ps))) as [H1|H1];
    [|right; by intros []].
  destruct (decide (NoDup (footprint ps))) as [H2|H2]; [|right; by intros []].
  destruct (decide (Forall (λ p, cells p ≠ []) ps)) as [H3|H3];
    [|right; by intros []].
  left. by split.
Defined.

Global Instance legal_dec ps : Decision (legal ps).
Proof.
  destruct (decide (tidy ps)) as [H1|H1]; [|right; by intros []].
  destruct (decide (length (filter (λ p, is_goal p = true) ps) = 1%nat)) as [H2|H2];
    [|right; by intros []].
  left. by split.
Defined.

Definition legal_state (s : State) : Prop :=
  constructed s ∧ legal (pieces (board s)).

(** ** More sample states *)

(** The goal block of [stacked_pieces] can reach its target in two moves:
    the hidden single block slides down under the goal block, then the goal
    block slides down. *)
Definition stacked_step1 : State :=
  Eval vm_compute in
    match State.candidate stacked_root 0 (0, 1) with Ok t => t | Raise _ => no_state end.
Definition stacked_step2 : State :=
  Eval vm_compute in
    match State.candidate stacked_step1 1 (0, 1) with Ok t => t | Raise _ => no_state end.

(** A legal layout one move away from the goal: [stacked_pieces] without the
    hidden block. *)
Definition open_pieces : list Piece := tail stacked_pieces.
Definition open_board : Board := Eval vm_compute in board_of open_pieces.
Definition open_root : State := Eval vm_compute in root_of open_pieces.
Definition open_step1 : State :=
  Eval vm_compute in
    match State.candidate open_root 0 (0, 1) with Ok t => t | Raise _ => no_state end.

(** A layout in which the goal block can only move up and down: every other
    block is a horizontal pair, so the two empty cells never lie one above
    the other. *)
Definition jammed_layout : list string :=
  ["11<>"; "11<>"; "<><>"; "<><>"; "<>.."].
Definition jammed_pieces : list Piece := Eval vm_compute in read_pieces jammed_layout.
Definition jammed_board : Board := Eval vm_compute in board_of jammed_pieces.
Definition jammed_root : State := Eval vm_compute in root_of jammed_pieces.

(** The layout of [open_pieces] as the loader reads it. *)
Definition open_layout : list string :=
  ["2<>2"; "^<>^"; "v11v"; "^11^"; "v..v"].
Definition open_read_board : Board := Eval vm_compute in board_of (read_pieces open_layout).
Definition open_read_root : State := Eval vm_compute in root_of (read_pieces open_layout).
Definition open_read_step1 : State :=
  Eval vm_compute in
    match State.candidate open_read_root 6 (0, 1) with Ok t => t | Raise _ => no_state end.

(** ** Moves *)


(** A list of boards in which every board after the first results from the
    one before it by one call of [Board.move] in one of the four directions. *)
Definition move_sequence (l : list Board) : Prop :=
  ∀ (k : nat) b1 b2, l !! k = Some b1 → l !! S k = Some b2 →
    ∃ (i : nat) dir, dir ∈ State.directions ∧
      Board.move b1 (Z.of_nat i) dir.1 dir.2 = Ok b2.

(** ** Invariants of the search and of the heap *)

(** How a run of the loop ends under an invariant [I] of the seen set and
    the frontier: with the frontier empty, or by popping an unseen goal
    state, the invariant holding at that point. *)
Definition finished {F : Type} `{FrontierLaws F} (I : gset string → F → Prop)
    (r : option State) : Prop :=
  match r with
  | None => ∃ seen fr, I seen fr ∧ fr_items fr = []
  | Some g => ∃ seen fr fr', I seen fr ∧ fr_pop fr = Ok (g, fr') ∧
                fr_items fr ≡ₚ g :: fr_items fr' ∧
                (key g ∉ seen) ∧ State.is_goal g = Ok true
  end.

(** The heap invariant of [heapq] for items ordered by [prio]: no item is
    smaller than its parent. *)
Definition heap_ordered {A : Type} (prio : A → Z) (l : list A) : Prop :=
  ∀ i a b, (0 < i)%nat → l !! i = Some a → l !! parent_pos i = Some b → prio b ≤ prio a.

(** The invariant up to the item at [pos], which may be smaller than its
    ancestors. *)
Definition down_inv {A : Type} (prio : A → Z) (l : list A) (pos : nat) : Prop :=
  (∀ i a b, (0 < i)%nat → i ≠ pos →
     l !! i = Some a → l !! parent_pos i = Some b → prio b ≤ prio a) ∧
  (∀ c a b, (0 < pos)%nat → (0 < c)%nat → parent_pos c = pos →
     l !! c = Some a → l !! parent_pos pos = Some b → prio b ≤ prio a).

(** The invariant up to a hole at [pos], whose content is not looked at. *)
Definition up_inv {A : Type} (prio : A → Z) (l : list A) (pos : nat) : Prop :=
  (∀ i a b, (0 < i)%nat → i ≠ pos → parent_pos i ≠ pos →
     l !! i = Some a → l !! parent_pos i = Some b → prio b ≤ prio a) ∧
  (∀ c a b, (0 < pos)%nat → (0 < c)%nat → parent_pos c = pos →
     l !! c = Some a → l !! parent_pos pos = Some b → prio b ≤ prio a).

(** Everything waiting in the frontier has been reached from [root]. *)
Definition reached_inv {F : Type} `{FrontierLaws F} (root : State)
    (seen : gset string) (fr : F) : Prop :=
  fr_ok fr ∧ Forall (λ u, ∃ n, path root u n) (fr_items fr).

(** The record kept for a board string in [seen]: a state with that string
    was expanded, it was no goal state, no state with that string is
    reached by a shorter path, and each of its successors is still waiting
    in the frontier or has its string in [seen]. *)
Definition expanded {F : Type} `{FrontierLaws F} (root : State) (WF : State → Prop)
    (seen : gset string) (fr : F) (k : string) : Prop :=
  ∃ e, WF e ∧ key e = k ∧ State.is_goal e = Ok false ∧
    (∀ t m, path root t m → key t = k → depth e ≤ depth t) ∧
    (∀ u, u ∈ State.generate_successors e → u ∈ fr_items fr ∨ key u ∈ seen).

(** The invariant of the priority-frontier search. *)
Definition astar_inv {F : Type} `{FrontierLaws F} (root : State) (WF : State → Prop)
    (seen : gset string) (fr : F) : Prop :=
  fr_ok fr ∧
  Forall (λ u, ∃ n, path root u n) (fr_items fr) ∧
  (∀ k, k ∈ seen → expanded root WF seen fr k) ∧
  (root ∈ fr_items fr ∨ key root ∈ seen).

(** The invariant of the search under any frontier: every string in [seen]
    belongs to an expanded state that was no goal state and whose successors
    are all waiting in the frontier or have their string in [seen]. *)
Definition explored_inv {F : Type} `{FrontierLaws F} (root : State) (WF : State → Prop)
    (seen : gset string) (fr : F) : Prop :=
  fr_ok fr ∧
  Forall (λ u, ∃ n, path root u n) (fr_items fr) ∧
  (∀ k, k ∈ seen → ∃ e, WF e ∧ key e = k ∧ State.is_goal e = Ok false ∧
     ∀ u, u ∈ State.generate_successors e → u ∈ fr_items fr ∨ key u ∈ seen) ∧
  (root ∈ fr_items fr ∨ key root ∈ seen).

(** * Lemmas *)

(** ** The result monad *)

Lemma rbind_Ok {A B} (r : result A) (k : A → result B) (b : B) :
  rbind r k = Ok b ↔ ∃ a, r = Ok a ∧ k a = Ok b.
Proof.
  destruct r as [a|e]; simpl; split.
  - eauto.
  - by intros (a' & [= <-] & ?).
  - done.
  - by intros (? & ? & ?).
Qed.

Lemma rbind_Raise {A B} (r : result A) (k : A → result B) (e : exn) :
  rbind r k = Raise e ↔ r = Raise e ∨ ∃ a, r = Ok a ∧ k a = Raise e.
Proof.
  destruct r as [a|e']; simpl; split.
  - eauto.
  - intros [?|(a' & [= <-] & ?)]; done.
  - intros [= ->]. by left.
  - intros [?|(? & ? & ?)]; [congruence|done].
Qed.

Ltac inv_ok :=
  repeat match goal with
  | H : rbind _ _ = Ok _ |- _ => apply rbind_Ok in H as (? & ? & H)
  | H : Ok _ = Ok _ |- _ => injection H as H
  | H : Raise _ = Ok _ |- _ => discriminate H
  | H : Ok _ = Raise _ |- _ => discriminate H
  end.

Lemma flat_map_step {A B} (g : A → list B) (a : A) (l : list A) :
  flat_map g (a :: l) = g a ++ flat_map g l.
Proof. done. Qed.

(** ** Python indexing *)

Lemma py_index_lt (len : nat) (i : Z) (n : nat) :
  py_index len i = Some n → (n < len)%nat.
Proof. unfold py_index. repeat case_decide; intros [= <-]; lia. Qed.

Lemma py_index_nonneg (len : nat) (i : Z) :
  0 ≤ i → py_index len i = if decide (i < Z.of_nat len) then Some (Z.to_nat i) else None.
Proof. intros. unfold py_index. repeat case_decide; auto; lia. Qed.

Lemma py_index_is_Some (len : nat) (i : Z) :
  is_Some (py_index len i) ↔ - Z.of_nat len ≤ i < Z.of_nat len.
Proof.
  unfold py_index. repeat case_decide; split; intros; try lia; eauto;
    by apply is_Some_None in H1.
Qed.

Lemma py_index_of_nat (len n : nat) :
  (n < len)%nat → py_index len (Z.of_nat n) = Some n.
Proof.
  intros. rewrite py_index_nonneg by lia.
  case_decide; [by rewrite Nat2Z.id | lia].
Qed.

Lemma py_getitem_of_nat {A} (l : list A) (n : nat) (a : A) :
  l !! n = Some a → py_getitem l (Z.of_nat n) = Ok a.
Proof.
  intros Hl. unfold py_getitem.
  rewrite py_index_of_nat by (by eapply lookup_lt_Some). by rewrite Hl.
Qed.

Lemma py_setitem_of_nat {A} (l : list A) (n : nat) (a : A) :
  (n < length l)%nat → py_setitem l (Z.of_nat n) a = Ok (<[n := a]> l).
Proof. intros. unfold py_setitem. by rewrite py_index_of_nat. Qed.

(** ** Shape of the grid *)

Lemma blank_grid_shape (w h : Z) :
  grid_shape (Z.to_nat h) (Z.to_nat w) (blank_grid w h).
Proof.
  split; [apply length_replicate|].
  apply Forall_replicate, length_replicate.
Qed.

Lemma board_grid_shape : grid_shape 5 4 (blank_grid 4 5).
Proof. exact (blank_grid_shape 4 5). Qed.

Lemma grid_set_shape h w g y x c g' :
  grid_shape h w g → grid_set g y x c = Ok g' → grid_shape h w g'.
Proof.
  intros [Hlen Hrows]. unfold grid_set.
  destruct (py_index (length g) y) as [j|]; [|done].
  destruct (g !! j) as [row|] eqn:Hj; [|done].
  destruct (py_index (length row) x) as [i|]; [|done].
  intros [= <-]. split; [by rewrite length_insert|].
  apply Forall_insert; [done|]. rewrite length_insert.
  by eapply Forall_lookup_1 in Hrows.
Qed.

Lemma grid_set_is_Ok h w g y x c :
  grid_shape h w g →
  is_Ok (grid_set g y x c) = true ↔
  (- Z.of_nat h ≤ y < Z.of_nat h) ∧ (- Z.of_nat w ≤ x < Z.of_nat w).
Proof.
  intros [Hlen Hrows]. unfold grid_set.
  destruct (py_index (length g) y) as [j|] eqn:Hy.
  - pose proof (py_index_lt _ _ _ Hy) as Hlt.
    destruct (lookup_lt_is_Some_2 g j Hlt) as [row Hj]. rewrite Hj.
    assert (length row = w) as Hw by (by eapply Forall_lookup_1 in Hrows).
    assert (is_Some (py_index (length g) y)) as Hy' by eauto.
    apply py_index_is_Some in Hy'. rewrite Hlen in Hy'.
    destruct (py_index (length row) x) as [i|] eqn:Hx; simpl.
    + assert (is_Some (py_index (length row) x)) as Hx' by eauto.
      apply py_index_is_Some in Hx'. rewrite Hw in Hx'. tauto.
    + split; [done|]. intros [_ Hx']. rewrite <- Hw in Hx'.
      apply py_index_is_Some in Hx'. rewrite Hx in Hx'. by destruct Hx'.
  - simpl. split; [done|]. intros [Hy' _]. rewrite <- Hlen in Hy'.
    apply py_index_is_Some in Hy'. rewrite Hy in Hy'. by destruct Hy'.
Qed.

Lemma do_writes_shape h w ws : ∀ g g',
  grid_shape h w g → do_writes g ws = Ok g' → grid_shape h w g'.
Proof.
  induction ws as [|[[y x] c] ws IH]; simpl; intros g g' Hg Hw.
  - by injection Hw as <-.
  - inv_ok. eauto using grid_set_shape.
Qed.

Lemma place_pieces_shape h w ps : ∀ st st',
  grid_shape h w st.1 → place_pieces st ps = Ok st' → grid_shape h w st'.1.
Proof.
  induction ps as [|p ps IH]; simpl; intros st st' Hg Hp.
  - by injection Hp as <-.
  - inv_ok. eapply IH; [|done]. unfold place_piece in *. inv_ok. subst.
    simpl. eauto using do_writes_shape.
Qed.

(** ** The goal piece recorded by the overlay loop *)

Lemma place_pieces_goal ps : ∀ st st',
  place_pieces st ps = Ok st' → st'.2 = last_goal st.2 ps.
Proof.
  induction ps as [|p ps IH]; simpl; intros st st' Hp.
  - by injection Hp as <-.
  - inv_ok. rewrite (IH _ _ Hp). unfold place_piece in *. inv_ok. by subst.
Qed.

Lemma init_inv ps b :
  Board.init ps = Ok b →
  ∃ g, place_pieces (blank_grid 4 5, None) ps = Ok (g, last_goal None ps) ∧
       count_empty g = 2 ∧
       b = mkBoard 4 5 ps g (last_goal None ps) (grid_string g).
Proof.
  unfold Board.init, Board.construct_grid. intros Hb.
  destruct (place_pieces _ ps) as [[g go]|] eqn:Hp; [|done]. simpl in Hb.
  case_decide as Hc; [done|]. simpl in Hb. injection Hb as <-.
  pose proof (place_pieces_goal _ _ _ Hp) as Hgo. simpl in *. subst go.
  exists g. split_and!; [done|lia|done].
Qed.

Lemma init_pieces ps b : Board.init ps = Ok b → pieces b = ps.
Proof. intros (g & _ & _ & ->)%init_inv. done. Qed.

Lemma init_goal ps b : Board.init ps = Ok b → goal b = last_goal None ps.
Proof. intros (g & _ & _ & ->)%init_inv. done. Qed.

Lemma near_refl p : near p p.
Proof. split; [done|lia]. Qed.

Lemma last_goal_near ps qs : ∀ i j,
  Forall2 near ps qs → option_Forall2 near i j →
  option_Forall2 near (last_goal i ps) (last_goal j qs).
Proof.
  intros i j Hpq. revert i j.
  induction Hpq as [|p q ps qs [Hg Hd] Hpq IH]; simpl; intros i j Hij; [done|].
  apply IH. rewrite <- Hg. destruct (is_goal p) eqn:Hp; [|done].
  constructor. split; [congruence|done].
Qed.

Lemma last_goal_is_goal ps g : last_goal None ps = Some g → is_goal g = true.
Proof.
  assert (∀ i, (∀ g, i = Some g → is_goal g = true) →
               ∀ g, last_goal i ps = Some g → is_goal g = true) as Hgen.
  { induction ps as [|p ps IH]; simpl; intros i Hi g'; [by auto|].
    apply IH. intros g''. destruct (is_goal p) eqn:Hp; [|by auto].
    by intros [= <-]. }
  apply Hgen. done.
Qed.

Lemma last_goal_None_iff ps :
  last_goal None ps = None ↔ Forall (λ p, is_goal p = false) ps.
Proof.
  assert (∀ i, last_goal i ps = None ↔ i = None ∧ Forall (λ p, is_goal p = false) ps)
    as Hgen.
  { induction ps as [|p ps IH]; simpl; intros i.
    - split; [by intros ->|by intros [-> _]].
    - rewrite IH, Forall_cons. destruct (is_goal p); naive_solver. }
  rewrite Hgen. naive_solver.
Qed.

Lemma move_near p x y q :
  (x, y) ∈ State.directions → Piece.move p x y = Ok q → near p q.
Proof.
  unfold Piece.move. case_decide; [done|]. intros Hd [= <-]. split; [done|]. simpl.
  unfold State.directions in Hd.
  repeat (apply elem_of_cons in Hd as [[= -> ->]|Hd]; [lia|]).
  by apply elem_of_nil in Hd.
Qed.

(** What [Board.move] does for an index that [range(len(pieces))] yields. *)
Lemma move_of_nat ps b (i : nat) p x y :
  pieces b = ps → ps !! i = Some p →
  Board.move b (Z.of_nat i) x y =
    (moved ←? Piece.move p x y; Board.init (<[i := moved]> ps)).
Proof.
  intros <- Hi. unfold Board.move.
  rewrite (py_getitem_of_nat _ _ _ Hi). simpl.
  destruct (Piece.move p x y) as [q|e]; [simpl|done].
  rewrite py_setitem_of_nat by (by eapply lookup_lt_Some). done.
Qed.

Lemma constructed_intro ps b d p s :
  Board.init ps = Ok b → State.init b d p = Ok s → constructed s.
Proof.
  intros Hb Hs. exists ps, d, p. unfold State.init in *.
  destruct (State.board_distance b) as [h|] eqn:Hh; [|done].
  simpl in Hs. injection Hs as <-. simpl. by rewrite Hh.
Qed.

Lemma constructed_goal s :
  constructed s → ∃ g, goal (board s) = Some g ∧ is_goal g = true ∧
    f s = depth s + (Z.abs (coord_x g - 1) + Z.abs (coord_y g - 3)).
Proof.
  intros (ps & d & p & Hb & Hs). unfold State.init, State.board_distance in Hs.
  pose proof (init_goal _ _ Hb) as Hg.
  destruct (goal (board s)) as [g|] eqn:Hgoal; [|done]. simpl in Hs.
  injection Hs as Hs. exists g. split_and!; [done| |by rewrite <- Hs].
  by eapply last_goal_is_goal.
Qed.

Lemma candidate_inv s i d t :
  State.candidate s i d = Ok t →
  ∃ b', Board.move (board s) i d.1 d.2 = Ok b' ∧ State.init b' (depth s + 1) (Some s) = Ok t.
Proof. unfold State.candidate. intros. inv_ok. eauto. Qed.

Lemma elem_of_generate_successors s t :
  t ∈ State.generate_successors s ↔
  ∃ (i : nat) d, (i < length (pieces (board s)))%nat ∧ d ∈ State.directions ∧
                 State.candidate s (Z.of_nat i) d = Ok t.
Proof.
  unfold State.generate_successors. rewrite list_elem_of_In, in_flat_map. split.
  - intros (i & Hi%in_seq & Ht). apply in_flat_map in Ht as (d & Hd & Ht).
    exists i, d. split; [lia|]. split; [by apply list_elem_of_In|].
    unfold State.attempt in Ht. destruct (State.candidate _ _ _); [|done].
    destruct Ht as [->|[]]. done.
  - intros (i & d & Hi & Hd & Ht). exists i. split; [apply in_seq; lia|].
    apply in_flat_map. exists d. split; [by apply list_elem_of_In|].
    unfold State.attempt. rewrite Ht. by left.
Qed.

Lemma successor_constructed s t :
  constructed s → t ∈ State.generate_successors s → constructed t.
Proof.
  intros _ (i & d & _ & _ & (b' & Hm & Ht)%candidate_inv)%elem_of_generate_successors.
  unfold Board.move in Hm. inv_ok. eauto using constructed_intro.
Qed.

(** ** Successor generation *)

Lemma moved_board_has_goal ps i p x y q b' g :
  ps !! i = Some p → (x, y) ∈ State.directions → Piece.move p x y = Ok q →
  last_goal None ps = Some g → Board.init (<[i := q]> ps) = Ok b' →
  ∃ g', goal b' = Some g' ∧ near g g'.
Proof.
  intros Hi Hd Hq Hg Hb'. rewrite (init_goal _ _ Hb').
  assert (Forall2 near ps (<[i := q]> ps)) as Hnear.
  { rewrite <- (list_insert_id ps i p) at 1 by done.
    apply Forall2_insert; [|by eapply move_near].
    apply Forall_Forall2_diag, Forall_forall. intros. apply near_refl. }
  pose proof (last_goal_near _ _ None None Hnear ltac:(constructor)) as Hlg.
  rewrite Hg in Hlg. inversion Hlg; subst. eauto.
Qed.



(** ** The overlay as one sequence of writes *)

Lemma do_writes_app ws1 ws2 g :
  do_writes g (ws1 ++ ws2) = (g' ←? do_writes g ws1; do_writes g' ws2).
Proof.
  revert g. induction ws1 as [|[[y x] c] ws1 IH]; intros g; simpl; [done|].
  destruct (grid_set g y x c); simpl; [apply IH|done].
Qed.

Lemma place_pieces_writes ps : ∀ g go,
  place_pieces (g, go) ps =
    (g' ←? do_writes g (all_writes ps); Ok (g', last_goal go ps)).
Proof.
  unfold all_writes.
  induction ps as [|p ps IH]; intros g go; simpl; [done|].
  rewrite do_writes_app. unfold place_piece at 1. simpl.
  destruct (do_writes g (piece_writes p)) as [g1|]; simpl; [|done].
  apply IH.
Qed.

Lemma grid_set_Raise g y x c e : grid_set g y x c = Raise e → e = IndexError.
Proof.
  unfold grid_set. repeat case_match; congruence.
Qed.

Lemma do_writes_Raise ws : ∀ g e, do_writes g ws = Raise e → e = IndexError.
Proof.
  induction ws as [|[[y x] c] ws IH]; simpl; intros g e; [done|].
  intros [Hr|(g' & _ & Hr)]%rbind_Raise; eauto using grid_set_Raise.
Qed.

Lemma do_writes_is_Ok h w ws : ∀ g,
  grid_shape h w g →
  is_Ok (do_writes g ws) = true ↔ Forall (write_in_range h w) ws.
Proof.
  induction ws as [|[[y x] c] ws IH]; simpl; intros g Hg.
  - split; [constructor|done].
  - rewrite Forall_cons. unfold write_in_range at 1. simpl.
    rewrite <- (grid_set_is_Ok h w g y x c Hg).
    destruct (grid_set g y x c) as [g'|] eqn:Hset; simpl.
    + rewrite (IH g') by eauto using grid_set_shape. tauto.
    + split; [done|]. by intros [? _].
Qed.

(** ** Outcome of board construction *)

Lemma init_Ok_iff ps :
  is_Ok (Board.init ps) = true ↔
  ∃ g, do_writes (blank_grid 4 5) (all_writes ps) = Ok g ∧ count_empty g = 2.
Proof.
  unfold Board.init, Board.construct_grid. rewrite place_pieces_writes.
  destruct (do_writes _ _) as [g|]; simpl.
  - case_decide; simpl; split; try done.
    + intros (g' & [= <-] & ?). done.
    + intros _. exists g. split; [done|lia].
  - split; [done|]. by intros (? & ? & _).
Qed.

Lemma init_invalid_iff ps :
  Board.init ps = Raise (ValueError "The board is not valid.") ↔
  ∃ g, do_writes (blank_grid 4 5) (all_writes ps) = Ok g ∧ count_empty g ≠ 2.
Proof.
  unfold Board.init, Board.construct_grid. rewrite place_pieces_writes.
  destruct (do_writes _ _) as [g|e] eqn:Hw; simpl.
  - case_decide; simpl; split; try done.
    + intros _. eauto.
    + intros (g' & [= <-] & ?). done.
  - split.
    + intros [= ->]. by apply do_writes_Raise in Hw.
    + by intros (? & ? & _).
Qed.

Lemma init_IndexError_iff ps :
  Board.init ps = Raise IndexError ↔ ¬ Forall (write_in_range 5 4) (all_writes ps).
Proof.
  rewrite <- (do_writes_is_Ok 5 4 _ (blank_grid 4 5)) by apply board_grid_shape.
  unfold Board.init, Board.construct_grid. rewrite place_pieces_writes.
  destruct (do_writes _ _) as [g|e] eqn:Hw; simpl.
  - case_decide; simpl; split; try done.
  - apply do_writes_Raise in Hw as ->. split; [by intros _|done].
Qed.

Lemma init_Raise ps e :
  Board.init ps = Raise e →
  e = ValueError "The board is not valid." ∨ e = IndexError.
Proof.
  unfold Board.init, Board.construct_grid. rewrite place_pieces_writes.
  destruct (do_writes _ _) as [g|e'] eqn:Hw; simpl.
  - case_decide; simpl; [|done]. intros [= <-]. by left.
  - intros [= <-]. apply do_writes_Raise in Hw as ->. by right.
Qed.

(** ** The board string *)

Lemma list_ascii_of_string_app s1 s2 :
  list_ascii_of_string (s1 +:+ s2) = list_ascii_of_string s1 ++ list_ascii_of_string s2.
Proof. induction s1 as [|a s1 IH]; simpl; [done|]. by rewrite <- IH. Qed.

Lemma string_length_chars s : String.length s = length (list_ascii_of_string s).
Proof. induction s as [|a s IH]; simpl; [done|]. by rewrite IH. Qed.

Lemma grid_string_chars g : list_ascii_of_string (grid_string g) = join_rows g.
Proof.
  unfold grid_string. induction g as [|row g IH]; [done|].
  destruct g as [|row' g].
  - simpl. apply list_ascii_of_string_of_list_ascii.
  - change (list_ascii_of_string
      (string_of_list_ascii row +:+ newline +:+
       String.concat newline (map string_of_list_ascii (row' :: g))) =
      row ++ "010"%char :: join_rows (row' :: g)).
    rewrite !list_ascii_of_string_app, IH, list_ascii_of_string_of_list_ascii.
    done.
Qed.

Lemma join_rows_length h w g :
  grid_shape (S h) w g → length (join_rows g) = (S h * w + h)%nat.
Proof.
  revert g. induction h as [|h IH]; intros g [Hlen Hrows].
  - destruct g as [|row [|??]]; try done. simpl.
    apply Forall_cons in Hrows as [-> _]. lia.
  - destruct g as [|row [|row' g]]; try done.
    apply Forall_cons in Hrows as [Hrow Hrows].
    change (length (row ++ "010"%char :: join_rows (row' :: g)) = (S (S h) * w + S h)%nat).
    rewrite length_app, length_cons, (IH (row' :: g)).
    + rewrite Hrow. lia.
    + split; [|done]. simpl in *. lia.
Qed.

Lemma join_rows_count g :
  Z.of_nat (length (filter (λ a, a = char_empty) (join_rows g))) = count_empty g.
Proof.
  induction g as [|row g IH]; [done|]. destruct g as [|row' g].
  - simpl. unfold count_row. lia.
  - change (join_rows (row :: row' :: g)) with (row ++ "010"%char :: join_rows (row' :: g)).
    rewrite filter_app, length_app, filter_cons_False by done.
    change (count_empty (row :: row' :: g)) with (count_row row + count_empty (row' :: g)).
    rewrite <- IH. unfold count_row. lia.
Qed.

Lemma join_rows_inj h w g1 g2 :
  grid_shape h w g1 → grid_shape h w g2 → join_rows g1 = join_rows g2 → g1 = g2.
Proof.
  revert h g2. induction g1 as [|r1 g1 IH]; intros h g2 [Hl1 Hr1] [Hl2 Hr2] Heq.
  - destruct g2; [done|]. simpl in *. congruence.
  - destruct g2 as [|r2 g2]; [simpl in *; congruence|].
    apply Forall_cons in Hr1 as [Hw1 Hr1]. apply Forall_cons in Hr2 as [Hw2 Hr2].
    destruct g1 as [|r1' g1], g2 as [|r2' g2]; simpl in Hl1, Hl2; try congruence.
    + simpl in Heq. by subst.
    + change (r1 ++ "010"%char :: join_rows (r1' :: g1) =
              r2 ++ "010"%char :: join_rows (r2' :: g2)) in Heq.
      apply app_inj_1 in Heq as [-> Heq]; [|congruence].
      injection Heq as Heq. f_equal.
      apply (IH (length (r1' :: g1))); [done|split; [|done]|done].
      simpl in *. lia.
Qed.

Lemma grid_string_inj h w g1 g2 :
  grid_shape h w g1 → grid_shape h w g2 → grid_string g1 = grid_string g2 → g1 = g2.
Proof.
  intros H1 H2 Heq. apply (join_rows_inj h w); [done..|].
  by rewrite <- !grid_string_chars, Heq.
Qed.

Lemma init_shape ps b : Board.init ps = Ok b → grid_shape 5 4 (grid b).
Proof.
  intros (g & Hp & _ & ->)%init_inv. simpl.
  apply (place_pieces_shape 5 4 ps (blank_grid 4 5, None) _ board_grid_shape Hp).
Qed.

Lemma init_board_string ps b :
  Board.init ps = Ok b → board_string b = grid_string (grid b).
Proof. intros (g & _ & _ & ->)%init_inv. done. Qed.

Lemma init_count ps b : Board.init ps = Ok b → count_empty (grid b) = 2.
Proof. intros (g & _ & ? & ->)%init_inv. done. Qed.

Lemma init_string_length ps b :
  Board.init ps = Ok b → String.length (board_string b) = 24%nat.
Proof.
  intros Hb. pose proof (init_shape _ _ Hb) as Hshape.
  rewrite string_length_chars, (init_board_string _ _ Hb), grid_string_chars.
  by rewrite (join_rows_length 4 4).
Qed.

(** ** Loader *)

Lemma read_char_no_goal y st x ch :
  ch ≠ char_goal → no_goal_piece st.1 → no_goal_piece (read_char y st x ch).1.
Proof.
  intros Hch Hst. destruct st as [ps found]. unfold read_char.
  repeat case_decide; simpl in *; try done;
    apply Forall_app; (split; [done|]); by repeat constructor.
Qed.

Lemma read_line_no_goal y line : ∀ st x,
  char_goal ∉ line → no_goal_piece st.1 → no_goal_piece (read_line y st x line).1.
Proof.
  induction line as [|ch line IH]; simpl; intros st x Hno Hst; [done|].
  apply IH; [set_solver|]. apply read_char_no_goal; [set_solver|done].
Qed.

Lemma read_lines_no_goal lines : ∀ st y,
  no_goal_marker lines → no_goal_piece st.1 → no_goal_piece (read_lines st y lines).1.
Proof.
  induction lines as [|line lines IH]; simpl; intros st y Hno Hst; [done|].
  apply Forall_cons in Hno as [Hline Hno].
  apply IH; [done|]. by apply read_line_no_goal.
Qed.

Lemma read_pieces_no_goal lines :
  no_goal_marker lines → no_goal_piece (read_pieces lines).
Proof. intros. apply read_lines_no_goal; [done|constructor]. Qed.

(** ** Cells of the grid *)

Lemma footprint_nil : footprint [] = [].
Proof. done. Qed.

Lemma footprint_cons p ps : footprint (p :: ps) = cells p ++ footprint ps.
Proof. unfold footprint, all_writes, cells. by rewrite flat_map_step, fmap_app. Qed.

Lemma footprint_app ps qs : footprint (ps ++ qs) = footprint ps ++ footprint qs.
Proof.
  induction ps as [|p ps IH]; [done|].
  by rewrite <- app_comm_cons, !footprint_cons, IH, app_assoc.
Qed.

Lemma elem_of_footprint pos ps :
  pos ∈ footprint ps ↔ ∃ p, p ∈ ps ∧ pos ∈ cells p.
Proof.
  induction ps as [|p ps IH].
  - rewrite footprint_nil. set_solver.
  - rewrite footprint_cons, elem_of_app, IH. set_solver.
Qed.

Lemma elem_of_all_writes wr ps :
  wr ∈ all_writes ps ↔ ∃ p, p ∈ ps ∧ wr ∈ piece_writes p.
Proof.
  unfold all_writes. rewrite list_elem_of_In, in_flat_map.
  setoid_rewrite list_elem_of_In. done.
Qed.

Lemma grid_get_blank pos : on_grid pos → grid_get (blank_grid 4 5) pos = Some char_empty.
Proof.
  destruct pos as [y x]. intros [[??] [??]]. unfold grid_get, blank_grid.
  cbn [fst snd] in *.
  rewrite lookup_replicate_2 by lia. cbn [mbind option_bind].
  by rewrite lookup_replicate_2 by lia.
Qed.

Lemma grid_get_on_grid g pos :
  grid_shape 5 4 g → 0 ≤ pos.1 → 0 ≤ pos.2 → is_Some (grid_get g pos) → on_grid pos.
Proof.
  intros [Hlen Hrows] Hy Hx [c Hc]. unfold grid_get in Hc.
  destruct (g !! Z.to_nat pos.1) as [row|] eqn:Hrow; [|done]. simpl in Hc.
  pose proof (lookup_lt_Some _ _ _ Hrow) as H1.
  pose proof (lookup_lt_Some _ _ _ Hc) as H2.
  eapply Forall_lookup_1 in Hrows; [|done]. unfold on_grid. lia.
Qed.

Lemma grid_set_get g y x c g' pos :
  grid_set g y x c = Ok g' → 0 ≤ y → 0 ≤ x → 0 ≤ pos.1 → 0 ≤ pos.2 →
  grid_get g' pos = if decide (pos = (y, x)) then Some c else grid_get g pos.
Proof.
  destruct pos as [y' x']. simpl. intros Hset Hy Hx Hy' Hx'. unfold grid_set in Hset.
  rewrite py_index_nonneg in Hset by done. case_decide as Hly; [|done].
  destruct (g !! Z.to_nat y) as [row|] eqn:Hrow; [|done].
  rewrite py_index_nonneg in Hset by done. case_decide as Hlx; [|done].
  injection Hset as <-. unfold grid_get. simpl.
  destruct (decide (Z.to_nat y' = Z.to_nat y)) as [Heq|Hne].
  - rewrite Heq, list_lookup_insert_eq by lia. simpl.
    assert (y' = y) as -> by lia.
    destruct (decide (Z.to_nat x' = Z.to_nat x)) as [Hex|Hnx].
    + assert (x' = x) as -> by lia.
      rewrite list_lookup_insert_eq by lia. by rewrite decide_True.
    + rewrite list_lookup_insert_ne by done.
      rewrite decide_False by (intros [= ->]; done). by rewrite Hrow.
  - rewrite list_lookup_insert_ne by done.
    rewrite decide_False by (intros [= -> ->]; done). done.
Qed.

Lemma do_writes_get_other ws : ∀ g g' pos,
  do_writes g ws = Ok g' → Forall write_nonneg ws → 0 ≤ pos.1 → 0 ≤ pos.2 →
  pos ∉ ws.*1 → grid_get g' pos = grid_get g pos.
Proof.
  induction ws as [|[[y x] c] ws IH]; simpl; intros g g' pos Hw Hnn Hy Hx Hnot.
  - by injection Hw as <-.
  - apply rbind_Ok in Hw as (g1 & Hset & Hw).
    apply Forall_cons in Hnn as [[??] Hnn]. simpl in *.
    rewrite (IH g1 g' pos) by (done || set_solver).
    rewrite (grid_set_get _ _ _ _ _ _ Hset) by done.
    rewrite decide_False; [done|set_solver].
Qed.

Lemma do_writes_get_written ws : ∀ g g' pos c,
  do_writes g ws = Ok g' → Forall write_nonneg ws → NoDup ws.*1 →
  (pos, c) ∈ ws → grid_get g' pos = Some c.
Proof.
  induction ws as [|[[y x] c0] ws IH]; simpl; intros g g' pos c Hw Hnn Hnd Hin.
  - by apply elem_of_nil in Hin.
  - apply rbind_Ok in Hw as (g1 & Hset & Hw).
    apply Forall_cons in Hnn as [[??] Hnn]. simpl in *.
    apply NoDup_cons in Hnd as [Hnotin Hnd].
    apply elem_of_cons in Hin as [[= -> ->]|Hin].
    + rewrite (do_writes_get_other ws g1 g' (y, x)) by done.
      rewrite (grid_set_get _ _ _ _ _ _ Hset) by done. by rewrite decide_True.
    + by eapply IH.
Qed.

(** Every symbol the overlay writes differs from the empty-cell symbol. *)
Lemma piece_writes_not_empty p wr : wr ∈ piece_writes p → wr.2 ≠ char_empty.
Proof.
  unfold piece_writes. repeat case_match; intros Hwr;
    repeat (apply elem_of_cons in Hwr as [->|Hwr]; [done|]);
    by apply elem_of_nil in Hwr.
Qed.

Lemma do_writes_get_covered ws : ∀ g g' pos,
  do_writes g ws = Ok g' → Forall write_nonneg ws →
  Forall (λ wr, wr.2 ≠ char_empty) ws →
  pos ∈ ws.*1 → ∃ c, grid_get g' pos = Some c ∧ c ≠ char_empty.
Proof.
  induction ws as [|[[y x] c0] ws IH]; simpl; intros g g' pos Hw Hnn Hsym Hin.
  - by apply elem_of_nil in Hin.
  - apply rbind_Ok in Hw as (g1 & Hset & Hw).
    apply Forall_cons in Hnn as [[??] Hnn]. apply Forall_cons in Hsym as [? Hsym].
    simpl in *. destruct (decide (pos ∈ ws.*1)) as [Hlater|Hnot].
    + by eapply IH.
    + apply elem_of_cons in Hin as [->|?]; [|done].
      exists c0. split; [|done].
      rewrite (do_writes_get_other ws g1 g' (y, x)) by done.
      rewrite (grid_set_get _ _ _ _ _ _ Hset) by done. by rewrite decide_True.
Qed.

(** ** Layouts without overlap *)

Lemma on_grid_write_nonneg ws : Forall on_grid ws.*1 → Forall write_nonneg ws.
Proof.
  rewrite Forall_fmap. intros H. eapply Forall_impl; [exact H|].
  intros [[y x] c] [[??] [??]]. split; simpl in *; lia.
Qed.

Lemma all_writes_symbols ps : Forall (λ wr, wr.2 ≠ char_empty) (all_writes ps).
Proof.
  apply Forall_forall. intros wr (p & _ & Hwr)%elem_of_all_writes.
  by eapply piece_writes_not_empty.
Qed.

Lemma move_writes_nonneg p x y q :
  Piece.move p x y = Ok q → Forall write_nonneg (piece_writes q).
Proof.
  unfold Piece.move. case_decide as Hneg; [done|]. intros [= <-].
  unfold piece_writes. simpl.
  repeat case_match; repeat constructor; simpl; lia.
Qed.

Lemma move_cells_length p x y q :
  Piece.move p x y = Ok q → length (cells q) = length (cells p).
Proof.
  unfold Piece.move. case_decide; [done|]. intros [= <-].
  unfold cells, piece_writes. simpl. by repeat case_match.
Qed.

(** A unit translation uncovers at least one cell of the piece. *)
Lemma trailing_cell p x y q :
  (x, y) ∈ State.directions → Piece.move p x y = Ok q → cells p ≠ [] →
  ∃ pos, pos ∈ cells p ∧ pos ∉ cells q.
Proof.
  unfold Piece.move. case_decide; [done|]. intros Hd [= <-].
  unfold cells, piece_writes. simpl. unfold State.directions in Hd.
  assert (∀ l : list (Z * Z), Exists (λ pos, pos ∉ l) [] → False) as Hnil
    by (intros l H0; inversion H0).
  intros Hsolid.
  cut (Exists (λ pos, pos ∉ (piece_writes
         (mkPiece (is_goal p) (is_single p) (coord_x p + x) (coord_y p + y)
                  (orientation p))).*1) (piece_writes p).*1).
  { rewrite Exists_exists. unfold piece_writes. simpl. done. }
  unfold cells, piece_writes in *. simpl in *.
  repeat (apply elem_of_cons in Hd as [[= -> ->]|Hd];
    [ repeat case_match; simpl in *; try done;
      first [ apply Exists_cons_hd; set_solver by lia
            | apply Exists_cons_tl, Exists_cons_hd; set_solver by lia
            | apply Exists_cons_tl, Exists_cons_tl, Exists_cons_hd; set_solver by lia ] |]).
  by apply elem_of_nil in Hd.
Qed.

Lemma footprint_insert ps i p q :
  ps !! i = Some p →
  footprint ps = footprint (take i ps) ++ cells p ++ footprint (drop (S i) ps) ∧
  footprint (<[i := q]> ps) = footprint (take i ps) ++ cells q ++ footprint (drop (S i) ps).
Proof.
  intros Hi. split.
  - rewrite <- (take_drop_middle ps i p Hi) at 1.
    by rewrite footprint_app, footprint_cons.
  - rewrite insert_take_drop by (by eapply lookup_lt_Some).
    by rewrite footprint_app, footprint_cons.
Qed.

Lemma init_grid_writes ps b :
  Board.init ps = Ok b → do_writes (blank_grid 4 5) (all_writes ps) = Ok (grid b).
Proof.
  intros (g & Hp & _ & ->)%init_inv. rewrite place_pieces_writes in Hp.
  destruct (do_writes _ _) as [g'|]; [|done]. simpl in *. by injection Hp as ->.
Qed.

(** After a successful move of piece [i] in a tidy layout, some cell that
    the piece covered is empty in the new grid. *)
Lemma moved_board_uncovers ps b i p x y q b' :
  tidy ps → Board.init ps = Ok b → ps !! i = Some p →
  (x, y) ∈ State.directions → Piece.move p x y = Ok q →
  Board.init (<[i := q]> ps) = Ok b' →
  ∃ pos c, grid_get (grid b) pos = Some c ∧ c ≠ char_empty ∧
           grid_get (grid b') pos = Some char_empty.
Proof.
  intros [Hon Hnd Hsolid] Hb Hi Hd Hq Hb'.
  destruct (footprint_insert ps i p q Hi) as [Hfp Hfp'].
  destruct (trailing_cell p x y q Hd Hq) as (pos & Hin & Hout).
  { eapply Forall_lookup_1 in Hsolid; done. }
  assert (pos ∈ footprint ps) as Hpos.
  { rewrite Hfp, !elem_of_app. auto. }
  assert (on_grid pos) as Hgrid by (eapply Forall_forall in Hon; done).
  assert (pos ∉ footprint (<[i := q]> ps)) as Hfree.
  { rewrite Hfp in Hnd. apply NoDup_app in Hnd as (_ & Hd1 & Hnd).
    apply NoDup_app in Hnd as (_ & Hd2 & _).
    rewrite Hfp', !elem_of_app. intros [H1|[H2|H3]].
    - apply (Hd1 pos H1). rewrite elem_of_app. auto.
    - done.
    - by apply (Hd2 pos Hin). }
  assert (Forall write_nonneg (all_writes (<[i := q]> ps))) as Hnn'.
  { apply Forall_forall. intros wr (p' & Hp' & Hwr)%elem_of_all_writes.
    rewrite insert_take_drop in Hp' by (by eapply lookup_lt_Some).
    apply elem_of_app in Hp' as [Hp'|Hp'].
    - apply on_grid_write_nonneg in Hon.
      eapply Forall_forall in Hon; [done|]. apply elem_of_all_writes.
      exists p'. split; [|done]. by apply (subseteq_take i ps).
    - apply elem_of_cons in Hp' as [->|Hp'].
      + pose proof (move_writes_nonneg p x y q Hq) as Hnq.
        by eapply Forall_forall in Hnq.
      + apply on_grid_write_nonneg in Hon.
        eapply Forall_forall in Hon; [done|]. apply elem_of_all_writes.
        exists p'. split; [|done]. by apply (subseteq_drop (S i) ps). }
  destruct (do_writes_get_covered (all_writes ps) (blank_grid 4 5) (grid b) pos)
    as (c & Hc & Hne); eauto using init_grid_writes, on_grid_write_nonneg,
      all_writes_symbols.
  exists pos, c. split_and!; [done|done|].
  rewrite (do_writes_get_other (all_writes (<[i := q]> ps)) (blank_grid 4 5) (grid b') pos);
    eauto using init_grid_writes, grid_get_blank; destruct Hgrid; lia.
Qed.

(** ** The search loop *)

(** ** The keys a run can meet *)

Lemma elem_of_all_ascii a : a ∈ all_ascii.
Proof.
  unfold all_ascii. apply list_elem_of_fmap. exists (nat_of_ascii a).
  split; [by rewrite ascii_nat_embedding|].
  apply elem_of_seq. pose proof (nat_ascii_bounded a). lia.
Qed.

Lemma words_S n : words (S n) = flat_map (λ a, (a ::.) <$> words n) all_ascii.
Proof. done. Qed.

Lemma elem_of_words l : l ∈ words (length l).
Proof.
  induction l as [|a l IH]; [by left|].
  rewrite length_cons, words_S.
  apply list_elem_of_In, in_flat_map. exists a.
  split; [apply list_elem_of_In, elem_of_all_ascii|].
  apply list_elem_of_In, list_elem_of_fmap. eauto.
Qed.

Lemma constructed_key s : constructed s → key s ∈ key_universe.
Proof.
  intros (ps & d & p & Hb & _). unfold key, key_universe.
  apply elem_of_list_to_set, list_elem_of_fmap.
  exists (list_ascii_of_string (board_string (board s))).
  split; [by rewrite string_of_list_ascii_of_string|].
  pose proof (init_string_length ps (board s) Hb) as Hlen.
  rewrite string_length_chars in Hlen. rewrite <- Hlen. apply elem_of_words.
Qed.

Lemma constructed_is_goal s : constructed s → ∃ r, State.is_goal s = Ok r.
Proof.
  intros (g & Hg & _)%constructed_goal. unfold State.is_goal. rewrite Hg. eauto.
Qed.

(** ** Reachability through [generate_successors] *)

Lemma path_constructed root t n : constructed root → path root t n → constructed t.
Proof. induction 2; eauto using successor_constructed. Qed.

Lemma successor_depth s t :
  t ∈ State.generate_successors s → depth t = depth s + 1 ∧ parent t = Some s.
Proof.
  intros (i & d & _ & _ & (b' & _ & Ht)%candidate_inv)%elem_of_generate_successors.
  unfold State.init in Ht. destruct (State.board_distance b'); [|done].
  simpl in Ht. by injection Ht as <-.
Qed.

Lemma path_depth root t n : path root t n → depth t = depth root + Z.of_nat n.
Proof.
  induction 1 as [|t u n _ IH Hu]; [lia|].
  apply successor_depth in Hu as [-> _]. lia.
Qed.

(** ** A rule for the loop: termination and an invariant *)

Lemma search_loop_S {F} `{Frontier F} fuel seen (frontier : F) :
  search_loop (S fuel) seen frontier =
  if fr_bool frontier then
    match fr_pop frontier with
    | Raise e => Some (Raise e)
    | Ok (state, frontier') =>
        if decide (key state ∈ seen) then search_loop fuel seen frontier'
        else
          match State.is_goal state with
          | Raise e => Some (Raise e)
          | Ok true => Some (Ok (Some state))
          | Ok false =>
              search_loop fuel (seen ∪ {[key state]})
                (fr_extend frontier' (State.generate_successors state))
          end
    end
  else Some (Ok None).
Proof. done. Qed.

Lemma size_unseen_decreases (U seen : gset string) (k : string) :
  k ∈ U → k ∉ seen → (size (U ∖ (seen ∪ {[k]})) < size (U ∖ seen))%nat.
Proof. intros. apply subset_size. set_solver. Qed.

Section LoopRule.
Context {F : Type} `{FrontierLaws F}.
Variable I : gset string → F → Prop.
Hypothesis I_ok : ∀ seen fr, I seen fr → fr_ok fr ∧ Forall constructed (fr_items fr).
Hypothesis I_skip : ∀ seen fr x fr',
  I seen fr → fr_pop fr = Ok (x, fr') → fr_ok fr' → fr_items fr ≡ₚ x :: fr_items fr' →
  key x ∈ seen → I seen fr'.
Hypothesis I_expand : ∀ seen fr x fr',
  I seen fr → fr_pop fr = Ok (x, fr') → fr_ok fr' → fr_items fr ≡ₚ x :: fr_items fr' →
  key x ∉ seen → State.is_goal x = Ok false →
  I (seen ∪ {[key x]}) (fr_extend fr' (State.generate_successors x)).

Lemma search_loop_rule_aux : ∀ n m seen fr,
  (size (key_universe ∖ seen) ≤ n)%nat → (length (fr_items fr) ≤ m)%nat →
  I seen fr →
  ∃ fuel r, (∀ k, search_loop (fuel + k) seen fr = Some (Ok r)) ∧ finished I r.
Proof.
  intros n. induction n as [n IHn] using lt_wf_ind.
  intros m. induction m as [|m IHm]; intros seen fr Hn Hm HI;
    destruct (I_ok _ _ HI) as [Hok Hcon].
  - destruct (fr_items fr) as [|x l] eqn:Hitems; [|simpl in Hm; lia].
    exists 1%nat, None. split; [|by exists seen, fr].
    intros k. change (1 + k)%nat with (S k). rewrite search_loop_S.
    destruct (fr_bool fr) eqn:Hb; [|done].
    apply fr_bool_items in Hb. congruence.
  - destruct (decide (fr_items fr = [])) as [Hnil|Hne].
    { exists 1%nat, None. split; [|by exists seen, fr].
      intros k. change (1 + k)%nat with (S k). rewrite search_loop_S.
      destruct (fr_bool fr) eqn:Hb; [|done].
      apply fr_bool_items in Hb. congruence. }
    destruct (fr_pop_items fr Hok Hne) as (x & fr' & Hpop & Hok' & Hperm).
    assert (fr_bool fr = true) as Hb by (by apply fr_bool_items).
    assert (constructed x) as Hx.
    { eapply Forall_forall; [done|]. rewrite Hperm. by left. }
    destruct (decide (key x ∈ seen)) as [Hseen|Hnew].
    + destruct (IHm seen fr') as (fuel & r & Hrun & Hfin); [done| |eauto|].
      { apply Permutation_length in Hperm. simpl in Hperm. lia. }
      exists (S fuel), r. split; [|done]. intros k.
      change (S fuel + k)%nat with (S (fuel + k)).
      rewrite search_loop_S, Hb, Hpop, decide_True by done. apply Hrun.
    + destruct (constructed_is_goal x Hx) as [[|] Hgoal].
      * exists 1%nat, (Some x). split; [|by exists seen, fr, fr'].
        intros k. change (1 + k)%nat with (S k).
        by rewrite search_loop_S, Hb, Hpop, decide_False, Hgoal by done.
      * set (seen' := seen ∪ {[key x]}).
        set (fr'' := fr_extend fr' (State.generate_successors x)).
        assert (size (key_universe ∖ seen') < size (key_universe ∖ seen))%nat as Hlt.
        { apply size_unseen_decreases; [by apply constructed_key|done]. }
        destruct (IHn (size (key_universe ∖ seen')) ltac:(lia)
                    (length (fr_items fr'')) seen' fr'') as (fuel & r & Hrun & Hfin);
          [lia|lia|by apply (I_expand seen fr x fr')|].
        exists (S fuel), r. split; [|done]. intros k.
        change (S fuel + k)%nat with (S (fuel + k)).
        rewrite search_loop_S, Hb, Hpop, decide_False, Hgoal by done. apply Hrun.
Qed.

Lemma search_loop_rule seen fr :
  I seen fr →
  ∃ fuel r, (∀ k, search_loop (fuel + k) seen fr = Some (Ok r)) ∧ finished I r.
Proof. intros. by eapply search_loop_rule_aux. Qed.

End LoopRule.

(** ** Frontier laws of the two strategies *)

(** ** The stack *)

Lemma last_removelast {A} (l : list A) (x : A) :
  last l = Some x → l = removelast l ++ [x].
Proof.
  intros Hlast. destruct l as [|a l] using rev_ind; [done|].
  rewrite last_snoc in Hlast. injection Hlast as ->.
  by rewrite removelast_last.
Qed.

#[export, refine] Instance list_frontier_laws : FrontierLaws (list State) :=
  {| fr_items := λ l, l; fr_ok := λ _, True |}.
Proof.
  - intros [|x l]; simpl; split; done.
  - intros l x _. split; [done|]. simpl. unfold PyList.append.
    by rewrite Permutation_app_comm.
  - intros l xs _. split; [done|]. simpl. unfold PyList.extend.
    by rewrite Permutation_app_comm.
  - intros l _ Hne. simpl. unfold PyList.pop.
    destruct (last l) as [x|] eqn:Hlast.
    + exists x, (removelast l). split_and!; [done..|].
      rewrite (last_removelast l x Hlast) at 1. by rewrite Permutation_app_comm.
    + apply last_None in Hlast. done.
Defined.

(** ** Binary heaps *)

Lemma insert_cons_perm {A} (l : list A) (i : nat) (a c : A) :
  l !! i = Some c → c :: <[i := a]> l ≡ₚ a :: l.
Proof.
  revert i. induction l as [|x l IH]; intros [|i] Hi; simpl in *; try done.
  - injection Hi as ->. apply perm_swap.
  - rewrite (perm_swap x c), (IH i Hi). apply perm_swap.
Qed.

(** Filling a hole at [j] after moving the item at [j] to [i] is a
    transposition of what filling the hole at [i] gives. *)
Lemma insert_swap_perm {A} (l : list A) (i j : nat) (a b : A) :
  l !! j = Some b → (i < length l)%nat →
  <[j := a]> (<[i := b]> l) ≡ₚ <[i := a]> l.
Proof.
  intros Hj Hi. destruct (decide (i = j)) as [->|Hne].
  - by rewrite list_insert_insert_eq.
  - destruct (lookup_lt_is_Some_2 l i Hi) as [c Hc].
    apply (Permutation_cons_inv (a := b)), (Permutation_cons_inv (a := c)).
    transitivity (a :: b :: l).
    + rewrite (insert_cons_perm (<[i := b]> l) j a b)
        by (by rewrite list_lookup_insert_ne).
      by rewrite (perm_swap a c), (insert_cons_perm l i b c Hc).
    + rewrite (perm_swap b c), (insert_cons_perm l i a c Hc). apply perm_swap.
Qed.

Lemma parent_pos_lt i : (0 < i)%nat → (parent_pos i < i)%nat.
Proof.
  intros. unfold parent_pos.
  pose proof (Nat.div_mod_eq (i - 1) 2). pose proof (Nat.mod_upper_bound (i - 1) 2). lia.
Qed.

Lemma parent_pos_child c p :
  (0 < c)%nat → parent_pos c = p ↔ c = (2 * p + 1)%nat ∨ c = (2 * p + 2)%nat.
Proof.
  intros. unfold parent_pos.
  pose proof (Nat.div_mod_eq (c - 1) 2). pose proof (Nat.mod_upper_bound (c - 1) 2).
  split; [lia|]. intros [->| ->].
  - replace (2 * p + 1 - 1)%nat with (p * 2)%nat by lia. by rewrite Nat.div_mul.
  - replace (2 * p + 2 - 1)%nat with (1 + p * 2)%nat by lia.
    rewrite Nat.div_add by done. done.
Qed.

Lemma lookup_insert2 {A} (l : list A) (i j k : nat) (x y : A) :
  i ≠ j → (i < length l)%nat → (j < length l)%nat →
  <[i := x]> (<[j := y]> l) !! k =
    if decide (k = i) then Some x else if decide (k = j) then Some y else l !! k.
Proof.
  intros. repeat case_decide; subst.
  - by rewrite list_lookup_insert_eq by (by rewrite length_insert).
  - rewrite list_lookup_insert_ne by done. by rewrite list_lookup_insert_eq.
  - by rewrite !list_lookup_insert_ne by done.
Qed.

Section HeapProofs.
Context {A : Type} (lt : A → A → bool) (prio : A → Z).
Hypothesis lt_prio : ∀ a b, lt a b = bool_decide (prio a < prio b).

Lemma heap_ordered_root l r :
  heap_ordered prio l → l !! 0%nat = Some r → ∀ x, x ∈ l → prio r ≤ prio x.
Proof.
  intros Hord Hr x (i & Hi)%list_elem_of_lookup. revert x Hi.
  induction i as [i IH] using lt_wf_ind. intros x Hi.
  destruct (decide (i = 0%nat)) as [->|Hpos]; [by simplify_eq|].
  assert (parent_pos i < i)%nat as Hlt by (apply parent_pos_lt; lia).
  destruct (lookup_lt_is_Some_2 l (parent_pos i)) as [b Hb].
  { apply lookup_lt_Some in Hi. lia. }
  pose proof (IH _ Hlt b Hb). pose proof (Hord i x b ltac:(lia) Hi Hb). lia.
Qed.

Lemma siftdown_loop_0 heap x s pos :
  heapq.siftdown_loop lt 0 heap x s pos = <[pos := x]> heap.
Proof. done. Qed.

Lemma siftdown_loop_S fuel heap x s pos :
  heapq.siftdown_loop lt (S fuel) heap x s pos =
  if decide (s < pos)%nat then
    match heap !! parent_pos pos with
    | Some par =>
        if lt x par
        then heapq.siftdown_loop lt fuel (<[pos := par]> heap) x s (parent_pos pos)
        else <[pos := x]> heap
    | None => <[pos := x]> heap
    end
  else <[pos := x]> heap.
Proof. done. Qed.

Lemma siftdown_loop_hole fuel : ∀ heap x y s pos,
  heapq.siftdown_loop lt fuel (<[pos := y]> heap) x s pos =
  heapq.siftdown_loop lt fuel heap x s pos.
Proof.
  induction fuel as [|fuel IH]; intros heap x y s pos.
  - by rewrite !siftdown_loop_0, list_insert_insert_eq.
  - rewrite !siftdown_loop_S.
    case_decide as Hs; [|by rewrite list_insert_insert_eq].
    assert (parent_pos pos ≠ pos) as Hne by (pose proof (parent_pos_lt pos); lia).
    rewrite list_lookup_insert_ne by done.
    destruct (heap !! parent_pos pos) as [par|]; [|by rewrite list_insert_insert_eq].
    destruct (lt x par); by rewrite list_insert_insert_eq.
Qed.

Lemma siftdown_loop_perm fuel : ∀ l x s pos,
  l !! pos = Some x → heapq.siftdown_loop lt fuel l x s pos ≡ₚ l.
Proof.
  induction fuel as [|fuel IH]; intros l x s pos Hx.
  - by rewrite siftdown_loop_0, list_insert_id.
  - rewrite siftdown_loop_S. case_decide as Hs; [|by rewrite list_insert_id].
    assert (parent_pos pos < pos)%nat as Hlt by (apply parent_pos_lt; lia).
    pose proof (lookup_lt_Some _ _ _ Hx) as Hlen.
    destruct (l !! parent_pos pos) as [par|] eqn:Hpar; [|by rewrite list_insert_id].
    destruct (lt x par); [|by rewrite list_insert_id].
    rewrite <- (siftdown_loop_hole fuel _ x x).
    rewrite IH by (apply list_lookup_insert_eq; rewrite length_insert; lia).
    rewrite insert_swap_perm by done. by rewrite list_insert_id.
Qed.

Lemma siftdown_loop_ordered fuel : ∀ l x pos,
  (pos ≤ fuel)%nat → l !! pos = Some x → down_inv prio l pos →
  heap_ordered prio (heapq.siftdown_loop lt fuel l x 0 pos).
Proof.
  induction fuel as [|fuel IH]; intros l x pos Hfuel Hx [Hinv1 Hinv2].
  - rewrite siftdown_loop_0, list_insert_id by done.
    intros i a b Hi. apply Hinv1; lia.
  - rewrite siftdown_loop_S. case_decide as Hs.
    2:{ rewrite list_insert_id by done. intros i a b Hi. apply Hinv1; lia. }
    assert (parent_pos pos < pos)%nat as Hlt by (apply parent_pos_lt; lia).
    pose proof (lookup_lt_Some _ _ _ Hx) as Hlen.
    destruct (lookup_lt_is_Some_2 l (parent_pos pos) ltac:(lia)) as [par Hpar].
    rewrite Hpar, lt_prio. case_bool_decide as Hcmp.
    + rewrite <- (siftdown_loop_hole fuel _ x x).
      apply IH; [lia|apply list_lookup_insert_eq; rewrite length_insert; lia|].
      split.
      * intros i a b Hi Hne Ha Hb.
        rewrite lookup_insert2 in Ha, Hb by lia.
        rewrite (decide_False (P := i = parent_pos pos)) in Ha by done.
        destruct (decide (i = pos)) as [->|Hip].
        { rewrite decide_True in Hb by done. simplify_eq. lia. }
        destruct (decide (parent_pos i = parent_pos pos)) as [Heq|Hnp].
        { injection Hb as <-.
          pose proof (Hinv1 i a par Hi Hip Ha ltac:(by rewrite Heq)). lia. }
        destruct (decide (parent_pos i = pos)) as [Heq|Hnq].
        { injection Hb as <-. by apply (Hinv2 i a par). }
        by apply (Hinv1 i a b).
      * intros c a b Hpp Hc Hpc Ha Hb.
        assert (parent_pos (parent_pos pos) < parent_pos pos)%nat
          by (by apply parent_pos_lt).
        rewrite lookup_insert2 in Ha, Hb by lia.
        rewrite !decide_False in Hb by lia.
        assert (c ≠ parent_pos pos) by (pose proof (parent_pos_lt c); lia).
        rewrite (decide_False (P := c = parent_pos pos)) in Ha by done.
        destruct (decide (c = pos)) as [->|Hcp].
        { injection Ha as <-.
          apply (Hinv1 (parent_pos pos) par b); [done|lia|done|done]. }
        pose proof (Hinv1 c a par Hc Hcp Ha ltac:(by rewrite Hpc)).
        pose proof (Hinv1 (parent_pos pos) par b Hpp ltac:(lia) Hpar Hb). lia.
    + rewrite list_insert_id by done. intros i a b Hi Ha Hb.
      destruct (decide (i = pos)) as [->|Hip]; [|by apply (Hinv1 i a b)].
      simplify_eq. lia.
Qed.

Lemma siftdown_perm l pos : heapq.siftdown lt l 0 pos ≡ₚ l.
Proof.
  unfold heapq.siftdown. destruct (l !! pos) eqn:Hx; [|done].
  by apply siftdown_loop_perm.
Qed.

Lemma siftdown_ordered l pos :
  (pos < length l)%nat → down_inv prio l pos → heap_ordered prio (heapq.siftdown lt l 0 pos).
Proof.
  intros Hpos Hinv. unfold heapq.siftdown.
  destruct (lookup_lt_is_Some_2 l pos Hpos) as [x Hx]. rewrite Hx.
  by apply siftdown_loop_ordered.
Qed.

Lemma heappush_perm heap item : heapq.heappush lt heap item ≡ₚ item :: heap.
Proof.
  unfold heapq.heappush. rewrite siftdown_perm. by rewrite Permutation_app_comm.
Qed.

Lemma heappush_ordered heap item :
  heap_ordered prio heap → heap_ordered prio (heapq.heappush lt heap item).
Proof.
  intros Hord. unfold heapq.heappush.
  assert (length (heap ++ [item]) = S (length heap)) as Hlen
    by (rewrite length_app; simpl; lia).
  replace (length (heap ++ [item]) - 1)%nat with (length heap) by lia.
  apply siftdown_ordered; [lia|]. split.
  - intros i a b Hi Hne Ha Hb.
    pose proof (lookup_lt_Some _ _ _ Ha) as Hlt.
    pose proof (parent_pos_lt i Hi).
    rewrite lookup_app_l in Ha, Hb by lia. by apply (Hord i a b).
  - intros c a b _ Hc Hpc Ha _.
    pose proof (lookup_lt_Some _ _ _ Ha) as Hlt.
    pose proof (parent_pos_lt c Hc). lia.
Qed.

Lemma siftup_loop_S fuel (heap : list A) pos childpos :
  heapq.siftup_loop lt (S fuel) heap pos childpos =
  if decide (childpos < length heap)%nat then
    let childpos' :=
      match heap !! childpos, heap !! (childpos + 1)%nat with
      | Some l, Some r => if negb (lt l r) then (childpos + 1)%nat else childpos
      | _, _ => childpos
      end in
    match heap !! childpos' with
    | Some c =>
        heapq.siftup_loop lt fuel (<[pos := c]> heap) childpos' (2 * childpos' + 1)%nat
    | None => (heap, pos)
    end
  else (heap, pos).
Proof. done. Qed.

(** The child [_siftup] moves up is the least of the children in range. *)
Lemma chosen_child (heap : list A) (pos : nat) (lc : A) :
  heap !! (2 * pos + 1)%nat = Some lc →
  ∃ ch c,
    match heap !! (2 * pos + 1)%nat, heap !! (2 * pos + 1 + 1)%nat with
    | Some l, Some r => if negb (lt l r) then (2 * pos + 1 + 1)%nat else (2 * pos + 1)%nat
    | _, _ => (2 * pos + 1)%nat
    end = ch ∧
    heap !! ch = Some c ∧ parent_pos ch = pos ∧ (pos < ch)%nat ∧
    ∀ k a, (0 < k)%nat → parent_pos k = pos → heap !! k = Some a → prio c ≤ prio a.
Proof.
  intros Hlc. rewrite Hlc.
  assert (parent_pos (2 * pos + 1) = pos) as Hp1 by (apply parent_pos_child; lia).
  assert (parent_pos (2 * pos + 1 + 1) = pos) as Hp2 by (apply parent_pos_child; lia).
  destruct (heap !! (2 * pos + 1 + 1)%nat) as [rc|] eqn:Hrc.
  - rewrite lt_prio. case_bool_decide as Hcmp; cbn [negb].
    + exists (2 * pos + 1)%nat, lc. split_and!; try done; try lia.
      intros k a Hk Hpk Ha. apply parent_pos_child in Hpk as [->|Hk2]; [|subst k|done].
      * simplify_eq. lia.
      * replace (2 * pos + 2)%nat with (2 * pos + 1 + 1)%nat in Ha by lia.
        simplify_eq. lia.
    + exists (2 * pos + 1 + 1)%nat, rc. split_and!; try done; try lia.
      intros k a Hk Hpk Ha. apply parent_pos_child in Hpk as [->|Hk2]; [|subst k|done].
      * simplify_eq. lia.
      * replace (2 * pos + 2)%nat with (2 * pos + 1 + 1)%nat in Ha by lia.
        simplify_eq. lia.
  - exists (2 * pos + 1)%nat, lc. split_and!; try done; try lia.
    intros k a Hk Hpk Ha. apply parent_pos_child in Hpk as [->|Hk2]; [|subst k|done].
    + simplify_eq. lia.
    + replace (2 * pos + 2)%nat with (2 * pos + 1 + 1)%nat in Ha by lia. congruence.
Qed.

Lemma siftup_loop_spec fuel : ∀ (heap : list A) (pos : nat),
  (length heap ≤ fuel + pos)%nat → (pos < length heap)%nat → up_inv prio heap pos →
  ∃ heap' pos',
    heapq.siftup_loop lt fuel heap pos (2 * pos + 1)%nat = (heap', pos') ∧
    (pos' < length heap')%nat ∧
    (∀ x, <[pos' := x]> heap' ≡ₚ <[pos := x]> heap) ∧
    (∀ x, down_inv prio (<[pos' := x]> heap') pos').
Proof.
  induction fuel as [|fuel IH]; intros heap pos Hfuel Hpos [Hinv1 Hinv2]; [lia|].
  rewrite siftup_loop_S. case_decide as Hchild.
  - destruct (lookup_lt_is_Some_2 heap _ Hchild) as [lc Hlc].
    destruct (chosen_child heap pos lc Hlc) as (ch & c & -> & Hc & Hpc & Hlt & Hmin).
    cbn zeta. rewrite Hc.
    pose proof (lookup_lt_Some _ _ _ Hc) as Hchlen.
    destruct (IH (<[pos := c]> heap) ch) as (heap' & pos' & Hrun & Hlen & Hperm & Hdown).
    { rewrite length_insert. lia. }
    { by rewrite length_insert. }
    { split.
      - intros i a b Hi Hne Hnp Ha Hb. rewrite list_lookup_insert in Ha, Hb.
        destruct (decide (pos = i)) as [<-|Hip].
        + rewrite decide_True in Ha by done. injection Ha as <-.
          rewrite decide_False in Hb by (pose proof (parent_pos_lt pos Hi); lia).
          apply (Hinv2 ch c b); [done|lia|done..].
        + rewrite decide_False in Ha by tauto.
          destruct (decide (pos = parent_pos i)) as [Hpi|Hnpi].
          * rewrite decide_True in Hb by done. injection Hb as <-.
            by apply (Hmin i a).
          * rewrite decide_False in Hb by tauto. by apply (Hinv1 i a b).
      - intros k a b Hch Hk Hpk Ha Hb. rewrite list_lookup_insert in Ha, Hb.
        rewrite Hpc, decide_True in Hb by done. injection Hb as <-.
        pose proof (parent_pos_lt k Hk).
        rewrite decide_False in Ha by lia.
        apply (Hinv1 k a c); [done|lia|lia|done|by rewrite Hpk]. }
    exists heap', pos'. split_and!; [done|done| |done].
    intros x. rewrite Hperm. by apply insert_swap_perm.
  - exists heap, pos. split_and!; [done|done|done|].
    intros x. split.
    + intros i a b Hi Hne Ha Hb. rewrite list_lookup_insert in Ha, Hb.
      rewrite decide_False in Ha by (intros [??]; done).
      pose proof (lookup_lt_Some _ _ _ Ha) as Hilen.
      destruct (decide (pos = parent_pos i)) as [Hpi|Hnpi].
      * symmetry in Hpi. apply parent_pos_child in Hpi; [lia|done].
      * rewrite decide_False in Hb by tauto. by apply (Hinv1 i a b).
    + intros k a b _ Hk Hpk Ha _. rewrite list_lookup_insert in Ha.
      pose proof (parent_pos_lt k Hk).
      rewrite decide_False in Ha by lia.
      pose proof (lookup_lt_Some _ _ _ Ha) as Hklen.
      apply parent_pos_child in Hpk; [lia|done].
Qed.

Lemma siftup_spec (heap : list A) :
  heap ≠ [] → up_inv prio heap 0 →
  heapq.siftup lt heap 0 ≡ₚ heap ∧ heap_ordered prio (heapq.siftup lt heap 0).
Proof.
  intros Hne Hinv. destruct heap as [|x heap]; [done|].
  unfold heapq.siftup. change ((x :: heap) !! 0%nat) with (Some x).
  destruct (siftup_loop_spec (length (x :: heap)) (x :: heap) 0)
    as (heap' & pos' & Hrun & Hlen & Hperm & Hdown); [lia|simpl; lia|done|].
  change (2 * 0 + 1)%nat with 1%nat in *. rewrite Hrun. split.
  - rewrite siftdown_perm, Hperm. done.
  - apply siftdown_ordered; [by rewrite length_insert|done].
Qed.

Lemma heappop_spec (heap : list A) :
  heap_ordered prio heap → heap ≠ [] →
  ∃ x heap', heapq.heappop lt heap = Ok (x, heap') ∧ heap ≡ₚ x :: heap' ∧
    heap_ordered prio heap' ∧ ∀ y, y ∈ heap → prio x ≤ prio y.
Proof.
  intros Hord Hne. unfold heapq.heappop.
  destruct (last heap) as [lastelt|] eqn:Hlast; [|by apply last_None in Hlast].
  pose proof (last_removelast heap lastelt Hlast) as Hheap.
  destruct (removelast heap) as [|r rest] eqn:Hrest.
  - exists lastelt, []. rewrite Hheap. split_and!; [done|done| |].
    + intros i a b Hi Ha. by destruct i.
    + intros y Hy. apply list_elem_of_singleton in Hy as ->. lia.
  - exists r, (heapq.siftup lt (<[0%nat := lastelt]> (r :: rest)) 0).
    destruct (siftup_spec (lastelt :: rest)) as [Hperm Hord']; [done| |].
    { split; [|intros; lia].
      intros i a b Hi _ Hnp Ha Hb.
      pose proof (lookup_lt_Some _ _ _ Ha) as Hilen. simpl in Hilen.
      pose proof (parent_pos_lt i Hi).
      apply (Hord i a b Hi); rewrite Hheap.
      - rewrite lookup_app_l by (simpl; lia). by destruct i.
      - rewrite lookup_app_l by (simpl; lia).
        destruct (parent_pos i); [done|]. done. }
    split_and!; [done| |done|].
    + change (<[0%nat := lastelt]> (r :: rest)) with (lastelt :: rest).
      rewrite Hperm, Hheap. simpl. by rewrite Permutation_app_comm.
    + apply (heap_ordered_root heap r Hord). by rewrite Hheap.
Qed.

End HeapProofs.

(** ** The [Heap] class *)

Lemma State_lt_f a b : State.lt a b = bool_decide (f a < f b).
Proof. done. Qed.

Lemma Heap_extend_spec items : ∀ h,
  heap_ordered f (heap h) →
  heap_ordered f (heap (Heap.extend h items)) ∧
  heap (Heap.extend h items) ≡ₚ items ++ heap h.
Proof.
  unfold Heap.extend.
  induction items as [|x items IH]; intros h Hord; simpl; [done|].
  destruct (IH (Heap.append h x)) as [Hord' Hperm].
  { by apply (heappush_ordered State.lt f State_lt_f). }
  split; [done|]. rewrite Hperm. simpl.
  rewrite (heappush_perm State.lt). by rewrite Permutation_middle.
Qed.

#[export, refine] Instance Heap_frontier_laws : FrontierLaws Heap :=
  {| fr_items := heap; fr_ok := λ h, heap_ordered f (heap h) |}.
Proof.
  - intros [[|x l]]; simpl; split; done.
  - intros h x Hord. split.
    + by apply (heappush_ordered State.lt f State_lt_f).
    + apply (heappush_perm State.lt).
  - intros h xs Hord. by apply Heap_extend_spec.
  - intros h Hord Hne. simpl. unfold Heap.pop.
    destruct (heappop_spec State.lt f State_lt_f (heap h) Hord Hne)
      as (x & heap' & Hpop & Hperm & Hord' & _).
    exists x, (mkHeap heap'). rewrite Hpop. done.
Defined.

#[export] Instance Heap_priority_laws : PriorityLaws Heap.
Proof.
  split. intros h x h' Hord Hpop y Hy. simpl in *. unfold Heap.pop in Hpop.
  destruct (decide (heap h = [])) as [Hnil|Hne].
  { rewrite Hnil in Hy. by apply elem_of_nil in Hy. }
  destruct (heappop_spec State.lt f State_lt_f (heap h) Hord Hne)
    as (x' & heap' & Hpop' & _ & _ & Hmin).
  rewrite Hpop' in Hpop. simpl in Hpop. injection Hpop as <- _. by apply Hmin.
Qed.

Lemma Heap_init_ok : fr_ok Heap.init ∧ fr_items Heap.init = [].
Proof. split; [|done]. intros i a b _ Ha. by destruct i. Qed.

(** ** Termination and soundness of the search *)

Section Soundness.
Context {F : Type} `{FrontierLaws F}.
Variable root : State.
Hypothesis root_constructed : constructed root.

Lemma reached_inv_ok seen fr :
  reached_inv root seen fr → fr_ok fr ∧ Forall constructed (fr_items fr).
Proof.
  intros [Hok Hall]. split; [done|]. eapply Forall_impl; [done|].
  intros u [n Hn]. by eapply path_constructed.
Qed.

Lemma reached_inv_skip seen fr x fr' :
  reached_inv root seen fr → fr_pop fr = Ok (x, fr') → fr_ok fr' →
  fr_items fr ≡ₚ x :: fr_items fr' → key x ∈ seen → reached_inv root seen fr'.
Proof.
  intros [Hok Hall] Hpop Hok' Hperm _.
  split; [done|]. rewrite Hperm in Hall. by apply Forall_cons in Hall as [_ ?].
Qed.

Lemma reached_inv_expand seen fr x fr' :
  reached_inv root seen fr → fr_pop fr = Ok (x, fr') → fr_ok fr' →
  fr_items fr ≡ₚ x :: fr_items fr' → key x ∉ seen → State.is_goal x = Ok false →
  reached_inv root (seen ∪ {[key x]}) (fr_extend fr' (State.generate_successors x)).
Proof.
  intros [Hok Hall] Hpop Hok' Hperm _ _.
  destruct (fr_extend_items fr' (State.generate_successors x) Hok') as [Hok'' Hperm'].
  split; [done|]. rewrite Hperm'. rewrite Hperm in Hall.
  apply Forall_cons in Hall as [[n Hx] Hall]. apply Forall_app. split; [|done].
  apply Forall_forall. intros u Hu. exists (S n). by eapply path_step.
Qed.

(** The search ends, without an exception, and what it returns is a goal
    state reached from the root. *)
Lemma search_total (fr0 : F) :
  fr_ok fr0 → fr_items fr0 = [] →
  ∃ fuel r, (∀ k, search (fuel + k) root fr0 = Some (Ok r)) ∧
    ∀ g, r = Some g → ∃ n, path root g n ∧ State.is_goal g = Ok true.
Proof.
  intros Hok0 Hnil0. unfold search.
  destruct (fr_append_items fr0 root Hok0) as [Hok1 Hperm1].
  destruct (search_loop_rule (reached_inv root) reached_inv_ok reached_inv_skip
              reached_inv_expand ∅ (fr_append fr0 root)) as (fuel & r & Hrun & Hfin).
  { split; [done|]. rewrite Hperm1, Hnil0. repeat constructor. exists 0%nat. constructor. }
  exists fuel, r. split; [done|]. intros g ->.
  destruct Hfin as (seen & fr & fr' & [_ Hall] & _ & Hperm & _ & Hgoal).
  rewrite Hperm in Hall. apply Forall_cons in Hall as [[n Hg] _]. eauto.
Qed.

End Soundness.

(** On [stacked_pieces] both strategies run out of states after six
    iterations and return [None]. *)
Example search_stacked_exhausts :
  search 6 stacked_root Heap.init = Some (Ok None) ∧
  search 6 stacked_root ([] : list State) = Some (Ok None).
Proof. split; vm_compute; reflexivity. Qed.

(** ** Optimality of the priority-frontier search *)

Section AStar.
Context {F : Type} `{PriorityLaws F}.
Variable root : State.
(** The states the argument is about, and what it needs of them. *)
Variable WF : State → Prop.
Hypothesis WF_root : WF root.
Hypothesis WF_constructed : ∀ s, WF s → constructed s.
Hypothesis WF_succ : ∀ s t, WF s → t ∈ State.generate_successors s → WF t.
Hypothesis WF_heur : ∀ s s', WF s → WF s' → key s = key s' → heur s = heur s'.
Hypothesis WF_bisim : ∀ s s' t,
  WF s → WF s' → key s = key s' → t ∈ State.generate_successors s →
  ∃ t', t' ∈ State.generate_successors s' ∧ key t' = key t.
Hypothesis WF_consistent : ∀ s t,
  WF s → t ∈ State.generate_successors s → heur s ≤ heur t + 1.
Hypothesis WF_goal : ∀ s, WF s → 0 ≤ heur s ∧ (State.is_goal s = Ok true ↔ heur s = 0).

Lemma path_WF s t n : WF s → path s t n → WF t.
Proof. induction 2; eauto. Qed.

Lemma path_heur s t n : WF s → path s t n → heur s ≤ heur t + Z.of_nat n.
Proof.
  intros Hs. induction 1 as [|t u n Hp IH Hu]; [lia|].
  pose proof (WF_consistent t u (path_WF _ _ _ Hs Hp) Hu). lia.
Qed.

Lemma path_bisim s s' t n :
  WF s → WF s' → key s = key s' → path s t n →
  ∃ t', path s' t' n ∧ key t' = key t.
Proof.
  intros Hs Hs' Hkey. induction 1 as [|t u n Hp (t' & Hp' & Hk) Hu].
  - exists s'. split; [constructor|done].
  - destruct (WF_bisim t t' u) as (u' & Hu' & Hku); eauto using path_WF.
    exists u'. split; [by eapply path_step|done].
Qed.

Lemma path_trans s t u n m : path s t n → path t u m → path s u (n + m).
Proof.
  intros Hst. induction 1 as [|u v m Hp IH Hv].
  - by rewrite Nat.add_0_r.
  - rewrite Nat.add_succ_r. by eapply path_step.
Qed.

(** Towards every reachable state with an unseen string, some state in the
    frontier lies on a path that is no longer. *)
Lemma frontier_ahead seen fr t n :
  astar_inv root WF seen fr → path root t n → key t ∉ seen →
  ∃ u t' m, u ∈ fr_items fr ∧ path u t' m ∧ key t' = key t ∧
            depth u + Z.of_nat m ≤ depth root + Z.of_nat n.
Proof.
  intros (Hok & Hall & Hseen & Hroot) Hp. induction Hp as [|t v n Hp IH Hv]; intros Hnew.
  - destruct Hroot as [Hroot|?]; [|done].
    exists root, root, 0%nat. split_and!; [done|constructor|done|lia].
  - pose proof (path_WF _ _ _ WF_root Hp) as Ht.
    destruct (decide (key t ∈ seen)) as [Hin|Hout].
    + destruct (Hseen _ Hin) as (e & He & Hke & _ & Hbest & Hsucc).
      destruct (WF_bisim t e v) as (v' & Hv' & Hkv); [done..|].
      destruct (Hsucc v' Hv') as [Hfr|Hs]; [|by rewrite Hkv in Hs].
      exists v', v', 0%nat. split_and!; [done|constructor|done|].
      apply successor_depth in Hv' as [-> _].
      pose proof (Hbest t n Hp eq_refl). pose proof (path_depth _ _ _ Hp). lia.
    + destruct (IH Hout) as (u & t' & m & Hu & Hut & Hk & Hd).
      assert (WF u) as Hwu.
      { eapply Forall_forall in Hall; [|done]. destruct Hall as [nu Hnu].
        exact (path_WF _ _ _ WF_root Hnu). }
      destruct (WF_bisim t t' v) as (v' & Hv' & Hkv); eauto using path_WF.
      exists u, v', (S m). split_and!; [done|by eapply path_step|done|lia].
Qed.

Lemma frontier_ahead_f seen fr t n :
  astar_inv root WF seen fr → path root t n → key t ∉ seen →
  ∃ u, u ∈ fr_items fr ∧ f u ≤ depth root + Z.of_nat n + heur t.
Proof.
  intros Hinv Hp Hnew.
  destruct (frontier_ahead seen fr t n Hinv Hp Hnew) as (u & t' & m & Hu & Hut & Hk & Hd).
  exists u. split; [done|].
  destruct Hinv as (_ & Hall & _).
  assert (WF u) as Hwu.
  { eapply Forall_forall in Hall; [|done]. destruct Hall as [nu Hnu].
    exact (path_WF _ _ _ WF_root Hnu). }
  pose proof (path_heur u t' m Hwu Hut) as Hh.
  rewrite (WF_heur t' t) in Hh by eauto using path_WF.
  unfold heur in *. lia.
Qed.

Lemma astar_inv_ok seen fr :
  astar_inv root WF seen fr → fr_ok fr ∧ Forall constructed (fr_items fr).
Proof.
  intros (Hok & Hall & _). split; [done|]. eapply Forall_impl; [done|].
  intros u [n Hn]. apply WF_constructed. exact (path_WF _ _ _ WF_root Hn).
Qed.

Lemma astar_inv_skip seen fr x fr' :
  astar_inv root WF seen fr → fr_pop fr = Ok (x, fr') → fr_ok fr' →
  fr_items fr ≡ₚ x :: fr_items fr' → key x ∈ seen → astar_inv root WF seen fr'.
Proof.
  intros (Hok & Hall & Hseen & Hroot) Hpop Hok' Hperm Hin.
  rewrite Hperm in Hall. apply Forall_cons in Hall as [_ Hall].
  split_and!; [done|done| |].
  - intros k Hk. destruct (Hseen k Hk) as (e & He & Hke & Hng & Hbest & Hsucc).
    exists e. split_and!; [done..|]. intros u Hu.
    destruct (Hsucc u Hu) as [Hfr|?]; [|by right].
    rewrite Hperm in Hfr. apply elem_of_cons in Hfr as [->|?]; [by right|by left].
  - destruct Hroot as [Hfr|?]; [|by right].
    rewrite Hperm in Hfr. apply elem_of_cons in Hfr as [->|?]; [by right|by left].
Qed.

Lemma astar_inv_expand seen fr x fr' :
  astar_inv root WF seen fr → fr_pop fr = Ok (x, fr') → fr_ok fr' →
  fr_items fr ≡ₚ x :: fr_items fr' → key x ∉ seen → State.is_goal x = Ok false →
  astar_inv root WF (seen ∪ {[key x]}) (fr_extend fr' (State.generate_successors x)).
Proof.
  intros Hinv Hpop Hok' Hperm Hnew Hng.
  pose proof Hinv as (Hok & Hall & Hseen & Hroot).
  destruct (fr_extend_items fr' (State.generate_successors x) Hok') as [Hok'' Hperm'].
  assert (∃ n, path root x n) as [nx Hx].
  { eapply Forall_forall in Hall; [done|]. rewrite Hperm. by left. }
  pose proof (path_WF _ _ _ WF_root Hx) as Hwx.
  split_and!; [done| | |].
  - rewrite Hperm'. rewrite Hperm in Hall. apply Forall_cons in Hall as [_ Hall].
    apply Forall_app. split; [|done].
    apply Forall_forall. intros u Hu. exists (S nx). by eapply path_step.
  - intros k [Hk|Hk%elem_of_singleton]%elem_of_union.
    + destruct (Hseen k Hk) as (e & He & Hke & Hnge & Hbest & Hsucc).
      exists e. split_and!; [done..|]. intros u Hu. rewrite Hperm'.
      destruct (Hsucc u Hu) as [Hfr|?]; [|right; set_solver].
      rewrite Hperm in Hfr. apply elem_of_cons in Hfr as [->|?].
      * right. set_solver.
      * left. apply elem_of_app. by right.
    + subst k. exists x. split_and!; [done..| |].
      * intros t m Ht Hkt.
        destruct (frontier_ahead_f seen fr t m Hinv Ht) as (u & Hu & Hfu).
        { by rewrite Hkt. }
        pose proof (fr_pop_least fr x fr' Hok Hpop u Hu) as Hleast.
        pose proof (WF_heur t x (path_WF _ _ _ WF_root Ht) Hwx Hkt) as Hh.
        pose proof (path_depth _ _ _ Ht). unfold heur in *. lia.
      * intros u Hu. left. rewrite Hperm'. apply elem_of_app. by left.
  - destruct Hroot as [Hfr|?]; [|right; set_solver].
    rewrite Hperm in Hfr. apply elem_of_cons in Hfr as [->|?].
    + right. set_solver.
    + left. rewrite Hperm'. apply elem_of_app. by right.
Qed.

(** With the priority frontier the search returns a goal state, and no goal
    state is reached from the root by a shorter path. *)
Lemma astar_optimal (fr0 : F) :
  fr_ok fr0 → fr_items fr0 = [] → solvable root →
  ∃ fuel g, (∀ k, search (fuel + k) root fr0 = Some (Ok (Some g))) ∧
    State.is_goal g = Ok true ∧ (∃ n, path root g n) ∧
    ∀ t m, path root t m → State.is_goal t = Ok true → depth g ≤ depth t.
Proof.
  intros Hok0 Hnil0 (tg & ng & Htg & Hgoal). unfold search.
  destruct (fr_append_items fr0 root Hok0) as [Hok1 Hperm1].
  destruct (search_loop_rule (astar_inv root WF) astar_inv_ok astar_inv_skip
              astar_inv_expand ∅ (fr_append fr0 root)) as (fuel & r & Hrun & Hfin).
  { split_and!; [done| | |].
    - rewrite Hperm1, Hnil0. repeat constructor. exists 0%nat. constructor.
    - intros k Hk. by apply elem_of_empty in Hk.
    - left. rewrite Hperm1. by left. }
  assert (∀ seen fr t m, astar_inv root WF seen fr → path root t m →
            State.is_goal t = Ok true → key t ∉ seen) as Hunseen.
  { intros seen fr t m (_ & _ & Hseen & _) Ht Hgt Hin.
    destruct (Hseen _ Hin) as (e & He & Hke & Hnge & _).
    pose proof (path_WF _ _ _ WF_root Ht) as Hwt.
    pose proof (WF_heur e t He Hwt Hke) as Hh.
    destruct (WF_goal t Hwt) as [_ Hiff]. destruct (WF_goal e He) as [_ Hiff'].
    apply Hiff in Hgt. rewrite <- Hh in Hgt. apply Hiff' in Hgt. congruence. }
  destruct r as [g|].
  - exists fuel, g. destruct Hfin as (seen & fr & fr' & Hinv & Hpop & Hperm & Hnew & Hg).
    pose proof Hinv as (Hok & Hall & _).
    assert (∃ n, path root g n) as [n Hn].
    { eapply Forall_forall in Hall; [done|]. rewrite Hperm. by left. }
    split_and!; [done|done|by exists n|].
    intros t m Ht Hgt.
    destruct (frontier_ahead_f seen fr t m Hinv Ht) as (u & Hu & Hfu); [by eauto|].
    pose proof (fr_pop_least fr g fr' Hok Hpop u Hu) as Hleast.
    pose proof (path_WF _ _ _ WF_root Ht) as Hwt.
    destruct (WF_goal t Hwt) as [_ Hiff]. apply Hiff in Hgt.
    destruct (WF_goal g (path_WF _ _ _ WF_root Hn)) as [Hpos _].
    pose proof (path_depth _ _ _ Ht). unfold heur in *. lia.
  - destruct Hfin as (seen & fr & Hinv & Hnil).
    destruct (frontier_ahead_f seen fr tg ng Hinv Htg) as (u & Hu & _); [by eauto|].
    rewrite Hnil in Hu. by apply elem_of_nil in Hu.
Qed.

End AStar.

(** ** Counting empty cells *)

Lemma count_row_insert (row : list ascii) (i : nat) (a c : ascii) :
  row !! i = Some a → c ≠ char_empty →
  count_row (<[i := c]> row) =
    count_row row - (if decide (a = char_empty) then 1 else 0).
Proof.
  unfold count_row. revert i. induction row as [|b row IH]; intros [|i] Hi Hc;
    simpl in *; try done.
  - injection Hi as ->. rewrite filter_cons_False by done. rewrite filter_cons.
    case_decide; simpl; lia.
  - specialize (IH i Hi Hc). rewrite !filter_cons.
    destruct (decide (b = char_empty)); simpl; lia.
Qed.

Lemma count_empty_insert (g : Grid) (j : nat) (row row' : list ascii) :
  g !! j = Some row →
  count_empty (<[j := row']> g) = count_empty g - count_row row + count_row row'.
Proof.
  revert j. induction g as [|r g IH]; intros [|j] Hj; simpl in *; try done.
  - injection Hj as ->. lia.
  - specialize (IH j Hj). lia.
Qed.

Lemma count_empty_grid_set g y x c g' :
  grid_set g y x c = Ok g' → 0 ≤ y → 0 ≤ x → c ≠ char_empty →
  count_empty g' = count_empty g -
    (if decide (grid_get g (y, x) = Some char_empty) then 1 else 0).
Proof.
  intros Hset Hy Hx Hc. unfold grid_set in Hset.
  rewrite py_index_nonneg in Hset by done. case_decide as Hly; [|done].
  destruct (g !! Z.to_nat y) as [row|] eqn:Hrow; [|done].
  rewrite py_index_nonneg in Hset by done. case_decide as Hlx; [|done].
  injection Hset as <-.
  destruct (lookup_lt_is_Some_2 row (Z.to_nat x) ltac:(lia)) as [a Ha].
  rewrite (count_empty_insert g _ row) by done.
  rewrite (count_row_insert row _ a c) by done.
  unfold grid_get. simpl. rewrite Hrow. simpl. rewrite Ha.
  destruct (decide (a = char_empty)) as [->|Hne].
  - rewrite decide_True by done. lia.
  - rewrite decide_False by congruence. lia.
Qed.

Lemma size_list_to_set_le (l : list (Z * Z)) :
  (size (list_to_set l : gset (Z * Z)) ≤ length l)%nat.
Proof.
  induction l as [|x l IH]; [by rewrite list_to_set_nil, size_empty|].
  rewrite list_to_set_cons, length_cons.
  pose proof (size_union_alt ({[x]} : gset (Z * Z)) (list_to_set l)) as Hsz.
  rewrite size_singleton in Hsz.
  pose proof (subseteq_size (list_to_set l ∖ {[x]} : gset (Z * Z)) (list_to_set l)
                ltac:(set_solver)).
  lia.
Qed.

Lemma size_list_to_set_NoDup (l : list (Z * Z)) :
  size (list_to_set l : gset (Z * Z)) = length l → NoDup l.
Proof.
  induction l as [|x l IH]; intros Hsz; [constructor|].
  rewrite list_to_set_cons, length_cons in Hsz.
  pose proof (size_list_to_set_le l) as Hle.
  destruct (decide (x ∈ l)) as [Hin|Hout].
  - assert ({[x]} ∪ list_to_set l = (list_to_set l : gset (Z * Z))) as Heq
      by set_solver.
    rewrite Heq in Hsz. lia.
  - rewrite size_union in Hsz by set_solver. rewrite size_singleton in Hsz.
    constructor; [done|]. apply IH. lia.
Qed.

Lemma do_writes_count ws : ∀ g g' S0,
  do_writes g ws = Ok g' → empties_outside g S0 →
  Forall on_grid ws.*1 → Forall (λ wr, wr.2 ≠ char_empty) ws →
  empties_outside g' (S0 ∪ list_to_set ws.*1).
Proof.
  induction ws as [|[[y x] c] ws IH]; intros g g' S0 Hw Hinv Hon Hsym.
  - simpl in Hw. injection Hw as <-.
    by rewrite fmap_nil, list_to_set_nil, (right_id_L ∅ (∪)).
  - simpl in Hw. apply rbind_Ok in Hw as (g1 & Hset & Hw).
    rewrite fmap_cons in Hon. apply Forall_cons in Hon as [Hpos Hon].
    apply Forall_cons in Hsym as [Hc Hsym]. simpl in Hpos, Hc.
    destruct Hinv as (Hshape & Hcells & Hcount).
    pose proof Hpos as [[Hy0 Hy1] [Hx0 Hx1]]. cbn [fst snd] in *.
    rewrite fmap_cons, list_to_set_cons. cbn [fst].
    replace (S0 ∪ ({[(y, x)]} ∪ list_to_set ws.*1))
      with ((S0 ∪ {[(y, x)]}) ∪ list_to_set ws.*1 : gset (Z * Z)) by set_solver.
    apply (IH g1 g' _ Hw); [|done..]. split_and!.
    + by eapply grid_set_shape.
    + intros pos Hp. rewrite (grid_set_get _ _ _ _ _ _ Hset) by (destruct Hp; lia).
      case_decide as Heq.
      * subst pos. split; [intros [= ?]; done|set_solver].
      * rewrite (Hcells pos Hp). set_solver.
    + rewrite (count_empty_grid_set _ _ _ _ _ Hset) by done.
      rewrite Hcount. destruct (decide ((y, x) ∈ S0)) as [Hin|Hout].
      * rewrite decide_False by (rewrite (Hcells _ Hpos); tauto).
        replace (S0 ∪ {[(y, x)]}) with S0 by set_solver. lia.
      * rewrite decide_True by (by apply (Hcells _ Hpos)).
        rewrite size_union by set_solver. rewrite size_singleton. lia.
Qed.

Lemma blank_empties_outside : empties_outside (blank_grid 4 5) ∅.
Proof.
  split_and!; [apply board_grid_shape| |done].
  intros pos Hp. rewrite (grid_get_blank pos Hp). set_solver.
Qed.

(** ** Legal layouts *)

Lemma init_on_grid ps b :
  Board.init ps = Ok b → Forall write_nonneg (all_writes ps) →
  Forall on_grid (footprint ps).
Proof.
  intros Hb Hnn.
  assert (Forall (write_in_range 5 4) (all_writes ps)) as Hran.
  { destruct (decide (Forall (write_in_range 5 4) (all_writes ps))) as [|Hno]; [done|].
    apply init_IndexError_iff in Hno. congruence. }
  unfold footprint. rewrite Forall_fmap. apply Forall_forall. intros wr Hwr.
  eapply Forall_forall in Hnn; [|done]. eapply Forall_forall in Hran; [|done].
  destruct Hnn, Hran as [??]. split; simpl in *; lia.
Qed.

Lemma init_covered ps b :
  Board.init ps = Ok b → Forall on_grid (footprint ps) →
  size (list_to_set (footprint ps) : gset (Z * Z)) = 18%nat.
Proof.
  intros Hb Hon.
  pose proof (do_writes_count (all_writes ps) _ _ ∅ (init_grid_writes _ _ Hb)
                blank_empties_outside Hon (all_writes_symbols ps)) as (_ & _ & Hcount).
  rewrite (init_count _ _ Hb), (left_id_L ∅ (∪)) in Hcount.
  unfold footprint. lia.
Qed.

Lemma tidy_footprint_length ps b :
  Board.init ps = Ok b → tidy ps → length (footprint ps) = 18%nat.
Proof.
  intros Hb [Hon Hnd _].
  rewrite <- (init_covered ps b Hb Hon). symmetry. by apply size_list_to_set.
Qed.

Lemma moved_writes_nonneg ps i p x y q :
  Forall on_grid (footprint ps) → ps !! i = Some p → Piece.move p x y = Ok q →
  Forall write_nonneg (all_writes (<[i := q]> ps)).
Proof.
  intros Hon Hi Hq.
  apply Forall_forall. intros wr (p' & Hp' & Hwr)%elem_of_all_writes.
  rewrite insert_take_drop in Hp' by (by eapply lookup_lt_Some).
  apply on_grid_write_nonneg in Hon.
  apply elem_of_app in Hp' as [Hp'|Hp'].
  - eapply Forall_forall in Hon; [done|]. apply elem_of_all_writes.
    exists p'. split; [|done]. by apply (subseteq_take i ps).
  - apply elem_of_cons in Hp' as [->|Hp'].
    + pose proof (move_writes_nonneg p x y q Hq) as Hnq.
      by eapply Forall_forall in Hnq.
    + eapply Forall_forall in Hon; [done|]. apply elem_of_all_writes.
      exists p'. split; [|done]. by apply (subseteq_drop (S i) ps).
Qed.

(** A successful move keeps a tidy layout tidy. *)
Lemma moved_tidy ps b i p x y q b' :
  tidy ps → Board.init ps = Ok b → ps !! i = Some p →
  Piece.move p x y = Ok q → Board.init (<[i := q]> ps) = Ok b' →
  tidy (<[i := q]> ps).
Proof.
  intros Htidy Hb Hi Hq Hb'. pose proof Htidy as [Hon Hnd Hsolid].
  assert (Forall on_grid (footprint (<[i := q]> ps))) as Hon'.
  { eapply init_on_grid; [done|]. by eapply moved_writes_nonneg. }
  destruct (footprint_insert ps i p q Hi) as [Hfp Hfp'].
  split; [done| |].
  - apply size_list_to_set_NoDup.
    rewrite (init_covered _ _ Hb' Hon'), Hfp', !length_app.
    rewrite (move_cells_length _ _ _ _ Hq), <- !length_app, <- Hfp.
    symmetry. by eapply tidy_footprint_length.
  - apply Forall_insert; [done|].
    eapply Forall_lookup_1 in Hsolid; [|done].
    pose proof (move_cells_length _ _ _ _ Hq) as Hlen.
    destruct (cells q); [|done]. by destruct (cells p).
Qed.

Lemma moved_one_goal ps i p x y q :
  ps !! i = Some p → Piece.move p x y = Ok q →
  length (filter (λ p, is_goal p = true) (<[i := q]> ps)) =
  length (filter (λ p, is_goal p = true) ps).
Proof.
  intros Hi Hq.
  assert (is_goal q = is_goal p) as Hflag.
  { unfold Piece.move in Hq. case_decide; [done|]. by injection Hq as <-. }
  rewrite <- (take_drop_middle ps i p Hi) at 2.
  rewrite insert_take_drop by (by eapply lookup_lt_Some).
  rewrite !filter_app, !filter_cons, !length_app, Hflag.
  by destruct (decide (is_goal p = true)).
Qed.

Lemma moved_legal ps b i p x y q b' :
  legal ps → Board.init ps = Ok b → ps !! i = Some p →
  Piece.move p x y = Ok q → Board.init (<[i := q]> ps) = Ok b' →
  legal (<[i := q]> ps).
Proof.
  intros [Htidy Hone] Hb Hi Hq Hb'. split; [by eapply moved_tidy|].
  by rewrite (moved_one_goal ps i p x y q).
Qed.

(** ** The grid of a tidy layout depends on the set of its writes only *)

Lemma grid_ext g1 g2 :
  grid_shape 5 4 g1 → grid_shape 5 4 g2 →
  (∀ pos, on_grid pos → grid_get g1 pos = grid_get g2 pos) → g1 = g2.
Proof.
  intros [Hl1 Hr1] [Hl2 Hr2] Hget. apply list_eq. intros j.
  destruct (decide (j < 5)%nat) as [Hj|Hj].
  2:{ rewrite !lookup_ge_None_2 by lia. done. }
  destruct (lookup_lt_is_Some_2 g1 j ltac:(lia)) as [r1 H1].
  destruct (lookup_lt_is_Some_2 g2 j ltac:(lia)) as [r2 H2].
  rewrite H1, H2. f_equal. apply list_eq. intros i.
  eapply Forall_lookup_1 in Hr1; [|done]. eapply Forall_lookup_1 in Hr2; [|done].
  destruct (decide (i < 4)%nat) as [Hi|Hi].
  2:{ rewrite !lookup_ge_None_2 by lia. done. }
  specialize (Hget (Z.of_nat j, Z.of_nat i)). unfold grid_get in Hget. simpl in Hget.
  rewrite !Nat2Z.id, H1, H2 in Hget. simpl in Hget. apply Hget.
  split; simpl; lia.
Qed.

Lemma on_grid_in_range ws : Forall on_grid ws.*1 → Forall (write_in_range 5 4) ws.
Proof.
  rewrite Forall_fmap. intros H. eapply Forall_impl; [exact H|].
  intros [[y x] c] [[??] [??]]. split; simpl in *; lia.
Qed.

Lemma do_writes_perm ws1 ws2 g0 g1 :
  grid_shape 5 4 g0 → ws1 ≡ₚ ws2 → NoDup ws1.*1 → Forall on_grid ws1.*1 →
  do_writes g0 ws1 = Ok g1 → do_writes g0 ws2 = Ok g1.
Proof.
  intros Hshape Hperm Hnd Hon Hw1.
  assert (Forall on_grid ws2.*1) as Hon2 by (by rewrite <- Hperm).
  assert (NoDup ws2.*1) as Hnd2 by (by rewrite <- Hperm).
  destruct (do_writes g0 ws2) as [g2|e] eqn:Hw2.
  2:{ pose proof (proj2 (do_writes_is_Ok 5 4 ws2 g0 Hshape) (on_grid_in_range _ Hon2)) as Hok.
      by rewrite Hw2 in Hok. }
  f_equal. apply grid_ext; [by eapply do_writes_shape..|].
  intros pos [[??] [??]].
  destruct (decide (pos ∈ ws1.*1)) as [Hin|Hout].
  - apply list_elem_of_fmap in Hin as ([pos' c] & -> & Hin). simpl in *.
    rewrite (do_writes_get_written ws1 g0 g1 pos' c),
            (do_writes_get_written ws2 g0 g2 pos' c);
      eauto using on_grid_write_nonneg. by rewrite <- Hperm.
  - rewrite (do_writes_get_other ws1 g0 g1 pos), (do_writes_get_other ws2 g0 g2 pos);
      eauto using on_grid_write_nonneg. by rewrite <- Hperm.
Qed.

(** What a cell of a tidy board holds. *)
Lemma tidy_grid_get ps b pos c :
  Board.init ps = Ok b → tidy ps → on_grid pos →
  grid_get (grid b) pos = Some c ↔
  (pos, c) ∈ all_writes ps ∨ (c = char_empty ∧ pos ∉ footprint ps).
Proof.
  intros Hb [Hon Hnd _] Hpos. pose proof (init_grid_writes _ _ Hb) as Hw.
  pose proof (on_grid_write_nonneg _ Hon) as Hnn.
  destruct Hpos as [[??] [??]].
  destruct (decide (pos ∈ footprint ps)) as [Hin|Hout].
  - pose proof Hin as Hin'.
    apply list_elem_of_fmap in Hin' as ([pos' c'] & -> & Hin'). simpl in *.
    pose proof (do_writes_get_written _ _ _ pos' c' Hw Hnn Hnd Hin') as Hget.
    rewrite Hget. split.
    + intros [= <-]. by left.
    + intros [Hc|[_ ?]]; [|done].
      pose proof (do_writes_get_written _ _ _ pos' c Hw Hnn Hnd Hc). congruence.
  - rewrite (do_writes_get_other _ _ _ pos Hw) by done.
    rewrite grid_get_blank by (split; lia). split.
    + intros [= <-]. by right.
    + intros [Hc|[-> _]]; [|done]. destruct Hout.
      apply list_elem_of_fmap. by exists (pos, c).
Qed.

(** Tidy boards with the same grid perform the same writes. *)
Lemma same_grid_same_writes ps qs b1 b2 :
  Board.init ps = Ok b1 → Board.init qs = Ok b2 → tidy ps → tidy qs →
  grid b1 = grid b2 → ∀ wr, wr ∈ all_writes ps → wr ∈ all_writes qs.
Proof.
  intros Hb1 Hb2 Ht1 Ht2 Hgrid [pos c] Hwr.
  assert (on_grid pos) as Hpos.
  { destruct Ht1 as [Hon _ _]. eapply Forall_forall in Hon; [done|].
    apply list_elem_of_fmap. by exists (pos, c). }
  assert (grid_get (grid b2) pos = Some c) as Hget.
  { rewrite <- Hgrid. apply (tidy_grid_get ps b1); auto. }
  apply (tidy_grid_get qs b2) in Hget as [?|[-> _]]; [done| |done..].
  pose proof (all_writes_symbols ps) as Hsym.
  eapply Forall_forall in Hsym; [|done]. done.
Qed.

Lemma tidy_writes_NoDup ps : tidy ps → NoDup (all_writes ps).
Proof. intros [_ Hnd _]. by eapply NoDup_fmap_1. Qed.

Lemma same_grid_writes_perm ps qs b1 b2 :
  Board.init ps = Ok b1 → Board.init qs = Ok b2 → tidy ps → tidy qs →
  grid b1 = grid b2 → all_writes ps ≡ₚ all_writes qs.
Proof.
  intros Hb1 Hb2 Ht1 Ht2 Hgrid.
  apply NoDup_Permutation; [by apply tidy_writes_NoDup..|].
  intros wr. split; by eapply same_grid_same_writes.
Qed.



(** With overlapping pieces the order matters: [restacked_pieces] is a
    reordering of [stacked_pieces], both are accepted, and their board
    strings differ. *)
Example permuted_overlap_changes_string :
  stacked_pieces ≡ₚ restacked_pieces ∧
  Board.init stacked_pieces = Ok stacked_board ∧
  Board.init restacked_pieces = Ok restacked_board ∧
  board_string stacked_board ≠ board_string restacked_board.
Proof.
  split_and!; [apply perm_swap|reflexivity|reflexivity|].
  vm_compute. discriminate.
Qed.

(** ** Pieces of legal layouts with the same grid *)

Lemma first_write p :
  cells p ≠ [] → ∃ c rest, piece_writes p = (coord_y p, coord_x p, c) :: rest.
Proof.
  unfold cells, piece_writes. repeat case_match; intros Hne; try done; eauto.
Qed.

Lemma goal_writes p wr :
  wr ∈ piece_writes p → wr.2 = char_goal ↔ is_goal p = true.
Proof.
  unfold piece_writes. repeat case_match; intros Hwr;
    repeat (apply elem_of_cons in Hwr as [->|Hwr]; [done|]);
    by apply elem_of_nil in Hwr.
Qed.

(** A piece that is no goal block is identified by the first cell it
    writes and the symbol written there. *)
Lemma nongoal_match p q wr rest :
  is_goal p = false → piece_writes p = wr :: rest → wr ∈ piece_writes q →
  piece_writes q = piece_writes p.
Proof.
  destruct p as [gp sp xp yp op], q as [gq sq xq yq oq].
  unfold piece_writes. simpl. intros -> Hp Hq.
  destruct sp, op, gq, sq, oq; simplify_eq;
    repeat (apply elem_of_cons in Hq as [Hq|Hq]; [by simplify_eq|]);
    by apply elem_of_nil in Hq.
Qed.

Lemma goal_match p q :
  is_goal p = true → is_goal q = true →
  (coord_y p, coord_x p) ∈ cells q → (coord_y q, coord_x q) ∈ cells p →
  piece_writes q = piece_writes p.
Proof.
  destruct p as [gp sp xp yp op], q as [gq sq xq yq oq].
  unfold cells, piece_writes. simpl. intros -> -> Hp Hq.
  cbn [fmap list_fmap fst] in Hp, Hq.
  assert (yq ≤ yp ∧ xq ≤ xp) as [??].
  { repeat (apply elem_of_cons in Hp as [Hp|Hp]; [simplify_eq; lia|]).
    by apply elem_of_nil in Hp. }
  assert (yp ≤ yq ∧ xp ≤ xq) as [??].
  { repeat (apply elem_of_cons in Hq as [Hq|Hq]; [simplify_eq; lia|]).
    by apply elem_of_nil in Hq. }
  by replace yq with yp by lia; replace xq with xp by lia.
Qed.

Lemma one_goal_unique ps p p' :
  length (filter (λ p, is_goal p = true) ps) = 1%nat →
  p ∈ ps → p' ∈ ps → is_goal p = true → is_goal p' = true → p = p'.
Proof.
  intros Hone Hp Hp' Hg Hg'.
  destruct (filter (λ p, is_goal p = true) ps) as [|g [|??]] eqn:Hf; try done.
  assert (p ∈ [g]) as ->%list_elem_of_singleton
    by (rewrite <- Hf; by apply list_elem_of_filter).
  assert (p' ∈ [g]) as ->%list_elem_of_singleton
    by (rewrite <- Hf; by apply list_elem_of_filter).
  done.
Qed.

(** Each piece of a legal board has a twin, with the same writes, on every
    legal board with the same grid. *)
Lemma matching_piece ps qs b1 b2 p :
  Board.init ps = Ok b1 → Board.init qs = Ok b2 → legal ps → legal qs →
  grid b1 = grid b2 → p ∈ ps →
  ∃ q, q ∈ qs ∧ piece_writes q = piece_writes p.
Proof.
  intros Hb1 Hb2 [Ht1 Hone1] [Ht2 Hone2] Hgrid Hp.
  assert (cells p ≠ []) as Hsolid.
  { destruct Ht1 as [_ _ Hs]. by eapply Forall_forall in Hs. }
  destruct (first_write p Hsolid) as (c & rest & Hwp).
  assert ((coord_y p, coord_x p, c) ∈ all_writes qs) as Hin.
  { apply (same_grid_same_writes ps qs b1 b2); [done..|].
    apply elem_of_all_writes. exists p. split; [done|]. rewrite Hwp. by left. }
  apply elem_of_all_writes in Hin as (q & Hq & Hwq).
  exists q. split; [done|].
  destruct (is_goal p) eqn:Hgp; [|by eapply nongoal_match].
  assert (c = char_goal) as ->.
  { apply (goal_writes p (coord_y p, coord_x p, c)) in Hgp; [done|].
    rewrite Hwp. by left. }
  assert (is_goal q = true) as Hgq by (by apply (goal_writes q _ Hwq)).
  apply goal_match; [done..| |].
  - apply list_elem_of_fmap. by exists (coord_y p, coord_x p, char_goal).
  - assert (cells q ≠ []) as Hsq.
    { destruct Ht2 as [_ _ Hs]. by eapply Forall_forall in Hs. }
    destruct (first_write q Hsq) as (c' & rest' & Hwq').
    assert ((coord_y q, coord_x q, c') ∈ all_writes ps) as Hin'.
    { apply (same_grid_same_writes qs ps b2 b1); [done..|].
      apply elem_of_all_writes. exists q. split; [done|]. rewrite Hwq'. by left. }
    apply elem_of_all_writes in Hin' as (p' & Hp' & Hwp').
    assert (c' = char_goal) as ->.
    { apply (goal_writes q (coord_y q, coord_x q, c')) in Hgq; [done|].
      rewrite Hwq'. by left. }
    assert (is_goal p' = true) as Hgp' by (by apply (goal_writes p' _ Hwp')).
    rewrite (one_goal_unique ps p p' Hone1 Hp Hp' Hgp Hgp').
    apply list_elem_of_fmap. by exists (coord_y q, coord_x q, char_goal).
Qed.

(** ** Moves on legal boards with the same grid *)

Lemma move_same_writes p q x y p' :
  piece_writes q = piece_writes p → cells p ≠ [] → Piece.move p x y = Ok p' →
  ∃ q', Piece.move q x y = Ok q' ∧ piece_writes q' = piece_writes p'.
Proof.
  destruct p as [gp sp xp yp op], q as [gq sq xq yq oq].
  unfold Piece.move, cells, piece_writes. simpl. intros Hw Hsolid.
  case_decide as Hneg; [done|]. intros [= <-]. simpl.
  destruct gp, sp, op, gq, sq, oq; simplify_eq;
    (rewrite decide_False by done); eexists; (split; [done|]); done.
Qed.

Lemma all_writes_app ps qs : all_writes (ps ++ qs) = all_writes ps ++ all_writes qs.
Proof. unfold all_writes. by rewrite flat_map_app. Qed.

Lemma all_writes_insert ps i p q :
  ps !! i = Some p →
  all_writes ps ≡ₚ
    piece_writes p ++ (all_writes (take i ps) ++ all_writes (drop (S i) ps)) ∧
  all_writes (<[i := q]> ps) ≡ₚ
    piece_writes q ++ (all_writes (take i ps) ++ all_writes (drop (S i) ps)).
Proof.
  intros Hi. split.
  - rewrite <- (take_drop_middle ps i p Hi) at 1.
    rewrite all_writes_app. unfold all_writes at 2. rewrite flat_map_step.
    fold (all_writes (drop (S i) ps)). by rewrite Permutation_app_swap_app.
  - rewrite insert_take_drop by (by eapply lookup_lt_Some).
    rewrite all_writes_app. unfold all_writes at 2. rewrite flat_map_step.
    fold (all_writes (drop (S i) ps)). by rewrite Permutation_app_swap_app.
Qed.

Lemma init_of_writes ps g :
  do_writes (blank_grid 4 5) (all_writes ps) = Ok g → count_empty g = 2 →
  Board.init ps = Ok (mkBoard 4 5 ps g (last_goal None ps) (grid_string g)).
Proof.
  intros Hw Hc. unfold Board.init, Board.construct_grid.
  rewrite place_pieces_writes, Hw. simpl. rewrite decide_False by lia. done.
Qed.

(** A move that succeeds on one legal board succeeds, for the twin piece,
    on every legal board with the same grid, and leads to the same grid. *)
Lemma move_bisim ps qs b1 b2 i p x y p' b1' :
  Board.init ps = Ok b1 → Board.init qs = Ok b2 → legal ps → legal qs →
  grid b1 = grid b2 → ps !! i = Some p → Piece.move p x y = Ok p' →
  Board.init (<[i := p']> ps) = Ok b1' →
  ∃ j q q' b2', qs !! j = Some q ∧ Piece.move q x y = Ok q' ∧
    Board.init (<[j := q']> qs) = Ok b2' ∧ grid b2' = grid b1'.
Proof.
  intros Hb1 Hb2 Hl1 Hl2 Hgrid Hi Hp' Hb1'.
  pose proof Hl1 as [Ht1 _]. pose proof Hl2 as [Ht2 _].
  destruct (matching_piece ps qs b1 b2 p) as (q & Hq & Hwq);
    [done..|by eapply list_elem_of_lookup_2|].
  apply list_elem_of_lookup in Hq as [j Hj].
  assert (cells p ≠ []) as Hsolid.
  { destruct Ht1 as [_ _ Hs]. by eapply Forall_lookup_1 in Hs. }
  destruct (move_same_writes p q x y p' Hwq Hsolid Hp') as (q' & Hq' & Hwq').
  destruct (all_writes_insert ps i p p' Hi) as [Hps Hps'].
  destruct (all_writes_insert qs j q q' Hj) as [Hqs Hqs'].
  pose proof (same_grid_writes_perm ps qs b1 b2 Hb1 Hb2 Ht1 Ht2 Hgrid) as Hperm.
  rewrite Hps, Hqs, Hwq in Hperm. apply Permutation_app_inv_l in Hperm.
  assert (all_writes (<[i := p']> ps) ≡ₚ all_writes (<[j := q']> qs)) as Hperm'.
  { by rewrite Hps', Hqs', Hwq', Hperm. }
  pose proof (moved_tidy ps b1 i p x y p' b1' Ht1 Hb1 Hi Hp' Hb1') as [Hon' Hnd' _].
  pose proof (do_writes_perm _ _ _ _ board_grid_shape Hperm' Hnd' Hon'
                (init_grid_writes _ _ Hb1')) as Hw.
  eexists j, q, q', _. split_and!; [done|done| |].
  - apply init_of_writes; [done|]. by eapply init_count.
  - done.
Qed.

Lemma last_goal_elem_gen ps : ∀ i g,
  last_goal i ps = Some g → g ∈ ps ∨ i = Some g.
Proof.
  induction ps as [|p ps IH]; simpl; intros i g Hg; [by right|].
  apply IH in Hg as [Hg|Hg]; [left; by right|].
  destruct (is_goal p); [|by right]. injection Hg as ->. left. by left.
Qed.

Lemma last_goal_elem ps g : last_goal None ps = Some g → g ∈ ps.
Proof. by intros [?|?]%last_goal_elem_gen. Qed.

(** The goal block of legal boards with the same grid sits at the same
    place. *)
Lemma same_grid_same_goal ps qs b1 b2 g1 g2 :
  Board.init ps = Ok b1 → Board.init qs = Ok b2 → legal ps → legal qs →
  grid b1 = grid b2 → goal b1 = Some g1 → goal b2 = Some g2 →
  coord_x g1 = coord_x g2 ∧ coord_y g1 = coord_y g2.
Proof.
  intros Hb1 Hb2 Hl1 Hl2 Hgrid Hg1 Hg2.
  rewrite (init_goal _ _ Hb1) in Hg1. rewrite (init_goal _ _ Hb2) in Hg2.
  pose proof (last_goal_elem _ _ Hg1) as Hin1.
  pose proof (last_goal_elem _ _ Hg2) as Hin2.
  pose proof (last_goal_is_goal _ _ Hg1) as Hf1.
  pose proof (last_goal_is_goal _ _ Hg2) as Hf2.
  destruct (matching_piece ps qs b1 b2 g1) as (q & Hq & Hwq); [done..|].
  assert (cells g1 ≠ []) as Hsolid.
  { destruct Hl1 as [[_ _ Hs] _]. by eapply Forall_forall in Hs. }
  destruct (first_write g1 Hsolid) as (c & rest & Hw1).
  assert (is_goal q = true) as Hfq.
  { apply (goal_writes q (coord_y g1, coord_x g1, c)).
    - rewrite Hwq, Hw1. by left.
    - apply (goal_writes g1 (coord_y g1, coord_x g1, c)); [|done].
      rewrite Hw1. by left. }
  destruct Hl2 as [_ Hone2].
  rewrite (one_goal_unique qs g2 q Hone2 Hin2 Hq Hf2 Hfq).
  assert (cells q ≠ []) as Hsq by (unfold cells; rewrite Hwq, Hw1; done).
  destruct (first_write q Hsq) as (c' & rest' & Hw2).
  rewrite Hw1, Hw2 in Hwq. by simplify_eq.
Qed.

(** ** Legal states *)

Lemma constructed_init s :
  constructed s → Board.init (pieces (board s)) = Ok (board s).
Proof. intros (ps & d & p & Hb & _). by rewrite (init_pieces _ _ Hb). Qed.

Lemma successor_inv s t :
  constructed s → t ∈ State.generate_successors s →
  ∃ (i : nat) x y p p',
    (x, y) ∈ State.directions ∧ pieces (board s) !! i = Some p ∧
    Piece.move p x y = Ok p' ∧
    Board.init (<[i := p']> (pieces (board s))) = Ok (board t).
Proof.
  intros Hs (i & [x y] & Hi & Hd & (b' & Hm & Ht)%candidate_inv)%elem_of_generate_successors.
  destruct (lookup_lt_is_Some_2 _ i Hi) as [p Hp].
  rewrite (move_of_nat (pieces (board s)) (board s) i p) in Hm by done.
  apply rbind_Ok in Hm as (p' & Hp' & Hb').
  assert (board t = b') as ->.
  { unfold State.init in Ht. destruct (State.board_distance b'); [|done].
    simpl in Ht. by injection Ht as <-. }
  by exists i, x, y, p, p'.
Qed.

Lemma successor_intro s (i : nat) x y p p' b' :
  constructed s → (x, y) ∈ State.directions → pieces (board s) !! i = Some p →
  Piece.move p x y = Ok p' →
  Board.init (<[i := p']> (pieces (board s))) = Ok b' →
  ∃ t, t ∈ State.generate_successors s ∧ board t = b'.
Proof.
  intros Hs Hd Hp Hp' Hb'.
  destruct (constructed_goal s Hs) as (g & Hg & _).
  rewrite (init_goal _ _ (constructed_init s Hs)) in Hg.
  destruct (moved_board_has_goal _ i p x y p' b' g Hp Hd Hp' Hg Hb') as (g' & Hg' & _).
  eexists (mkState b' _ _ _). split; [|done].
  apply elem_of_generate_successors. exists i, (x, y).
  split_and!; [by eapply lookup_lt_Some|done|].
  unfold State.candidate. simpl.
  rewrite (move_of_nat (pieces (board s)) (board s) i p) by done.
  rewrite Hp'. simpl. rewrite Hb'. simpl.
  unfold State.init, State.board_distance. rewrite Hg'. done.
Qed.

Lemma constructed_heur s :
  constructed s →
  ∃ g, goal (board s) = Some g ∧
       heur s = Z.abs (coord_x g - 1) + Z.abs (coord_y g - 3).
Proof.
  intros (g & Hg & _ & Hf)%constructed_goal. exists g. split; [done|].
  unfold heur. lia.
Qed.

Lemma successor_heur s t :
  constructed s → t ∈ State.generate_successors s → Z.abs (heur t - heur s) ≤ 1.
Proof.
  intros Hs Ht. pose proof (successor_constructed s t Hs Ht) as Hct.
  destruct (successor_inv s t Hs Ht) as (i & x & y & p & p' & Hd & Hp & Hp' & Hb').
  destruct (constructed_heur s Hs) as (g & Hg & ->).
  destruct (constructed_heur t Hct) as (g' & Hg' & ->).
  rewrite (init_goal _ _ (constructed_init s Hs)) in Hg.
  destruct (moved_board_has_goal _ i p x y p' _ g Hp Hd Hp' Hg Hb')
    as (g'' & Hg'' & _ & Hnear).
  rewrite Hg' in Hg''. injection Hg'' as <-. lia.
Qed.

Lemma legal_state_succ s t :
  legal_state s → t ∈ State.generate_successors s → legal_state t.
Proof.
  intros [Hs Hl] Ht. split; [by eapply successor_constructed|].
  destruct (successor_inv s t Hs Ht) as (i & x & y & p & p' & Hd & Hp & Hp' & Hb').
  rewrite (init_pieces _ _ Hb').
  by eapply moved_legal; [|apply constructed_init|..].
Qed.

Lemma legal_state_grid s s' :
  legal_state s → legal_state s' → key s = key s' → grid (board s) = grid (board s').
Proof.
  intros [Hs _] [Hs' _] Hkey. unfold key in Hkey.
  pose proof (constructed_init s Hs) as Hb. pose proof (constructed_init s' Hs') as Hb'.
  rewrite (init_board_string _ _ Hb), (init_board_string _ _ Hb') in Hkey.
  by apply (grid_string_inj 5 4) in Hkey; eauto using init_shape.
Qed.

Lemma legal_state_heur s s' :
  legal_state s → legal_state s' → key s = key s' → heur s = heur s'.
Proof.
  intros Hls Hls' Hkey. pose proof (legal_state_grid s s' Hls Hls' Hkey) as Hgrid.
  destruct Hls as [Hs Hl], Hls' as [Hs' Hl'].
  destruct (constructed_heur s Hs) as (g & Hg & ->).
  destruct (constructed_heur s' Hs') as (g' & Hg' & ->).
  destruct (same_grid_same_goal _ _ _ _ g g' (constructed_init s Hs)
              (constructed_init s' Hs') Hl Hl' Hgrid Hg Hg') as [-> ->].
  done.
Qed.

Lemma legal_state_bisim s s' t :
  legal_state s → legal_state s' → key s = key s' →
  t ∈ State.generate_successors s →
  ∃ t', t' ∈ State.generate_successors s' ∧ key t' = key t.
Proof.
  intros Hls Hls' Hkey Ht. pose proof (legal_state_grid s s' Hls Hls' Hkey) as Hgrid.
  destruct Hls as [Hs Hl], Hls' as [Hs' Hl'].
  destruct (successor_inv s t Hs Ht) as (i & x & y & p & p' & Hd & Hp & Hp' & Hb').
  destruct (move_bisim _ _ _ _ i p x y p' (board t) (constructed_init s Hs)
              (constructed_init s' Hs') Hl Hl' Hgrid Hp Hp' Hb')
    as (j & q & q' & b2' & Hq & Hq' & Hb2' & Hgrid').
  destruct (successor_intro s' j x y q q' b2' Hs' Hd Hq Hq' Hb2') as (t' & Ht' & Hbt').
  exists t'. split; [done|]. unfold key.
  rewrite Hbt', (init_board_string _ _ Hb2'), (init_board_string _ _ Hb'). by f_equal.
Qed.

Lemma legal_state_goal s :
  legal_state s → 0 ≤ heur s ∧ (State.is_goal s = Ok true ↔ heur s = 0).
Proof.
  intros [(g & Hg & ->)%constructed_heur _]. split; [lia|].
  unfold State.is_goal. rewrite Hg. split.
  - intros [= H0]. rewrite andb_true_iff, !bool_decide_eq_true in H0. lia.
  - intros H0. do 2 f_equal. rewrite andb_true_iff, !bool_decide_eq_true. lia.
Qed.

Lemma legal_state_constructed s : legal_state s → constructed s.
Proof. by intros [? _]. Qed.

Lemma legal_state_consistent s t :
  legal_state s → t ∈ State.generate_successors s → heur s ≤ heur t + 1.
Proof. intros [Hs _] Ht. pose proof (successor_heur s t Hs Ht). lia. Qed.

Lemma search_loop_more {F} `{Frontier F} fuel : ∀ seen (fr : F) r k,
  search_loop fuel seen fr = Some r → search_loop (fuel + k) seen fr = Some r.
Proof.
  induction fuel as [|fuel IH]; intros seen fr r k; [done|].
  change (S fuel + k)%nat with (S (fuel + k)). rewrite !search_loop_S.
  destruct (fr_bool fr); [|done].
  destruct (fr_pop fr) as [[x fr']|]; [|done].
  case_decide; [by apply IH|].
  destruct (State.is_goal x) as [[|]|]; [done| |done]. by apply IH.
Qed.

Lemma stacked_solvable : solvable stacked_root.
Proof.
  exists stacked_step2, 2%nat. split; [|reflexivity].
  apply (path_step _ stacked_step1); [apply (path_step _ stacked_root); [constructor|]|].
  - apply elem_of_generate_successors. exists 0%nat, (0, 1).
    split_and!; [vm_compute; lia|set_solver|reflexivity].
  - apply elem_of_generate_successors. exists 1%nat, (0, 1).
    split_and!; [vm_compute; lia|set_solver|reflexivity].
Qed.

Lemma open_solvable : solvable open_root.
Proof.
  exists open_step1, 1%nat. split; [|reflexivity].
  apply (path_step _ open_root); [constructor|].
  apply elem_of_generate_successors. exists 0%nat, (0, 1).
  split_and!; [vm_compute; lia|set_solver|reflexivity].
Qed.

(** * The claims *)

(** C1 (as the code has it): from a legal layout (every piece on the grid,
    no two pieces overlapping, every piece covering a cell, exactly one goal
    block) from which a goal state can be reached, the search with the
    priority frontier returns a goal state, and no goal state is reached
    from the root by fewer moves; in particular its depth is at most the
    depth of whatever goal state the stack search returns. *)
Theorem astar_returns_shortest (ps : list Piece) (b : Board) (d : Z)
    (p : option State) (s : State) :
  Board.init ps = Ok b → State.init b d p = Ok s → legal ps → solvable s →
  ∃ fuel g, (∀ k, search (fuel + k) s Heap.init = Some (Ok (Some g))) ∧
    State.is_goal g = Ok true ∧ (∃ n, path s g n) ∧
    (∀ t m, path s t m → State.is_goal t = Ok true → depth g ≤ depth t) ∧
    (∀ fuel' g', search fuel' s ([] : list State) = Some (Ok (Some g')) →
                 depth g ≤ depth g').
Proof.
  intros Hb Hs Hl Hsolv. pose proof (constructed_intro _ _ _ _ _ Hb Hs) as Hc.
  assert (legal_state s) as Hls.
  { split; [done|].
    assert (board s = b) as Hbs.
    { unfold State.init in Hs. destruct (State.board_distance b); [|done].
      simpl in Hs. by injection Hs as <-. }
    by rewrite Hbs, (init_pieces _ _ Hb). }
  destruct (astar_optimal s legal_state Hls legal_state_constructed
              legal_state_succ legal_state_heur legal_state_bisim
              legal_state_consistent legal_state_goal Heap.init)
    as (fuel & g & Hrun & Hgoal & Hreach & Hbest);
    [apply Heap_init_ok..|done|].
  exists fuel, g. split_and!; [done..|].
  intros fuel' g' Hdfs.
  destruct (search_total s Hc ([] : list State)) as (fuel0 & r & Hrun0 & Hr);
    [done..|].
  specialize (Hrun0 fuel'). unfold search in *.
  apply (search_loop_more fuel' _ _ _ fuel0) in Hdfs.
  rewrite Nat.add_comm, Hdfs in Hrun0. injection Hrun0 as <-.
  destruct (Hr g' eq_refl) as (n & Hn & Hg'). by apply (Hbest g' n).
Qed.

Lemma astar_returns_shortest_witness :
  ∃ fuel g, (∀ k, search (fuel + k) open_root Heap.init = Some (Ok (Some g))) ∧
    State.is_goal g = Ok true ∧ (∃ n, path open_root g n) ∧
    (∀ t m, path open_root t m → State.is_goal t = Ok true → depth g ≤ depth t) ∧
    (∀ fuel' g', search fuel' open_root ([] : list State) = Some (Ok (Some g')) →
                 depth g ≤ depth g').
Proof.
  apply (astar_returns_shortest open_pieces open_board 0 None open_root);
    [reflexivity|reflexivity| |exact open_solvable].
  apply (bool_decide_unpack _). vm_compute. exact I.
Defined.

(** C1, counterexample: the constructor accepts [stacked_pieces], a goal
    state is two moves away, and the search with the priority frontier
    returns [None] after six iterations: the state in which the hidden block
    has moved has the board string of the root and is dropped as a
    duplicate. *)
Lemma astar_misses_reachable_goal :
  Board.init stacked_pieces = Ok stacked_board ∧
  State.init stacked_board 0 None = Ok stacked_root ∧
  solvable stacked_root ∧
  search 6 stacked_root Heap.init = Some (Ok None).
Proof.
  split_and!; [reflexivity|reflexivity|exact stacked_solvable|].
  vm_compute. reflexivity.
Qed.

(** C2 (as the code has it): board construction raises
    [ValueError "The board is not valid."] exactly when every footprint write
    is accepted by Python's indexing (row index from -5 to 4, column index
    from -4 to 3, a negative index counting from the end) and the finished
    overlay does not leave exactly two empty cells; it raises [IndexError]
    exactly when some footprint write is outside that range; it raises
    nothing else, and returns a board exactly when all writes are accepted
    and exactly two cells stay empty. *)
Theorem construct_outcomes (ps : list Piece) :
  (Board.init ps = Raise (ValueError "The board is not valid.") ↔
     ∃ g, do_writes (blank_grid 4 5) (all_writes ps) = Ok g ∧ count_empty g ≠ 2) ∧
  (Board.init ps = Raise IndexError ↔
     ¬ Forall (write_in_range 5 4) (all_writes ps)) ∧
  (is_Ok (Board.init ps) = true ↔
     ∃ g, do_writes (blank_grid 4 5) (all_writes ps) = Ok g ∧ count_empty g = 2) ∧
  (∀ e, Board.init ps = Raise e ↔
     e = IndexError ∧ ¬ Forall (write_in_range 5 4) (all_writes ps) ∨
     e = ValueError "The board is not valid." ∧
       ∃ g, do_writes (blank_grid 4 5) (all_writes ps) = Ok g ∧ count_empty g ≠ 2).
Proof.
  split_and!.
  - apply init_invalid_iff.
  - apply init_IndexError_iff.
  - apply init_Ok_iff.
  - intros e. rewrite <- init_invalid_iff, <- init_IndexError_iff. split.
    + intros He. revert He. unfold Board.init, Board.construct_grid.
      rewrite place_pieces_writes.
      destruct (do_writes _ _) as [g|e'] eqn:Hw; simpl.
      * case_decide; simpl; [|done]. intros [= <-]. by right.
      * intros [= <-]. apply do_writes_Raise in Hw as ->. by left.
    + intros [[-> ?]|[-> ?]]; done.
Qed.

(** C2, counterexample: the first two pieces of [stacked_pieces] both cover
    cell (1, 2), yet the board is accepted; and a block whose footprint
    leaves the grid on the right makes construction raise [IndexError], not
    the "board invalid" error. *)
Lemma construct_accepts_overlap :
  (2, 1, char_single) ∈ piece_writes (mkPiece false true 1 2 OrientNone) ∧
  (2, 1, char_goal) ∈ piece_writes (mkPiece true false 1 2 OrientNone) ∧
  Board.init stacked_pieces = Ok stacked_board ∧
  Board.init [mkPiece false false 3 0 OrientH] = Raise IndexError.
Proof. split_and!; [set_solver|set_solver|reflexivity|reflexivity]. Qed.

(** C3 (as the code has it): the string of a constructed board has length
    24 = width × height + (height − 1): its characters are the five rows of
    four symbols with one newline between consecutive rows, and exactly two
    of them are the empty-cell symbol. *)
Theorem board_string_shape (ps : list Piece) (b : Board) :
  Board.init ps = Ok b →
  String.length (board_string b) = 24%nat ∧
  Z.of_nat (String.length (board_string b)) = width b * height b + (height b - 1) ∧
  list_ascii_of_string (board_string b) = join_rows (grid b) ∧
  grid_shape 5 4 (grid b) ∧
  count_char char_empty (board_string b) = 2.
Proof.
  intros Hb. pose proof (init_shape _ _ Hb) as Hshape.
  pose proof (init_string_length _ _ Hb) as Hlen.
  split_and!; [done| | |done|].
  - rewrite Hlen. apply init_inv in Hb as (g & _ & _ & ->). done.
  - by rewrite (init_board_string _ _ Hb), grid_string_chars.
  - unfold count_char.
    rewrite (init_board_string _ _ Hb), grid_string_chars, join_rows_count.
    by eapply init_count.
Qed.

Lemma board_string_shape_witness :
  String.length (board_string classic_board) = 24%nat ∧
  Z.of_nat (String.length (board_string classic_board)) =
    width classic_board * height classic_board + (height classic_board - 1) ∧
  list_ascii_of_string (board_string classic_board) = join_rows (grid classic_board) ∧
  grid_shape 5 4 (grid classic_board) ∧
  count_char char_empty (board_string classic_board) = 2.
Proof. apply (board_string_shape classic_pieces classic_board). reflexivity. Defined.

(** C3, counterexample: the string of the classic board is not 20 characters
    long. *)
Lemma board_string_not_20 :
  Board.init classic_pieces = Ok classic_board ∧
  String.length (board_string classic_board) ≠ 20%nat.
Proof. split; [reflexivity|]. vm_compute. discriminate. Qed.



(** C5: the heuristic of a state is the Manhattan distance
    |goal.x − 1| + |goal.y − 3|; it is 0 exactly when [is_goal] holds; and
    the heuristic of every successor differs from it by at most 1. *)
Theorem heuristic_manhattan (ps : list Piece) (b : Board) (d : Z)
    (p : option State) (s : State) :
  Board.init ps = Ok b → State.init b d p = Ok s →
  ∃ g, goal (board s) = Some g ∧
    State.manhattan_distance s = Ok (Z.abs (coord_x g - 1) + Z.abs (coord_y g - 3)) ∧
    (State.manhattan_distance s = Ok 0 ↔ State.is_goal s = Ok true) ∧
    ∀ t, t ∈ State.generate_successors s →
      ∃ ht, State.manhattan_distance t = Ok ht ∧
        Z.abs (ht - (Z.abs (coord_x g - 1) + Z.abs (coord_y g - 3))) ≤ 1.
Proof.
  intros Hb Hs. pose proof (constructed_intro _ _ _ _ _ Hb Hs) as Hc.
  assert (board s = b) as Hbs.
  { unfold State.init in Hs. destruct (State.board_distance b); [|done].
    simpl in Hs. by injection Hs as <-. }
  destruct (constructed_goal s Hc) as (g & Hg & _ & _).
  exists g. unfold State.manhattan_distance, State.board_distance, State.is_goal.
  rewrite Hg. split_and!; [done|done| |].
  - split.
    + intros [= H0]. do 2 f_equal. rewrite andb_true_iff, !bool_decide_eq_true. lia.
    + intros [= H0]. f_equal.
      rewrite andb_true_iff, !bool_decide_eq_true in H0. lia.
  - intros t (i & dir & Hi & Hdir & Ht)%elem_of_generate_successors.
    apply candidate_inv in Ht as (b' & Hm & Ht).
    rewrite Hbs, (init_pieces _ _ Hb) in Hi.
    destruct (lookup_lt_is_Some_2 ps i Hi) as [pc Hpc].
    rewrite Hbs, (move_of_nat ps b i pc) in Hm by eauto using init_pieces.
    apply rbind_Ok in Hm as (q & Hq & Hb').
    rewrite Hbs, (init_goal _ _ Hb) in Hg. destruct dir as [x y].
    destruct (moved_board_has_goal ps i pc x y q b' g) as (g' & Hg' & _ & Hnear);
      try done.
    unfold State.init, State.board_distance in Ht. rewrite Hg' in Ht.
    simpl in Ht. injection Ht as <-. simpl. rewrite Hg'. eexists. split; [done|].
    lia.
Qed.

Lemma heuristic_manhattan_witness :
  ∃ g, goal (board classic_root) = Some g ∧
    State.manhattan_distance classic_root =
      Ok (Z.abs (coord_x g - 1) + Z.abs (coord_y g - 3)) ∧
    (State.manhattan_distance classic_root = Ok 0 ↔ State.is_goal classic_root = Ok true) ∧
    ∀ t, t ∈ State.generate_successors classic_root →
      ∃ ht, State.manhattan_distance t = Ok ht ∧
        Z.abs (ht - (Z.abs (coord_x g - 1) + Z.abs (coord_y g - 3))) ≤ 1.
Proof.
  apply (heuristic_manhattan classic_pieces classic_board 0 None classic_root);
    reflexivity.
Defined.

(** C6: from every state the program can build, the search ends under both
    strategies (with enough iterations allowed it returns, and allowing more
    changes nothing), without raising; what it returns is [None] or a goal
    state reached from the root, so when no goal state can be reached it
    returns [None]. *)
Theorem search_terminates (ps : list Piece) (b : Board) (d : Z)
    (p : option State) (s : State) :
  Board.init ps = Ok b → State.init b d p = Ok s →
  (∃ fuel r, (∀ k, search (fuel + k) s Heap.init = Some (Ok r)) ∧
     (∀ g, r = Some g → ∃ n, path s g n ∧ State.is_goal g = Ok true) ∧
     (¬ solvable s → r = None)) ∧
  (∃ fuel r, (∀ k, search (fuel + k) s ([] : list State) = Some (Ok r)) ∧
     (∀ g, r = Some g → ∃ n, path s g n ∧ State.is_goal g = Ok true) ∧
     (¬ solvable s → r = None)).
Proof.
  intros Hb Hs. pose proof (constructed_intro _ _ _ _ _ Hb Hs) as Hc. split.
  - destruct (search_total s Hc Heap.init) as (fuel & r & Hrun & Hr);
      [apply Heap_init_ok..|].
    exists fuel, r. split_and!; [done..|]. intros Hno.
    destruct r as [g|]; [|done].
    destruct (Hr g eq_refl) as (n & Hpath & Hgoal). destruct Hno. by exists g, n.
  - destruct (search_total s Hc ([] : list State)) as (fuel & r & Hrun & Hr);
      [done..|].
    exists fuel, r. split_and!; [done..|]. intros Hno.
    destruct r as [g|]; [|done].
    destruct (Hr g eq_refl) as (n & Hpath & Hgoal). destruct Hno. by exists g, n.
Qed.

Lemma search_terminates_witness :
  (∃ fuel r, (∀ k, search (fuel + k) stacked_root Heap.init = Some (Ok r)) ∧
     (∀ g, r = Some g → ∃ n, path stacked_root g n ∧ State.is_goal g = Ok true) ∧
     (¬ solvable stacked_root → r = None)) ∧
  (∃ fuel r, (∀ k, search (fuel + k) stacked_root ([] : list State) = Some (Ok r)) ∧
     (∀ g, r = Some g → ∃ n, path stacked_root g n ∧ State.is_goal g = Ok true) ∧
     (¬ solvable stacked_root → r = None)).
Proof.
  apply (search_terminates stacked_pieces stacked_board 0 None stacked_root);
    reflexivity.
Defined.



(** C8 (as the code has it): on a layout without a goal marker the run ends
    with an exception before the search is entered, whatever the iteration
    bound and the strategy.  A missing goal block has no error of its own:
    either board construction fails for its usual reasons (the empty-cell
    count, an index out of range), or the loader returns a board whose goal
    is [None] and building the root state raises the [AttributeError] of
    reading an attribute of [None]. *)
Theorem main_without_goal (fuel : nat) (lines : list string) (algo : Algo) :
  no_goal_marker lines →
  ∃ e, main fuel lines algo = Some (Raise e) ∧
    ((read_from_file lines = Raise e ∧
      (e = ValueError "The board is not valid." ∨ e = IndexError)) ∨
     ∃ b, read_from_file lines = Ok b ∧ goal b = None ∧
          State.init b 0 None = Raise e ∧ e = AttributeError).
Proof.
  intros Hno%read_pieces_no_goal. unfold main, read_from_file.
  destruct (Board.init (read_pieces lines)) as [b|e] eqn:Hb.
  - exists AttributeError.
    assert (goal b = None) as Hg.
    { rewrite (init_goal _ _ Hb). by apply last_goal_None_iff. }
    unfold State.init, State.board_distance. rewrite Hg. simpl.
    split; [done|]. right. exists b. by rewrite Hg.
  - exists e. split; [done|]. left. split; [done|]. by eapply init_Raise.
Qed.

Lemma main_without_goal_witness :
  ∃ e, main 1000 goalless_layout astar = Some (Raise e) ∧
    ((read_from_file goalless_layout = Raise e ∧
      (e = ValueError "The board is not valid." ∨ e = IndexError)) ∨
     ∃ b, read_from_file goalless_layout = Ok b ∧ goal b = None ∧
          State.init b 0 None = Raise e ∧ e = AttributeError).
Proof.
  apply (main_without_goal 1000 goalless_layout astar).
  apply (bool_decide_unpack _). vm_compute. exact I.
Defined.

(** C8, counterexample: the loader and the board constructor accept
    [goalless_layout], eighteen single blocks and two empty cells, without
    any error; the run then ends with [AttributeError], the very exception
    with which it ends on [jammed_layout], a legal layout on which the
    search runs and returns [None]. *)
Lemma goalless_layout_accepted :
  no_goal_marker goalless_layout ∧
  read_from_file goalless_layout = Ok goalless_board ∧
  goal goalless_board = None ∧
  main 1000 goalless_layout astar = Some (Raise AttributeError) ∧
  legal jammed_pieces ∧
  read_from_file jammed_layout = Ok jammed_board ∧
  State.init jammed_board 0 None = Ok jammed_root ∧
  search 1000 jammed_root Heap.init = Some (Ok None) ∧
  main 1000 jammed_layout astar = Some (Raise AttributeError).
Proof.
  split_and!.
  - apply (bool_decide_unpack _). vm_compute. exact I.
  - vm_compute. reflexivity.
  - reflexivity.
  - vm_compute. reflexivity.
  - apply (bool_decide_unpack _). vm_compute. exact I.
  - vm_compute. reflexivity.
  - vm_compute. reflexivity.
  - vm_compute. reflexivity.
  - vm_compute. reflexivity.
Qed.

(** C9: [Board.move] on a board object leaves every object that existed
    before the call as it was, in particular the board itself (its piece
    list, grid and string); when it returns, the new board is a fresh object
    whose piece list is a fresh list equal to the old one with only the entry
    at the index replaced by the translated piece, and it is exactly what
    [Board.__init__] builds from that list, validation included; when it
    raises, the exception is that of the translation or of the construction.
    The index is any index Python accepts for the list. *)
Theorem move_leaves_board_unchanged (σ : Mem.store) (self : Mem.loc)
    (bo : Mem.BoardObj) (b : Board) (i : Z) (n : nat) (x y : Z) :
  Mem.boards σ !! self = Some bo →
  Mem.view σ bo = Some b →
  py_index (length (pieces b)) i = Some n →
  ∃ r σ', Mem.Board_move self i x y σ = Some (r, σ') ∧
    (∀ l ps0, Mem.lists σ !! l = Some ps0 → Mem.lists σ' !! l = Some ps0) ∧
    (∀ l b0, Mem.boards σ !! l = Some b0 → Mem.boards σ' !! l = Some b0) ∧
    Mem.boards σ' !! self = Some bo ∧
    Mem.view σ' bo = Some b ∧
    match r with
    | Ok new =>
        ∃ bo' old moved b',
          Mem.boards σ !! new = None ∧
          Mem.boards σ' !! new = Some bo' ∧
          Mem.lists σ !! Mem.o_pieces bo' = None ∧
          pieces b !! n = Some old ∧
          Piece.move old x y = Ok moved ∧
          Mem.view σ' bo' = Some b' ∧
          pieces b' = <[n := moved]> (pieces b) ∧
          Board.init (<[n := moved]> (pieces b)) = Ok b' ∧
          Board.move b i x y = Ok b'
    | Raise e => Board.move b i x y = Raise e
    end.
Proof.
  intros Hself Hview Hi. unfold Mem.view in Hview.
  destruct (Mem.lists σ !! Mem.o_pieces bo) as [ps|] eqn:Hps; [|done].
  injection Hview as <-. simpl in Hi.
  set (nl := fresh (dom (Mem.lists σ))).
  assert (Mem.lists σ !! nl = None) as Hnl.
  { apply not_elem_of_dom, is_fresh. }
  assert (nl ≠ Mem.o_pieces bo) as Hne by congruence.
  pose proof (py_index_lt _ _ _ Hi) as Hlt.
  destruct (lookup_lt_is_Some_2 ps n Hlt) as [old Hold].
  unfold Mem.Board_move, Mem.bind, Mem.read_board, Mem.read_list, Mem.alloc_list,
    Mem.load_item, Mem.store_item, Mem.lift, Board.move, py_getitem, py_setitem.
  rewrite Hself. simpl. rewrite Hps. simpl. fold nl.
  rewrite lookup_insert_eq. simpl. rewrite Hi, Hold.
  destruct (Piece.move old x y) as [moved|e] eqn:Hmoved; simpl.
  - rewrite lookup_insert_eq. simpl. rewrite Hi. simpl.
    rewrite insert_insert_eq.
    unfold Mem.Board_init, Mem.bind, Mem.read_list, Mem.lift, Mem.alloc_board,
      Board.init.
    simpl. rewrite lookup_insert_eq. simpl.
    destruct (Board.construct_grid 4 5 (<[n:=moved]> ps)) as [[g go]|e] eqn:Hcon; simpl.
    + set (nb := fresh (dom (Mem.boards σ))).
      assert (Mem.boards σ !! nb = None) as Hnb.
      { apply not_elem_of_dom, is_fresh. }
      eexists _, _. split; [done|]. simpl. split_and!.
      * intros l ps0 Hl. rewrite lookup_insert_ne; [done|congruence].
      * intros l b0 Hl. rewrite lookup_insert_ne; [done|congruence].
      * rewrite lookup_insert_ne; [done|congruence].
      * unfold Mem.view. simpl. rewrite lookup_insert_ne by done. by rewrite Hps.
      * eexists _, old, moved, _. rewrite Hmoved. simpl. rewrite Hcon. simpl.
        split_and!.
        -- done.
        -- by rewrite lookup_insert_eq.
        -- done.
        -- done.
        -- done.
        -- unfold Mem.view. simpl. by rewrite lookup_insert_eq.
        -- done.
        -- done.
        -- done.
    + eexists _, _. split; [done|]. simpl. rewrite Hmoved. simpl. rewrite Hcon.
      split_and!; try done.
      * intros l ps0 Hl. rewrite lookup_insert_ne; [done|congruence].
      * unfold Mem.view. simpl. rewrite lookup_insert_ne by done. by rewrite Hps.
  - eexists _, _. split; [done|]. simpl. rewrite Hmoved. split_and!; try done.
    + intros l ps0 Hl. rewrite lookup_insert_ne; [done|congruence].
    + unfold Mem.view. simpl. rewrite lookup_insert_ne by done. by rewrite Hps.
Qed.

Lemma move_leaves_board_unchanged_witness :
  ∃ r σ', Mem.Board_move 1%positive 9 (-1) 0 classic_store = Some (r, σ') ∧
    Mem.boards σ' !! 1%positive = Some classic_object ∧
    Mem.view σ' classic_object = Some classic_board ∧
    is_Ok r = true.
Proof.
  destruct (move_leaves_board_unchanged classic_store 1%positive classic_object
              classic_board 9 9 (-1) 0) as (r & σ' & Hrun & _ & _ & Hb & Hv & Hr);
    [reflexivity..|].
  exists r, σ'. split_and!; [done..|].
  destruct r as [new|e]; [done|]. vm_compute in Hr. discriminate Hr.
Defined.

(** C10 (as the code has it): for a state whose pieces lie on the grid
    without overlapping, each covering at least one cell, every successor
    has a board string different from the state's own. *)
Theorem successor_changes_board (ps : list Piece) (b : Board) (d : Z)
    (p : option State) (s : State) :
  Board.init ps = Ok b → State.init b d p = Ok s → tidy ps →
  ∀ t, t ∈ State.generate_successors s →
       board_string (board t) ≠ board_string (board s).
Proof.
  intros Hb Hs Htidy t Ht.
  assert (board s = b) as Hbs.
  { unfold State.init in Hs. destruct (State.board_distance b); [|done].
    simpl in Hs. by injection Hs as <-. }
  apply elem_of_generate_successors in Ht as (i & dir & Hi & Hdir & Ht).
  apply candidate_inv in Ht as (b' & Hm & Ht).
  assert (board t = b') as Hbt.
  { unfold State.init in Ht. destruct (State.board_distance b'); [|done].
    simpl in Ht. by injection Ht as <-. }
  rewrite Hbs, (init_pieces _ _ Hb) in Hi.
  destruct (lookup_lt_is_Some_2 ps i Hi) as [pc Hpc].
  rewrite Hbs, (move_of_nat ps b i pc) in Hm by eauto using init_pieces.
  apply rbind_Ok in Hm as (q & Hq & Hb'). destruct dir as [x y].
  destruct (moved_board_uncovers ps b i pc x y q b') as (pos & c & Hc & Hne & He);
    try done.
  rewrite Hbs, Hbt, (init_board_string _ _ Hb), (init_board_string _ _ Hb').
  intros Heq. apply (grid_string_inj 5 4) in Heq; eauto using init_shape.
  congruence.
Qed.

Lemma successor_changes_board_witness :
  Forall (λ t, board_string (board t) ≠ board_string (board classic_root))
         (State.generate_successors classic_root).
Proof.
  apply Forall_forall.
  apply (successor_changes_board classic_pieces classic_board 0 None classic_root);
    [reflexivity|reflexivity|].
  apply (bool_decide_unpack _). vm_compute. exact I.
Defined.

(** C10, counterexample: in [stacked_pieces] the single block under the goal
    block can slide one cell to the right, still under the goal block; the
    move is accepted and the grid is the same. *)
Lemma successor_same_board :
  Board.init stacked_pieces = Ok stacked_board ∧
  State.init stacked_board 0 None = Ok stacked_root ∧
  ∃ t, t ∈ State.generate_successors stacked_root ∧
       board_string (board t) = board_string (board stacked_root).
Proof.
  split; [reflexivity|]. split; [reflexivity|].
  destruct (State.generate_successors stacked_root) as [|t l] eqn:Hgen.
  - vm_compute in Hgen. discriminate Hgen.
  - exists t. split; [by left|].
    assert (head (State.generate_successors stacked_root) = Some t) as Hhd
      by (by rewrite Hgen).
    vm_compute in Hhd. injection Hhd as <-. reflexivity.
Qed.

(** * Further properties *)

(** ** Shared facts *)

Lemma state_init_inv b d p s :
  State.init b d p = Ok s → board s = b ∧ depth s = d ∧ parent s = p.
Proof.
  unfold State.init. destruct (State.board_distance b); [|done].
  simpl. by intros [= <-].
Qed.

Lemma legal_state_intro ps b d p s :
  Board.init ps = Ok b → State.init b d p = Ok s → legal ps → legal_state s.
Proof.
  intros Hb Hs Hl. split; [by eapply constructed_intro|].
  apply state_init_inv in Hs as (-> & _). by rewrite (init_pieces _ _ Hb).
Qed.

Lemma open_step1_successor : open_step1 ∈ State.generate_successors open_root.
Proof.
  apply elem_of_generate_successors. exists 0%nat, (0, 1).
  split_and!; [vm_compute; lia|set_solver|reflexivity].
Qed.

Lemma open_step1_path : path open_root open_step1 1.
Proof. eapply path_step; [constructor|apply open_step1_successor]. Qed.

Lemma classic_legal : legal classic_pieces.
Proof. apply (bool_decide_unpack _). vm_compute. exact I. Qed.

(** ** The [Heap] class as a priority queue *)

(** X1: on a heap that satisfies the heap invariant (as every heap built
    from [Heap()] by [append], [extend] and [pop] does), [pop] raises
    [IndexError] when the heap is empty and otherwise returns an item whose
    priority [f] is least, leaving a heap that holds exactly the other items
    and satisfies the invariant again; [__bool__] tells the two cases
    apart. *)
Theorem heap_pop_least (h : Heap) :
  heap_ordered f (heap h) →
  (heap h = [] → Heap.pop h = Raise IndexError) ∧
  (heap h ≠ [] →
     ∃ x h', Heap.pop h = Ok (x, h') ∧ heap h ≡ₚ x :: heap h' ∧
       heap_ordered f (heap h') ∧ ∀ y, y ∈ heap h → f x ≤ f y) ∧
  (Heap.bool h = true ↔ heap h ≠ []).
Proof.
  intros Hord. split_and!.
  - intros Hnil. unfold Heap.pop. by rewrite Hnil.
  - intros Hne.
    destruct (heappop_spec State.lt f State_lt_f (heap h) Hord Hne)
      as (x & heap' & Hpop & Hperm & Hord' & Hmin).
    exists x, (mkHeap heap'). unfold Heap.pop. rewrite Hpop. done.
  - unfold Heap.bool. by destruct (heap h).
Qed.

Lemma heap_pop_least_witness :
  let h := mkHeap [open_root; classic_root; stacked_root; classic_root; classic_root] in
  (∃ x h', Heap.pop h = Ok (x, h') ∧ heap h ≡ₚ x :: heap h' ∧
     heap_ordered f (heap h') ∧ ∀ y, y ∈ heap h → f x ≤ f y) ∧
  Heap.bool h = true ∧
  heap_ordered f (heap h) ∧
  f open_root = 1 ∧ f classic_root = 3 ∧ f stacked_root = 1 ∧
  Heap.pop h = Ok (open_root, mkHeap [stacked_root; classic_root; classic_root; classic_root]).
Proof.
  intros h.
  assert (heap_ordered f (heap h)) as Hord.
  { intros i a b Hi Ha Hb.
    destruct i as [|[|[|[|[|i]]]]]; [lia|..|done];
      vm_compute in Ha, Hb; injection Ha as <-; injection Hb as <-;
      vm_compute; discriminate. }
  destruct (heap_pop_least h Hord) as (_ & Hpop & Hbool).
  split_and!; [by apply Hpop|by apply Hbool|done|reflexivity..|].
  vm_compute. reflexivity.
Defined.

(** X2: [append] and [extend] keep the heap invariant and add exactly the
    given items to the contents of the heap. *)
Theorem heap_append_extend (h : Heap) (x : State) (items : list State) :
  heap_ordered f (heap h) →
  heap_ordered f (heap (Heap.append h x)) ∧ heap (Heap.append h x) ≡ₚ x :: heap h ∧
  heap_ordered f (heap (Heap.extend h items)) ∧
  heap (Heap.extend h items) ≡ₚ items ++ heap h.
Proof.
  intros Hord. split_and!.
  - by apply (heappush_ordered State.lt f State_lt_f).
  - apply (heappush_perm State.lt).
  - by apply Heap_extend_spec.
  - by apply Heap_extend_spec.
Qed.

Lemma heap_append_extend_witness :
  let h := mkHeap [classic_root] in
  let items := [open_root; stacked_root] in
  heap_ordered f (heap (Heap.append h open_root)) ∧
  heap (Heap.append h open_root) ≡ₚ open_root :: heap h ∧
  heap_ordered f (heap (Heap.extend h items)) ∧
  heap (Heap.extend h items) ≡ₚ items ++ heap h.
Proof.
  intros h items. apply (heap_append_extend h open_root items).
  intros [|i] a b Hi Ha; [lia|done].
Defined.

(** ** Moving a piece *)



Lemma move_back p x y q :
  Piece.move p x y = Ok q → 0 ≤ coord_x p → 0 ≤ coord_y p →
  Piece.move q (- x) (- y) = Ok p.
Proof.
  unfold Piece.move. intros Hm Hx Hy. case_decide as Hneg; [done|].
  injection Hm as <-. simpl. case_decide; [lia|].
  destruct p as [g s cx cy o]. simpl. f_equal. f_equal; lia.
Qed.

Lemma directions_opposite x y :
  (x, y) ∈ State.directions → (- x, - y) ∈ State.directions.
Proof.
  unfold State.directions. rewrite !elem_of_cons, elem_of_nil.
  intros [[= -> ->]|[[= -> ->]|[[= -> ->]|[[= -> ->]|[]]]]]; set_solver.
Qed.

(** X3: a piece with non-negative coordinates that [Piece.move] has
    translated is brought back by the opposite translation; a translation
    never changes the kind or orientation of a piece and never yields a
    negative coordinate; and translating twice is translating once by the
    sum of the offsets. *)
Theorem piece_move_undo (p q : Piece) (x y : Z) :
  Piece.move p x y = Ok q → 0 ≤ coord_x p → 0 ≤ coord_y p →
  Piece.move q (- x) (- y) = Ok p ∧
  (∀ x' y' r, Piece.move q x' y' = Ok r → Piece.move p (x + x') (y + y') = Ok r) ∧
  is_goal q = is_goal p ∧ is_single q = is_single p ∧ orientation q = orientation p ∧
  0 ≤ coord_x q ∧ 0 ≤ coord_y q.
Proof.
  intros Hm Hx Hy. split; [by apply move_back|].
  unfold Piece.move in *. case_decide as Hneg; [done|].
  injection Hm as <-. simpl. split_and!; try done; try lia.
  intros x' y' r. case_decide; [done|]. intros [= <-].
  case_decide; [lia|]. f_equal. f_equal; lia.
Qed.

Lemma piece_move_undo_witness :
  let p := mkPiece false true 2 3 OrientNone in
  let q := mkPiece false true 2 4 OrientNone in
  Piece.move q (- 0) (- 1) = Ok p ∧
  (∀ x' y' r, Piece.move q x' y' = Ok r → Piece.move p (0 + x') (1 + y') = Ok r) ∧
  is_goal q = is_goal p ∧ is_single q = is_single p ∧ orientation q = orientation p ∧
  0 ≤ coord_x q ∧ 0 ≤ coord_y q.
Proof.
  intros p q. apply (piece_move_undo p q 0 1); [reflexivity|simpl; lia|simpl; lia].
Defined.

(** X4: [Board.move] with a piece number outside Python's index range of the
    piece list raises [IndexError], whatever the offsets; a negative piece
    number within the range addresses the piece counted from the end. *)
Theorem board_move_index (b : Board) (i x y : Z) :
  (i < - Z.of_nat (length (pieces b)) ∨ Z.of_nat (length (pieces b)) ≤ i →
     Board.move b i x y = Raise IndexError) ∧
  (- Z.of_nat (length (pieces b)) ≤ i < 0 →
     Board.move b i x y = Board.move b (Z.of_nat (length (pieces b)) + i) x y).
Proof.
  unfold Board.move, py_getitem, py_setitem, py_index. split.
  - intros Hout. repeat case_decide; try lia. done.
  - intros Hneg. repeat case_decide; try lia. done.
Qed.

(** ** The overlay of a layout without overlaps *)

Lemma tidy_init_Ok ps :
  Forall on_grid (footprint ps) → NoDup (footprint ps) →
  length (footprint ps) = 18%nat → ∃ b, Board.init ps = Ok b.
Proof.
  intros Hgrid Hnd Hlen.
  assert (is_Ok (do_writes (blank_grid 4 5) (all_writes ps)) = true) as Hok.
  { apply (do_writes_is_Ok 5 4); [apply board_grid_shape|]. by apply on_grid_in_range. }
  destruct (do_writes (blank_grid 4 5) (all_writes ps)) as [g|] eqn:Hw; [|done].
  pose proof (do_writes_count _ _ _ ∅ Hw blank_empties_outside Hgrid
                (all_writes_symbols ps)) as (_ & _ & Hcount).
  eexists. apply (init_of_writes ps g Hw).
  rewrite Hcount, union_empty_l_L.
  change ((all_writes ps).*1) with (footprint ps).
  rewrite (size_list_to_set (C := gset (Z * Z))) by done. lia.
Qed.

Lemma tidy_coords_nonneg ps p :
  tidy ps → p ∈ ps → on_grid (coord_y p, coord_x p).
Proof.
  intros [Hgrid _ Hsolid] Hp.
  eapply Forall_forall in Hsolid; [|done].
  destruct (first_write p Hsolid) as (c & rest & Hw).
  eapply Forall_forall in Hgrid; [done|].
  apply elem_of_footprint. exists p. split; [done|].
  unfold cells. rewrite Hw. simpl. by left.
Qed.

(** X5: on the board built from a layout whose pieces lie on the grid
    without overlapping, the pieces cover eighteen cells, and every cell of
    the grid holds the symbol some piece writes there, or the empty-cell
    symbol exactly when no piece covers it. *)
Theorem overlay_of_tidy_layout (ps : list Piece) (b : Board) :
  Board.init ps = Ok b → tidy ps →
  length (footprint ps) = 18%nat ∧
  ∀ pos c, on_grid pos →
    (grid_get (grid b) pos = Some c ↔
     (pos, c) ∈ all_writes ps ∨ (c = char_empty ∧ pos ∉ footprint ps)).
Proof.
  intros Hb Ht. split; [by eapply tidy_footprint_length|].
  intros pos c Hpos. by apply tidy_grid_get.
Qed.

Lemma overlay_of_tidy_layout_witness :
  length (footprint classic_pieces) = 18%nat ∧
  ∀ pos c, on_grid pos →
    (grid_get (grid classic_board) pos = Some c ↔
     (pos, c) ∈ all_writes classic_pieces ∨
     (c = char_empty ∧ pos ∉ footprint classic_pieces)).
Proof.
  apply (overlay_of_tidy_layout classic_pieces classic_board); [reflexivity|].
  apply (bool_decide_unpack _). vm_compute. exact I.
Defined.

(** X6: for a layout with no negative coordinate whose pieces have eighteen
    cells in all, board construction succeeds exactly when every piece lies
    on the grid and no two pieces overlap: on such layouts counting the
    empty cells is a complete validity check. *)
Theorem count_check_adequate (ps : list Piece) :
  Forall write_nonneg (all_writes ps) → length (footprint ps) = 18%nat →
  (is_Ok (Board.init ps) = true ↔
   Forall on_grid (footprint ps) ∧ NoDup (footprint ps)).
Proof.
  intros Hnn Hlen. split.
  - destruct (Board.init ps) as [b|] eqn:Hb; [intros _|done].
    pose proof (init_on_grid _ _ Hb Hnn) as Hgrid. split; [done|].
    apply size_list_to_set_NoDup. rewrite Hlen. by eapply init_covered.
  - intros [Hgrid Hnd]. by destruct (tidy_init_Ok ps Hgrid Hnd Hlen) as [b ->].
Qed.

Lemma count_check_adequate_witness :
  is_Ok (Board.init classic_pieces) = true ↔
  Forall on_grid (footprint classic_pieces) ∧ NoDup (footprint classic_pieces).
Proof.
  apply (count_check_adequate classic_pieces); [|reflexivity].
  apply on_grid_write_nonneg. apply (bool_decide_unpack _). vm_compute. exact I.
Defined.

(** X7: the strings of two constructed boards are equal exactly when their
    grids are equal: the string names the grid without loss. *)
Theorem board_string_determines_grid (ps qs : list Piece) (b1 b2 : Board) :
  Board.init ps = Ok b1 → Board.init qs = Ok b2 →
  (board_string b1 = board_string b2 ↔ grid b1 = grid b2).
Proof.
  intros Hb1 Hb2. rewrite (init_board_string _ _ Hb1), (init_board_string _ _ Hb2).
  split; [|by intros ->].
  apply (grid_string_inj 5 4); by eapply init_shape.
Qed.

Lemma board_string_determines_grid_witness :
  board_string classic_board = board_string stacked_board ↔
  grid classic_board = grid stacked_board.
Proof.
  apply (board_string_determines_grid classic_pieces stacked_pieces); reflexivity.
Defined.

(** ** Printing a board *)

Lemma print_chars out s e :
  list_ascii_of_string (print out s e) =
  list_ascii_of_string out ++ list_ascii_of_string s ++ list_ascii_of_string e.
Proof. unfold print. by rewrite !list_ascii_of_string_app. Qed.

Lemma display_row_chars row : ∀ out,
  list_ascii_of_string
    (foldl (λ out ch, print out (String ch EmptyString) EmptyString) out row) =
  list_ascii_of_string out ++ row.
Proof.
  induction row as [|ch row IH]; intros out; simpl.
  - by rewrite app_nil_r.
  - rewrite IH, print_chars. simpl. by rewrite <- app_assoc.
Qed.

Lemma display_chars b : ∀ out,
  list_ascii_of_string (Board.display b out) =
  list_ascii_of_string out ++ flat_map (λ row, row ++ ["010"%char]) (grid b).
Proof.
  unfold Board.display. induction (grid b) as [|row g IH]; intros out; simpl.
  - by rewrite app_nil_r.
  - rewrite IH, print_chars, display_row_chars. simpl. by rewrite <- !app_assoc.
Qed.

Lemma join_rows_newline g :
  g ≠ [] → join_rows g ++ ["010"%char] = flat_map (λ row, row ++ ["010"%char]) g.
Proof.
  induction g as [|row g IH]; [done|]. intros _.
  destruct g as [|row' g]; [simpl; by rewrite app_nil_r|].
  change (join_rows (row :: row' :: g)) with (row ++ "010"%char :: join_rows (row' :: g)).
  rewrite flat_map_step, <- IH by done. by rewrite <- !app_assoc.
Qed.

(** X8: [display] on a constructed board prints the board's string followed
    by one newline, after whatever was printed before. *)
Theorem display_prints_board_string (ps : list Piece) (b : Board) (out : string) :
  Board.init ps = Ok b → Board.display b out = out +:+ board_string b +:+ newline.
Proof.
  intros Hb.
  rewrite <- (string_of_list_ascii_of_string (Board.display b out)).
  rewrite <- (string_of_list_ascii_of_string (out +:+ board_string b +:+ newline)).
  f_equal. rewrite display_chars, !list_ascii_of_string_app.
  rewrite (init_board_string _ _ Hb), grid_string_chars. f_equal.
  rewrite <- join_rows_newline; [done|].
  destruct (init_shape _ _ Hb) as [Hlen _]. by destruct (grid b).
Qed.

Lemma display_prints_board_string_witness :
  Board.display classic_board EmptyString =
  EmptyString +:+ board_string classic_board +:+ newline.
Proof. apply (display_prints_board_string classic_pieces). reflexivity. Defined.

(** ** Successors of legal layouts *)



(** X10: every move can be taken back: from a layout whose pieces lie on the
    grid without overlapping, each successor has a successor of its own
    whose board is the original board, two levels deeper. *)
Theorem moves_reversible (ps : list Piece) (b : Board) (d : Z)
    (p : option State) (s t : State) :
  Board.init ps = Ok b → State.init b d p = Ok s → tidy ps →
  t ∈ State.generate_successors s →
  ∃ u, u ∈ State.generate_successors t ∧ board u = board s ∧ depth u = depth s + 2.
Proof.
  intros Hb Hs Htidy Ht. pose proof (constructed_intro _ _ _ _ _ Hb Hs) as Hc.
  apply state_init_inv in Hs as (Hbs & _). pose proof (init_pieces _ _ Hb) as Hps.
  destruct (successor_inv s t Hc Ht) as (i & x & y & pc & q & Hd & Hpc & Hq & Hb').
  rewrite Hbs, Hps in Hpc, Hb'.
  assert (pc ∈ ps) as Hin by (by eapply list_elem_of_lookup_2).
  pose proof (tidy_coords_nonneg _ _ Htidy Hin) as [[Hy _] [Hx _]]. simpl in *.
  pose proof (move_back _ _ _ _ Hq Hx Hy) as Hback.
  pose proof (successor_constructed s t Hc Ht) as Hct.
  destruct (successor_intro t i (- x) (- y) q pc b Hct) as (u & Hu & Hbu).
  - by apply directions_opposite.
  - rewrite (init_pieces _ _ Hb'). apply list_lookup_insert_eq. by eapply lookup_lt_Some.
  - done.
  - rewrite (init_pieces _ _ Hb'), list_insert_insert_eq, list_insert_id; done.
  - exists u. split_and!; [done|by rewrite Hbu|].
    apply successor_depth in Hu as [-> _]. apply successor_depth in Ht as [-> _]. lia.
Qed.

Lemma moves_reversible_witness :
  ∃ u, u ∈ State.generate_successors open_step1 ∧ board u = board open_root ∧
       depth u = depth open_root + 2.
Proof.
  apply (moves_reversible open_pieces open_board 0 None open_root open_step1);
    [reflexivity|reflexivity| |exact open_step1_successor].
  apply (bool_decide_unpack _). vm_compute. exact I.
Defined.

(** ** States with equal strings *)

Lemma legal_state_same_goal s s' :
  legal_state s → legal_state s' → key s = key s' →
  State.is_goal s = State.is_goal s' ∧
  State.manhattan_distance s = State.manhattan_distance s'.
Proof.
  intros Hls Hls' Hkey. pose proof (legal_state_grid s s' Hls Hls' Hkey) as Hgrid.
  destruct Hls as [Hs Hl], Hls' as [Hs' Hl'].
  destruct (constructed_heur s Hs) as (g & Hg & _).
  destruct (constructed_heur s' Hs') as (g' & Hg' & _).
  destruct (same_grid_same_goal _ _ _ _ g g' (constructed_init s Hs)
              (constructed_init s' Hs') Hl Hl' Hgrid Hg Hg') as [Hx Hy].
  unfold State.is_goal, State.manhattan_distance, State.board_distance.
  by rewrite Hg, Hg', Hx, Hy.
Qed.

Lemma legal_state_is_goal s s' :
  legal_state s → legal_state s' → key s = key s' → State.is_goal s = State.is_goal s'.
Proof. intros Hs Hs' Hk. by destruct (legal_state_same_goal s s' Hs Hs' Hk). Qed.

(** X11: two states on legal layouts that are equal under [__eq__] are
    interchangeable for the search: they agree on the goal test and on the
    heuristic, and every successor of the one is equal to a successor of
    the other. *)
Theorem equal_states_interchangeable (ps qs : list Piece) (b1 b2 : Board)
    (d1 d2 : Z) (p1 p2 : option State) (s1 s2 : State) :
  Board.init ps = Ok b1 → Board.init qs = Ok b2 →
  State.init b1 d1 p1 = Ok s1 → State.init b2 d2 p2 = Ok s2 →
  legal ps → legal qs → State.eq s1 s2 = true →
  State.is_goal s1 = State.is_goal s2 ∧
  State.manhattan_distance s1 = State.manhattan_distance s2 ∧
  ∀ t1, t1 ∈ State.generate_successors s1 →
    ∃ t2, t2 ∈ State.generate_successors s2 ∧ State.eq t1 t2 = true.
Proof.
  intros Hb1 Hb2 Hs1 Hs2 Hl1 Hl2 Heq.
  pose proof (legal_state_intro _ _ _ _ _ Hb1 Hs1 Hl1) as Hls1.
  pose proof (legal_state_intro _ _ _ _ _ Hb2 Hs2 Hl2) as Hls2.
  unfold State.eq in Heq. apply bool_decide_eq_true in Heq.
  destruct (legal_state_same_goal s1 s2 Hls1 Hls2 Heq) as [Hg Hm].
  split_and!; [done..|]. intros t1 Ht1.
  destruct (legal_state_bisim s1 s2 t1 Hls1 Hls2 Heq Ht1) as (t2 & Ht2 & Hk).
  exists t2. split; [done|]. unfold State.eq. by apply bool_decide_eq_true.
Qed.

Lemma equal_states_interchangeable_witness :
  let s1 := classic_root in
  let s2 := mkState (board_of (reverse classic_pieces)) 10 7 (Some classic_root) in
  State.is_goal s1 = State.is_goal s2 ∧
  State.manhattan_distance s1 = State.manhattan_distance s2 ∧
  ∀ t1, t1 ∈ State.generate_successors s1 →
    ∃ t2, t2 ∈ State.generate_successors s2 ∧ State.eq t1 t2 = true.
Proof.
  intros s1 s2.
  apply (equal_states_interchangeable classic_pieces (reverse classic_pieces)
           classic_board (board_of (reverse classic_pieces))
           0 7 None (Some classic_root) s1 s2); try reflexivity.
  - exact classic_legal.
  - apply (bool_decide_unpack _). vm_compute. exact I.
Defined.

(** ** The heuristic along a path *)

Lemma constructed_goal_heur s :
  constructed s → (State.is_goal s = Ok true ↔ heur s = 0) ∧ 0 ≤ heur s ∧
  State.manhattan_distance s = Ok (heur s).
Proof.
  intros Hc. destruct (constructed_heur s Hc) as (g & Hg & ->).
  unfold State.is_goal, State.manhattan_distance, State.board_distance. rewrite Hg.
  split_and!; [|lia|done]. split.
  - intros [= H0]. rewrite andb_true_iff, !bool_decide_eq_true in H0. lia.
  - intros H0. do 2 f_equal. rewrite andb_true_iff, !bool_decide_eq_true. lia.
Qed.

Lemma constructed_path_heur s t n :
  constructed s → path s t n → heur s ≤ heur t + Z.of_nat n.
Proof.
  intros Hs. induction 1 as [|t u n Hp IH Hu]; [lia|].
  pose proof (successor_heur t u (path_constructed _ _ _ Hs Hp) Hu). lia.
Qed.

(** X12: the heuristic never overestimates: when a goal state is reached
    from a state by [n] moves, the state's Manhattan distance is at most
    [n], and its priority [f] is at most the depth of that goal state, whose
    own priority is its depth. *)
Theorem heuristic_admissible (ps : list Piece) (b : Board) (d : Z)
    (p : option State) (s t : State) (n : nat) :
  Board.init ps = Ok b → State.init b d p = Ok s →
  path s t n → State.is_goal t = Ok true →
  ∃ h, State.manhattan_distance s = Ok h ∧ 0 ≤ h ≤ Z.of_nat n ∧
       f s ≤ depth t ∧ f t = depth t.
Proof.
  intros Hb Hs Hp Hg. pose proof (constructed_intro _ _ _ _ _ Hb Hs) as Hc.
  pose proof (path_constructed _ _ _ Hc Hp) as Hct.
  destruct (constructed_goal_heur s Hc) as (_ & Hpos & Hh).
  destruct (constructed_goal_heur t Hct) as (Hiff & _ & _).
  apply Hiff in Hg. pose proof (constructed_path_heur s t n Hc Hp).
  pose proof (path_depth _ _ _ Hp). exists (heur s). unfold heur in *.
  split_and!; [done|lia..].
Qed.

Lemma heuristic_admissible_witness :
  ∃ h, State.manhattan_distance open_root = Ok h ∧ 0 ≤ h ≤ Z.of_nat 1 ∧
       f open_root ≤ depth open_step1 ∧ f open_step1 = depth open_step1.
Proof.
  apply (heuristic_admissible open_pieces open_board 0 None open_root open_step1 1);
    [reflexivity|reflexivity|exact open_step1_path|reflexivity].
Defined.

(** X13: the priority [f] never decreases from a state to a successor, and
    grows by at most 2. *)
Theorem priority_monotone (ps : list Piece) (b : Board) (d : Z)
    (p : option State) (s t : State) :
  Board.init ps = Ok b → State.init b d p = Ok s →
  t ∈ State.generate_successors s → f s ≤ f t ≤ f s + 2.
Proof.
  intros Hb Hs Ht. pose proof (constructed_intro _ _ _ _ _ Hb Hs) as Hc.
  pose proof (successor_heur s t Hc Ht). apply successor_depth in Ht as [Hd _].
  unfold heur in *. lia.
Qed.

Lemma priority_monotone_witness :
  f open_root ≤ f open_step1 ≤ f open_root + 2.
Proof.
  apply (priority_monotone open_pieces open_board 0 None open_root open_step1);
    [reflexivity|reflexivity|exact open_step1_successor].
Defined.

(** X14: on a legal layout the goal test holds exactly when the grid shows
    the goal symbol in the four cells of the exit, rows 3 and 4 of columns 1
    and 2. *)
Theorem is_goal_matches_grid (ps : list Piece) (b : Board) (d : Z)
    (p : option State) (s : State) :
  Board.init ps = Ok b → State.init b d p = Ok s → legal ps →
  (State.is_goal s = Ok true ↔
   Forall (λ pos, grid_get (grid b) pos = Some char_goal)
          [(3, 1); (3, 2); (4, 1); (4, 2)]).
Proof.
  intros Hb Hs [Htidy Hone]. pose proof (constructed_intro _ _ _ _ _ Hb Hs) as Hc.
  apply state_init_inv in Hs as (Hbs & _).
  destruct (constructed_goal s Hc) as (g & Hg & Hgg & _).
  rewrite Hbs in Hg. pose proof Hg as Hlast. rewrite (init_goal _ _ Hb) in Hlast.
  apply last_goal_elem in Hlast.
  unfold State.is_goal. rewrite Hbs, Hg.
  assert (piece_writes g =
    [(coord_y g, coord_x g, char_goal); (coord_y g, coord_x g + 1, char_goal);
     (coord_y g + 1, coord_x g, char_goal); (coord_y g + 1, coord_x g + 1, char_goal)])
    as Hwg by (unfold piece_writes; by rewrite Hgg).
  split.
  - intros [= H0]. rewrite andb_true_iff, !bool_decide_eq_true in H0.
    destruct H0 as [Hx Hy]. rewrite Hx, Hy in Hwg. simpl in Hwg.
    apply Forall_forall. intros pos Hpos.
    apply (tidy_grid_get ps b pos char_goal Hb Htidy).
    + set_solver by (unfold on_grid; simpl; lia).
    + left. apply elem_of_all_writes. exists g. split; [done|]. rewrite Hwg. set_solver.
  - intros Hall.
    assert (∀ pos, on_grid pos → grid_get (grid b) pos = Some char_goal →
              (pos, char_goal) ∈ piece_writes g) as Hown.
    { intros pos Hpos Hget.
      apply (tidy_grid_get ps b pos char_goal Hb Htidy Hpos) in Hget as [Hw|[? _]]; [|done].
      apply elem_of_all_writes in Hw as (q & Hq & Hw).
      pose proof (proj1 (goal_writes q _ Hw) eq_refl) as Hqg.
      by rewrite (one_goal_unique ps g q Hone Hlast Hq Hgg Hqg). }
    apply Forall_cons in Hall as [H31 Hall]. apply Forall_cons in Hall as [_ Hall].
    apply Forall_cons in Hall as [_ Hall]. apply Forall_cons in Hall as [H42 _].
    apply Hown in H31; [|unfold on_grid; simpl; lia].
    apply Hown in H42; [|unfold on_grid; simpl; lia].
    rewrite Hwg in H31, H42. do 2 f_equal.
    rewrite andb_true_iff, !bool_decide_eq_true.
    rewrite !elem_of_cons, elem_of_nil in H31, H42.
    destruct H31 as [[=]|[[=]|[[=]|[[=]|[]]]]], H42 as [[=]|[[=]|[[=]|[[=]|[]]]]]; lia.
Qed.

Lemma is_goal_matches_grid_witness :
  State.is_goal open_step1 = Ok true ↔
  Forall (λ pos, grid_get (grid (board open_step1)) pos = Some char_goal)
         [(3, 1); (3, 2); (4, 1); (4, 2)].
Proof.
  apply (is_goal_matches_grid (pieces (board open_step1)) (board open_step1) 1
           (Some open_root) open_step1); [reflexivity|reflexivity|].
  apply (bool_decide_unpack _). vm_compute. exact I.
Defined.

(** ** The list of boards of a solution *)

Lemma to_list_succ s t :
  t ∈ State.generate_successors s →
  State.to_list t = State.to_list s ++ [board t] ∧
  ∃ (i : nat) dir, dir ∈ State.directions ∧
    Board.move (board s) (Z.of_nat i) dir.1 dir.2 = Ok (board t).
Proof.
  intros Ht. pose proof (successor_depth _ _ Ht) as [_ Hpar].
  split.
  - destruct t as [bt ft dt pt]. simpl in *. by rewrite Hpar.
  - apply elem_of_generate_successors in Ht as (i & dir & _ & Hdir & Hc).
    apply candidate_inv in Hc as (b' & Hm & Hi). apply state_init_inv in Hi as (<- & _).
    by exists i, dir.
Qed.

Lemma to_list_last s : last (State.to_list s) = Some (board s).
Proof.
  destruct s as [b f0 d [p|]]; simpl; [|done]. by rewrite last_snoc.
Qed.

Lemma to_list_path root t n :
  parent root = None → path root t n →
  length (State.to_list t) = S n ∧
  head (State.to_list t) = Some (board root) ∧
  move_sequence (State.to_list t).
Proof.
  intros Hroot. induction 1 as [|t u n Hp (Hlen & Hhd & Hseq) Hu].
  - destruct root as [b f0 d p0]. simpl in *. subst p0. simpl.
    split_and!; [done..|]. intros k b1 b2 H1 H2. by destruct k.
  - destruct (to_list_succ t u Hu) as (-> & i & dir & Hdir & Hm).
    split_and!.
    + rewrite length_app. simpl. lia.
    + destruct (State.to_list t); [done|]. done.
    + intros k b1 b2 H1 H2.
      destruct (decide (S k < length (State.to_list t))%nat) as [Hlt|Hge].
      * rewrite lookup_app_l in H1 by lia. rewrite lookup_app_l in H2 by lia.
        by eapply Hseq.
      * assert (S k = length (State.to_list t)) as Hk.
        { apply lookup_lt_Some in H2. rewrite length_app in H2. simpl in H2. lia. }
        rewrite lookup_app_l in H1 by lia.
        rewrite Hk, lookup_app_r in H2 by lia.
        rewrite Nat.sub_diag in H2. simpl in H2. injection H2 as <-.
        pose proof (to_list_last t) as Hlast. rewrite last_lookup in Hlast.
        rewrite <- Hk in Hlast. simpl in Hlast. rewrite Hlast in H1.
        injection H1 as <-. by exists i, dir.
Qed.

(** X15: for a state reached by [n] moves from a root state that has no
    parent, [to_list] returns [n + 1] boards (the state's depth above the
    root's, plus one): the first is the root's board, the last is the
    state's own, and every board results from the one before it by one call
    of [Board.move]. *)
Theorem to_list_move_sequence (b : Board) (d : Z) (root t : State) (n : nat) :
  State.init b d None = Ok root → path root t n →
  length (State.to_list t) = S n ∧
  Z.of_nat (length (State.to_list t)) = depth t - d + 1 ∧
  head (State.to_list t) = Some b ∧
  last (State.to_list t) = Some (board t) ∧
  move_sequence (State.to_list t).
Proof.
  intros Hroot Hp. apply state_init_inv in Hroot as (Hb & Hd & Hpar).
  destruct (to_list_path root t n Hpar Hp) as (Hlen & Hhd & Hseq).
  pose proof (path_depth _ _ _ Hp).
  split_and!; [done|lia|by rewrite Hhd, Hb|apply to_list_last|done].
Qed.

Lemma to_list_move_sequence_witness :
  length (State.to_list open_step1) = 2%nat ∧
  Z.of_nat (length (State.to_list open_step1)) = depth open_step1 - 0 + 1 ∧
  head (State.to_list open_step1) = Some open_board ∧
  last (State.to_list open_step1) = Some (board open_step1) ∧
  move_sequence (State.to_list open_step1).
Proof.
  apply (to_list_move_sequence open_board 0 open_root open_step1 1);
    [reflexivity|exact open_step1_path].
Defined.

(** ** More on the search *)

(** X16: when the state the search starts from passes the goal test, both
    strategies return that very state in the first iteration. *)
Theorem search_root_goal (s : State) (k : nat) :
  State.is_goal s = Ok true →
  search (S k) s Heap.init = Some (Ok (Some s)) ∧
  search (S k) s ([] : list State) = Some (Ok (Some s)).
Proof.
  intros Hg. unfold search. rewrite !search_loop_S. simpl.
  rewrite Hg. split; reflexivity.
Qed.

Lemma search_root_goal_witness :
  search 1 open_step1 Heap.init = Some (Ok (Some open_step1)) ∧
  search 1 open_step1 ([] : list State) = Some (Ok (Some open_step1)).
Proof. apply (search_root_goal open_step1 0). reflexivity. Defined.

Section Completeness.
Context {F : Type} `{FrontierLaws F}.
Variable root : State.
Variable WF : State → Prop.
Hypothesis WF_root : WF root.
Hypothesis WF_constructed : ∀ s, WF s → constructed s.
Hypothesis WF_succ : ∀ s t, WF s → t ∈ State.generate_successors s → WF t.
Hypothesis WF_bisim : ∀ s s' t,
  WF s → WF s' → key s = key s' → t ∈ State.generate_successors s →
  ∃ t', t' ∈ State.generate_successors s' ∧ key t' = key t.
Hypothesis WF_goal : ∀ s s',
  WF s → WF s' → key s = key s' → State.is_goal s = State.is_goal s'.

Lemma explored_inv_ok seen (fr : F) :
  explored_inv root WF seen fr → fr_ok fr ∧ Forall constructed (fr_items fr).
Proof.
  intros (Hok & Hall & _). split; [done|]. eapply Forall_impl; [done|].
  intros u [n Hn]. apply WF_constructed. exact (path_WF WF WF_succ _ _ _ WF_root Hn).
Qed.

Lemma explored_inv_skip seen (fr : F) x fr' :
  explored_inv root WF seen fr → fr_pop fr = Ok (x, fr') → fr_ok fr' →
  fr_items fr ≡ₚ x :: fr_items fr' → key x ∈ seen → explored_inv root WF seen fr'.
Proof.
  intros (Hok & Hall & Hseen & Hroot) Hpop Hok' Hperm Hin.
  rewrite Hperm in Hall. apply Forall_cons in Hall as [_ Hall].
  split_and!; [done|done| |].
  - intros k Hk. destruct (Hseen k Hk) as (e & He & Hke & Hng & Hsucc).
    exists e. split_and!; [done..|]. intros u Hu.
    destruct (Hsucc u Hu) as [Hfr|?]; [|by right].
    rewrite Hperm in Hfr. apply elem_of_cons in Hfr as [->|?]; [by right|by left].
  - destruct Hroot as [Hfr|?]; [|by right].
    rewrite Hperm in Hfr. apply elem_of_cons in Hfr as [->|?]; [by right|by left].
Qed.

Lemma explored_inv_expand seen (fr : F) x fr' :
  explored_inv root WF seen fr → fr_pop fr = Ok (x, fr') → fr_ok fr' →
  fr_items fr ≡ₚ x :: fr_items fr' → key x ∉ seen → State.is_goal x = Ok false →
  explored_inv root WF (seen ∪ {[key x]}) (fr_extend fr' (State.generate_successors x)).
Proof.
  intros Hinv Hpop Hok' Hperm Hnew Hng.
  pose proof Hinv as (Hok & Hall & Hseen & Hroot).
  destruct (fr_extend_items fr' (State.generate_successors x) Hok') as [Hok'' Hperm'].
  assert (∃ n, path root x n) as [nx Hx].
  { eapply Forall_forall in Hall; [done|]. rewrite Hperm. by left. }
  pose proof (path_WF WF WF_succ _ _ _ WF_root Hx) as Hwx.
  split_and!; [done| | |].
  - rewrite Hperm'. rewrite Hperm in Hall. apply Forall_cons in Hall as [_ Hall].
    apply Forall_app. split; [|done].
    apply Forall_forall. intros u Hu. exists (S nx). by eapply path_step.
  - intros k [Hk|Hk%elem_of_singleton]%elem_of_union.
    + destruct (Hseen k Hk) as (e & He & Hke & Hnge & Hsucc).
      exists e. split_and!; [done..|]. intros u Hu. rewrite Hperm'.
      destruct (Hsucc u Hu) as [Hfr|?]; [|right; set_solver].
      rewrite Hperm in Hfr. apply elem_of_cons in Hfr as [->|?].
      * right. set_solver.
      * left. apply elem_of_app. by right.
    + subst k. exists x. split_and!; [done..|].
      intros u Hu. left. rewrite Hperm'. apply elem_of_app. by left.
  - destruct Hroot as [Hfr|?]; [|right; set_solver].
    rewrite Hperm in Hfr. apply elem_of_cons in Hfr as [->|?].
    + right. set_solver.
    + left. rewrite Hperm'. apply elem_of_app. by right.
Qed.

(** While a reachable state has an unseen string the frontier is not
    empty. *)
Lemma explored_frontier seen (fr : F) t n :
  explored_inv root WF seen fr → path root t n → key t ∉ seen → fr_items fr ≠ [].
Proof.
  intros (Hok & Hall & Hseen & Hroot) Hp.
  induction Hp as [|t v n Hp IH Hv]; intros Hnew.
  - destruct Hroot as [Hroot|?]; [|done]. intros Hnil. rewrite Hnil in Hroot.
    by apply elem_of_nil in Hroot.
  - destruct (decide (key t ∈ seen)) as [Hin|Hout]; [|by apply IH].
    pose proof (path_WF WF WF_succ _ _ _ WF_root Hp) as Ht.
    destruct (Hseen _ Hin) as (e & He & Hke & _ & Hsucc).
    destruct (WF_bisim t e v) as (v' & Hv' & Hkv); [done..|].
    destruct (Hsucc v' Hv') as [Hfr|Hs]; [|by rewrite Hkv in Hs].
    intros Hnil. rewrite Hnil in Hfr. by apply elem_of_nil in Hfr.
Qed.

(** The search returns [None] only when no goal state can be reached. *)
Lemma search_complete (fr0 : F) :
  fr_ok fr0 → fr_items fr0 = [] →
  ∃ fuel r, (∀ k, search (fuel + k) root fr0 = Some (Ok r)) ∧
    (∀ g, r = Some g → ∃ n, path root g n ∧ State.is_goal g = Ok true) ∧
    (r = None → ¬ solvable root).
Proof.
  intros Hok0 Hnil0. unfold search.
  destruct (fr_append_items fr0 root Hok0) as [Hok1 Hperm1].
  destruct (search_loop_rule (explored_inv root WF) explored_inv_ok explored_inv_skip
              explored_inv_expand ∅ (fr_append fr0 root)) as (fuel & r & Hrun & Hfin).
  { split_and!; [done| | |].
    - rewrite Hperm1, Hnil0. repeat constructor. exists 0%nat. constructor.
    - intros k Hk. by apply elem_of_empty in Hk.
    - left. rewrite Hperm1. by left. }
  exists fuel, r. split_and!; [done| |].
  - intros g ->.
    destruct Hfin as (seen & fr & fr' & (_ & Hall & _) & _ & Hperm & _ & Hgoal).
    rewrite Hperm in Hall. apply Forall_cons in Hall as [[n Hg] _]. eauto.
  - intros -> (t & n & Ht & Hgoal).
    destruct Hfin as (seen & fr & Hinv & Hnil).
    destruct (decide (key t ∈ seen)) as [Hin|Hout].
    + destruct Hinv as (_ & _ & Hseen & _).
      destruct (Hseen _ Hin) as (e & He & Hke & Hnge & _).
      pose proof (path_WF WF WF_succ _ _ _ WF_root Ht) as Hwt.
      rewrite (WF_goal e t He Hwt Hke) in Hnge. congruence.
    + by apply (explored_frontier seen fr t n Hinv Ht Hout).
Qed.

End Completeness.

Lemma legal_search_complete {F : Type} `{FrontierLaws F} (s : State) (fr0 : F) :
  legal_state s → fr_ok fr0 → fr_items fr0 = [] →
  ∃ fuel r, (∀ k, search (fuel + k) s fr0 = Some (Ok r)) ∧
    (∀ g, r = Some g → ∃ n, path s g n ∧ State.is_goal g = Ok true) ∧
    (r = None → ¬ solvable s).
Proof.
  intros Hls. apply (search_complete s legal_state Hls legal_state_constructed
                       legal_state_succ legal_state_bisim legal_state_is_goal).
Qed.

(** X17: from a legal layout, each of the two strategies returns a state
    exactly when a goal state can be reached: [None] means that the puzzle
    has no solution. *)
Theorem search_decides_solvability (ps : list Piece) (b : Board) (d : Z)
    (p : option State) (s : State) :
  Board.init ps = Ok b → State.init b d p = Ok s → legal ps →
  ∃ fuel r1 r2,
    (∀ k, search (fuel + k) s Heap.init = Some (Ok r1)) ∧
    (∀ k, search (fuel + k) s ([] : list State) = Some (Ok r2)) ∧
    (is_Some r1 ↔ solvable s) ∧ (is_Some r2 ↔ solvable s).
Proof.
  intros Hb Hs Hl. pose proof (legal_state_intro _ _ _ _ _ Hb Hs Hl) as Hls.
  destruct (legal_search_complete s Heap.init Hls) as (n1 & r1 & Hrun1 & Hsome1 & Hnone1);
    [apply Heap_init_ok..|].
  destruct (legal_search_complete s ([] : list State) Hls)
    as (n2 & r2 & Hrun2 & Hsome2 & Hnone2); [done..|].
  exists (n1 + n2)%nat, r1, r2. split_and!.
  - intros k. by rewrite <- Nat.add_assoc.
  - intros k. by rewrite (Nat.add_comm n1), <- Nat.add_assoc.
  - split.
    + intros [g ->]. destruct (Hsome1 g eq_refl) as (n & ? & ?). by exists g, n.
    + intros Hsolv. destruct r1; [done|]. by destruct Hnone1.
  - split.
    + intros [g ->]. destruct (Hsome2 g eq_refl) as (n & ? & ?). by exists g, n.
    + intros Hsolv. destruct r2; [done|]. by destruct Hnone2.
Qed.

Lemma search_decides_solvability_witness :
  ∃ fuel r1 r2,
    (∀ k, search (fuel + k) jammed_root Heap.init = Some (Ok r1)) ∧
    (∀ k, search (fuel + k) jammed_root ([] : list State) = Some (Ok r2)) ∧
    (is_Some r1 ↔ solvable jammed_root) ∧ (is_Some r2 ↔ solvable jammed_root).
Proof.
  apply (search_decides_solvability jammed_pieces jammed_board 0 None jammed_root);
    [reflexivity|reflexivity|].
  apply (bool_decide_unpack _). vm_compute. exact I.
Defined.

(** ** The entry point *)

Lemma search_more {F : Type} `{Frontier F} (fuel k : nat) (s : State) (fr : F) r :
  search fuel s fr = Some r → search (fuel + k) s fr = Some r.
Proof. apply search_loop_more. Qed.

Lemma jammed_legal : legal jammed_pieces.
Proof. apply (bool_decide_unpack _). vm_compute. exact I. Qed.

Lemma jammed_search_exhausts :
  search 100 jammed_root ([] : list State) = Some (Ok None).
Proof. vm_compute. reflexivity. Qed.

Lemma jammed_state : legal_state jammed_root.
Proof.
  apply (legal_state_intro jammed_pieces jammed_board 0 None); [reflexivity..|].
  apply jammed_legal.
Qed.

Lemma jammed_unsolvable : ¬ solvable jammed_root.
Proof.
  destruct (legal_search_complete jammed_root ([] : list State) jammed_state)
    as (fuel & r & Hrun & _ & Hnone); [done..|].
  apply Hnone. specialize (Hrun 100%nat).
  pose proof (search_more 100 fuel _ _ _ jammed_search_exhausts) as Hmore.
  rewrite (Nat.add_comm fuel 100), Hmore in Hrun. by injection Hrun as <-.
Qed.

Lemma open_read_solvable : solvable open_read_root.
Proof.
  exists open_read_step1, 1%nat. split; [|reflexivity].
  apply (path_step _ open_read_root); [constructor|].
  apply elem_of_generate_successors. exists 6%nat, (0, 1).
  split_and!; [vm_compute; lia|set_solver|reflexivity].
Qed.

(** X18: on a layout that loads into a board with a goal block from which
    no goal state can be reached, the run ends, under either strategy, with
    the [AttributeError] of calling [to_list] on [None]; nothing is written
    to the output file. *)
Theorem main_unsolvable (lines : list string) (b : Board) (s : State) (algo : Algo) :
  read_from_file lines = Ok b → State.init b 0 None = Ok s → ¬ solvable s →
  ∃ fuel, ∀ k, main (fuel + k) lines algo = Some (Raise AttributeError).
Proof.
  intros Hb Hs Hno. unfold main. rewrite Hb, Hs.
  pose proof (constructed_intro _ _ _ _ _ Hb Hs) as Hc.
  destruct algo.
  - destruct (search_total s Hc Heap.init) as (fuel & r & Hrun & Hr);
      [apply Heap_init_ok..|].
    exists fuel. intros k. rewrite Hrun. destruct r as [g|]; [|done].
    destruct (Hr g eq_refl) as (n & Hp & Hg). destruct Hno. by exists g, n.
  - destruct (search_total s Hc ([] : list State)) as (fuel & r & Hrun & Hr); [done..|].
    exists fuel. intros k. rewrite Hrun. destruct r as [g|]; [|done].
    destruct (Hr g eq_refl) as (n & Hp & Hg). destruct Hno. by exists g, n.
Qed.

Lemma main_unsolvable_witness :
  ∃ fuel, ∀ k, main (fuel + k) jammed_layout dfs = Some (Raise AttributeError).
Proof.
  apply (main_unsolvable jammed_layout jammed_board jammed_root dfs);
    [reflexivity|reflexivity|exact jammed_unsolvable].
Defined.

(** X19: on a legal layout from which a goal state can be reached, the run
    ends under either strategy with the text for the output file: the
    strings, separated by blank lines, of the boards of a solution, from the
    loaded board to a board that passes the goal test, each resulting from
    the one before it by one move; with the [astar] strategy no solution has
    fewer moves. *)
Theorem main_writes_solution (lines : list string) (b : Board) (s : State)
    (algo : Algo) :
  read_from_file lines = Ok b → State.init b 0 None = Ok s →
  legal (read_pieces lines) → solvable s →
  ∃ fuel g n,
    (∀ k, main (fuel + k) lines algo =
            Some (Ok (String.concat (newline +:+ newline)
                        (map board_string (State.to_list g))))) ∧
    path s g n ∧ State.is_goal g = Ok true ∧
    length (State.to_list g) = S n ∧
    head (State.to_list g) = Some b ∧ last (State.to_list g) = Some (board g) ∧
    move_sequence (State.to_list g) ∧
    (algo = astar → ∀ t m, path s t m → State.is_goal t = Ok true → (n ≤ m)%nat).
Proof.
  intros Hb Hs Hl Hsolv. unfold main. rewrite Hb, Hs.
  pose proof (legal_state_intro _ _ _ _ _ Hb Hs Hl) as Hls.
  pose proof (state_init_inv _ _ _ _ Hs) as (Hbs & Hd & Hpar).
  destruct algo.
  - destruct (astar_optimal s legal_state Hls legal_state_constructed
                legal_state_succ legal_state_heur legal_state_bisim
                legal_state_consistent legal_state_goal Heap.init)
      as (fuel & g & Hrun & Hgoal & [n Hn] & Hbest); [apply Heap_init_ok..|done|].
    destruct (to_list_path s g n Hpar Hn) as (Hlen & Hhd & Hseq).
    exists fuel, g, n. split_and!; try done.
    + intros k. by rewrite Hrun.
    + by rewrite Hhd, Hbs.
    + apply to_list_last.
    + intros _ t m Ht Hgt. pose proof (Hbest t m Ht Hgt).
      pose proof (path_depth _ _ _ Ht). pose proof (path_depth _ _ _ Hn). lia.
  - destruct (legal_search_complete s ([] : list State) Hls)
      as (fuel & r & Hrun & Hsome & Hnone); [done..|].
    destruct r as [g|]; [|by destruct Hnone].
    destruct (Hsome g eq_refl) as (n & Hn & Hgoal).
    destruct (to_list_path s g n Hpar Hn) as (Hlen & Hhd & Hseq).
    exists fuel, g, n. split_and!; try done.
    + intros k. by rewrite Hrun.
    + by rewrite Hhd, Hbs.
    + apply to_list_last.
Qed.

Lemma main_writes_solution_witness :
  ∃ fuel g n,
    (∀ k, main (fuel + k) open_layout astar =
            Some (Ok (String.concat (newline +:+ newline)
                        (map board_string (State.to_list g))))) ∧
    path open_read_root g n ∧ State.is_goal g = Ok true ∧
    length (State.to_list g) = S n ∧
    head (State.to_list g) = Some open_read_board ∧
    last (State.to_list g) = Some (board g) ∧
    move_sequence (State.to_list g) ∧
    (astar = astar →
     ∀ t m, path open_read_root t m → State.is_goal t = Ok true → (n ≤ m)%nat).
Proof.
  apply (main_writes_solution open_layout open_read_board open_read_root astar);
    [reflexivity|reflexivity| |exact open_read_solvable].
  apply (bool_decide_unpack _). vm_compute. exact I.
Defined.

(** ** The loader *)

Lemma read_line_marks y line : ∀ st x,
  read_line y st x line = foldl read_mark st (line_marks y x line).
Proof. induction line as [|ch line IH]; intros st x; simpl; [done|]. by rewrite IH. Qed.

Lemma read_lines_marks lines : ∀ st y,
  read_lines st y lines = foldl read_mark st (marks y lines).
Proof.
  induction lines as [|l lines IH]; intros st y; simpl; [done|].
  by rewrite foldl_app, IH, read_line_marks.
Qed.

Lemma read_mark_plain acc gf m :
  m.2 ≠ char_goal ∨ gf = true →
  read_mark (acc, gf) m = (acc ++ from_option (λ q, [q]) [] (mark_piece m), gf).
Proof.
  intros Hm. destruct m as [[y x] ch]. unfold read_mark, read_char, mark_piece. simpl in *.
  repeat case_decide; simpl; try done; try by rewrite app_nil_r.
  destruct Hm as [?| ->]; [done|]. by rewrite app_nil_r.
Qed.

Lemma read_marks_plain ms : ∀ acc gf,
  Forall (λ m, m.2 ≠ char_goal) ms ∨ gf = true →
  foldl read_mark (acc, gf) ms = (acc ++ omap mark_piece ms, gf).
Proof.
  induction ms as [|m ms IH]; intros acc gf Hms; [simpl; by rewrite app_nil_r|].
  cbn [foldl]. rewrite read_mark_plain, IH.
  - change (omap mark_piece (m :: ms)) with
      (match mark_piece m with Some q => q :: omap mark_piece ms | None => omap mark_piece ms end).
    destruct (mark_piece m); simpl; by rewrite <- ?app_assoc, ?app_nil_r.
  - destruct Hms as [Hms|?]; [|by right]. left. by apply Forall_cons in Hms as [_ ?].
  - destruct Hms as [Hms|?]; [|by right]. left. by apply Forall_cons in Hms as [? _].
Qed.

Lemma read_marks_split pre y x post :
  Forall (λ m, m.2 ≠ char_goal) pre →
  foldl read_mark ([], false) (pre ++ (y, x, char_goal) :: post) =
  (omap mark_piece pre ++ mkPiece true false x y OrientNone :: omap mark_piece post, true).
Proof.
  intros Hpre. rewrite foldl_app, read_marks_plain by by left. cbn [foldl].
  replace (read_mark ([] ++ omap mark_piece pre, false) (y, x, char_goal))
    with (omap mark_piece pre ++ [mkPiece true false x y OrientNone], true) by done.
  rewrite read_marks_plain by by right. by rewrite <- app_assoc.
Qed.

Lemma elem_of_line_marks y line : ∀ x m,
  m ∈ line_marks y x line ↔
  ∃ i : nat, m.1.1 = y ∧ m.1.2 = x + Z.of_nat i ∧ line !! i = Some m.2.
Proof.
  induction line as [|ch line IH]; intros x m; simpl.
  - rewrite elem_of_nil. split; [done|]. by intros (i & _ & _ & ?).
  - rewrite elem_of_cons, IH. split.
    + intros [->|(i & Hy & Hx & Hi)].
      * exists 0%nat. simpl. split_and!; [done|lia|done].
      * exists (S i). split_and!; [done|lia|done].
    + intros ([|i] & Hy & Hx & Hi); simpl in *.
      * left. destruct m as [[y' x'] c]. simpl in *. injection Hi as ->.
        assert (x' = x) as -> by lia. by rewrite Hy.
      * right. exists i. split_and!; [done|lia|done].
Qed.

Lemma elem_of_marks lines : ∀ y m,
  m ∈ marks y lines ↔
  ∃ (j i : nat) l, lines !! j = Some l ∧ list_ascii_of_string l !! i = Some m.2 ∧
    m.1.1 = y + Z.of_nat j ∧ m.1.2 = Z.of_nat i.
Proof.
  induction lines as [|l lines IH]; intros y m; simpl.
  - rewrite elem_of_nil. split; [done|]. by intros (j & i & l & ? & _).
  - rewrite elem_of_app, elem_of_line_marks, IH. split.
    + intros [(i & Hy & Hx & Hi)|(j & i & l' & Hl & Hi & Hy & Hx)].
      * exists 0%nat, i, l. simpl. split_and!; [done|done|lia|lia].
      * exists (S j), i, l'. split_and!; [done|done|lia|done].
    + intros ([|j] & i & l' & Hl & Hi & Hy & Hx); simpl in *.
      * injection Hl as ->. left. exists i. split_and!; [lia|lia|done].
      * right. exists j, i, l'. split_and!; [done|done|lia|done].
Qed.

Lemma line_marks_sorted y line : ∀ x, StronglySorted before (line_marks y x line).
Proof.
  induction line as [|ch line IH]; intros x; simpl; constructor; [done|].
  apply Forall_forall. intros m (i & Hy & Hx & _)%elem_of_line_marks.
  right. simpl. lia.
Qed.

Lemma marks_sorted lines : ∀ y, StronglySorted before (marks y lines).
Proof.
  induction lines as [|l lines IH]; intros y; simpl; [constructor|].
  apply StronglySorted_app_2; [|apply line_marks_sorted|done].
  intros m1 m2 (i & Hy & _)%elem_of_line_marks (j & i' & l' & _ & _ & Hy' & _)%elem_of_marks.
  left. lia.
Qed.

Lemma elem_of_grid_marks g m :
  m ∈ marks 0 (grid_lines g) ↔
  0 ≤ m.1.1 ∧ 0 ≤ m.1.2 ∧
  ∃ row, g !! Z.to_nat m.1.1 = Some row ∧
    (row !! Z.to_nat m.1.2 = Some m.2 ∨
     (Z.to_nat m.1.2 = length row ∧ m.2 = "010"%char)).
Proof.
  rewrite elem_of_marks. unfold grid_lines. split.
  - intros (j & i & l & Hl & Hi & Hy & Hx).
    rewrite list_lookup_fmap in Hl. destruct (g !! j) as [row|] eqn:Hrow; [|done].
    simpl in Hl. injection Hl as <-.
    rewrite list_ascii_of_string_of_list_ascii in Hi.
    split_and!; [lia..|]. exists row. rewrite Hy, Hx, Z.add_0_l, !Nat2Z.id.
    split; [done|]. apply lookup_app_Some in Hi as [?|[Hlen Hi]]; [by left|right].
    apply list_lookup_singleton_Some in Hi as [Hi ->]. split; [lia|done].
  - intros (Hy & Hx & row & Hrow & Hc).
    exists (Z.to_nat m.1.1), (Z.to_nat m.1.2), (string_of_list_ascii (row ++ ["010"%char])).
    rewrite list_lookup_fmap, Hrow, list_ascii_of_string_of_list_ascii.
    split_and!; [done| |lia..].
    apply lookup_app_Some. destruct Hc as [?|[Hlen ->]]; [by left|right].
    split; [lia|]. by rewrite Hlen, Nat.sub_diag.
Qed.

Lemma read_mark_inv (st : list Piece * bool) (m : Z * Z * ascii) :
  length (filter (λ p, is_goal p = true) st.1) = (if st.2 then 1 else 0)%nat →
  Forall (λ p, 0 ≤ coord_x p ∧ 0 ≤ coord_y p) st.1 →
  0 ≤ m.1.1 → 0 ≤ m.1.2 →
  length (filter (λ p, is_goal p = true) (read_mark st m).1) =
    (if (read_mark st m).2 then 1 else 0)%nat ∧
  Forall (λ p, 0 ≤ coord_x p ∧ 0 ≤ coord_y p) (read_mark st m).1 ∧
  ((read_mark st m).2 = true ↔ st.2 = true ∨ m.2 = char_goal).
Proof.
  destruct st as [ps gf], m as [[y x] ch]. unfold read_mark, read_char. simpl.
  intros Hcount Hpos Hy Hx.
  repeat case_decide; subst; try destruct gf; simpl;
    rewrite ?filter_app, ?length_app, ?Forall_app, ?Forall_singleton; simpl;
    rewrite ?Hcount; split_and!; try done; try lia; naive_solver.
Qed.

Lemma read_marks_inv ms : ∀ (st : list Piece * bool),
  length (filter (λ p, is_goal p = true) st.1) = (if st.2 then 1 else 0)%nat →
  Forall (λ p, 0 ≤ coord_x p ∧ 0 ≤ coord_y p) st.1 →
  Forall (λ m, 0 ≤ m.1.1 ∧ 0 ≤ m.1.2) ms →
  length (filter (λ p, is_goal p = true) (foldl read_mark st ms).1) =
    (if (foldl read_mark st ms).2 then 1 else 0)%nat ∧
  Forall (λ p, 0 ≤ coord_x p ∧ 0 ≤ coord_y p) (foldl read_mark st ms).1 ∧
  ((foldl read_mark st ms).2 = true ↔ st.2 = true ∨ Exists (λ m, m.2 = char_goal) ms).
Proof.
  induction ms as [|m ms IH]; intros st Hcount Hpos Hms.
  - simpl. split_and!; [done..|]. rewrite Exists_nil. naive_solver.
  - apply Forall_cons in Hms as [[Hy Hx] Hms]. cbn [foldl].
    destruct (read_mark_inv st m Hcount Hpos Hy Hx) as (Hcount' & Hpos' & Hflag).
    destruct (IH (read_mark st m) Hcount' Hpos' Hms) as (? & ? & Hflag').
    split_and!; [done..|]. rewrite Hflag', Hflag, Exists_cons. naive_solver.
Qed.

Lemma marks_nonneg lines :
  Forall (λ m, 0 ≤ m.1.1 ∧ 0 ≤ m.1.2) (marks 0 lines).
Proof.
  apply Forall_forall. intros m (j & i & l & _ & _ & Hy & Hx)%elem_of_marks. lia.
Qed.

Lemma marks_goal_marker lines :
  Exists (λ m, m.2 = char_goal) (marks 0 lines) ↔ ¬ no_goal_marker lines.
Proof.
  unfold no_goal_marker. split.
  - intros (m & (j & i & l & Hl & Hi & _)%elem_of_marks & Hm)%Exists_exists Hall.
    eapply Forall_forall in Hall; [|by eapply list_elem_of_lookup_2].
    apply Hall. rewrite <- Hm. by eapply list_elem_of_lookup_2.
  - intros Hno. apply not_Forall_Exists in Hno; [|apply _].
    apply Exists_exists in Hno as (l & (j & Hl)%list_elem_of_lookup_1 & Hin).
    simpl in Hin. apply dec_stable in Hin. apply list_elem_of_lookup_1 in Hin as [i Hi].
    apply Exists_exists.
    exists (0 + Z.of_nat j, Z.of_nat i, char_goal). split; [|done].
    apply elem_of_marks. exists j, i, l. done.
Qed.

(** X20: whatever the input, every piece the loader makes has non-negative
    coordinates; it makes one goal piece when a goal marker occurs and none
    otherwise; the goal piece stands at the first goal marker in reading
    order, between the pieces of the '^', '<' and single markers before it
    and after it, each at the position of its marker; later goal markers
    and all other characters make no piece. *)
Theorem loader_pieces (lines : list string) :
  Forall (λ p, 0 ≤ coord_x p ∧ 0 ≤ coord_y p) (read_pieces lines) ∧
  length (filter (λ p, is_goal p = true) (read_pieces lines)) =
    (if decide (no_goal_marker lines) then 0 else 1)%nat ∧
  (∀ pre y x post,
     marks 0 lines = pre ++ (y, x, char_goal) :: post →
     Forall (λ m, m.2 ≠ char_goal) pre →
     read_pieces lines =
       omap mark_piece pre ++ mkPiece true false x y OrientNone :: omap mark_piece post) ∧
  (no_goal_marker lines → read_pieces lines = omap mark_piece (marks 0 lines)).
Proof.
  unfold read_pieces. rewrite read_lines_marks.
  destruct (read_marks_inv (marks 0 lines) ([], false)) as (Hcount & Hpos & Hflag);
    [done|done|apply marks_nonneg|].
  rewrite marks_goal_marker in Hflag. split_and!; [done| | |].
  - rewrite Hcount. case_decide as Hno.
    + assert ((foldl read_mark ([], false) (marks 0 lines)).2 ≠ true) as Hne.
      { intros [?|?]%Hflag; done. }
      by destruct (foldl read_mark _ _).2.
    + assert ((foldl read_mark ([], false) (marks 0 lines)).2 = true) as ->; [|done].
      apply Hflag. by right.
  - intros pre y x post -> Hpre. by rewrite read_marks_split.
  - intros Hno. rewrite read_marks_plain; [done|]. left.
    apply Forall_forall. intros m Hm Hg. apply (proj1 (marks_goal_marker lines)); [|done].
    apply Exists_exists. eauto.
Qed.

Lemma grid_marks_cell g pos c :
  grid_shape 5 4 g → on_grid pos → grid_get g pos = Some c →
  (pos, c) ∈ marks 0 (grid_lines g).
Proof.
  intros _ [Hy Hx] Hget. apply elem_of_grid_marks. simpl.
  split_and!; [lia..|]. unfold grid_get in Hget.
  destruct (g !! Z.to_nat pos.1) as [row|]; [|done]. exists row. split; [done|by left].
Qed.

Lemma grid_marks_inv g m :
  grid_shape 5 4 g → m ∈ marks 0 (grid_lines g) →
  m.2 = "010"%char ∨ (on_grid m.1 ∧ grid_get g m.1 = Some m.2).
Proof.
  intros [Hlen Hrows] (Hy & Hx & row & Hrow & [Hc|[_ ?]])%elem_of_grid_marks; [right|by left].
  pose proof (lookup_lt_Some _ _ _ Hrow) as Hlt.
  pose proof (lookup_lt_Some _ _ _ Hc) as Hlt'.
  eapply Forall_lookup_1 in Hrows; [|done]. simpl in Hrows.
  split; [unfold on_grid; lia|]. unfold grid_get. by rewrite Hrow.
Qed.

Lemma sorted_marks_NoDup (l : list (Z * Z * ascii)) :
  StronglySorted before l → NoDup l.*1.
Proof.
  induction 1 as [|m l Hs IH Hall]; simpl; constructor; [|done].
  intros (m' & Heq & Hm')%list_elem_of_fmap.
  eapply Forall_forall in Hall; [|done]. unfold before in Hall. rewrite Heq in Hall. lia.
Qed.

Lemma mark_piece_inv m q :
  mark_piece m = Some q →
  start q = m.1 ∧ loaded q ∧ is_goal q = false ∧
  ∃ rest, piece_writes q = (m.1, m.2) :: rest.
Proof.
  destruct m as [[y x] ch]. unfold mark_piece, loaded, start. simpl.
  repeat case_decide; intros [= <-]; subst; simpl; split_and!; try done;
    try (by eexists); naive_solver.
Qed.

Lemma mark_piece_starts l : start <$> omap mark_piece l `sublist_of` l.*1.
Proof.
  induction l as [|m l IH]; [done|].
  change (omap mark_piece (m :: l)) with
    (match mark_piece m with Some q => q :: omap mark_piece l | None => omap mark_piece l end).
  destruct (mark_piece m) as [q|] eqn:Hq; simpl.
  - apply mark_piece_inv in Hq as (-> & _). by apply sublist_skip.
  - by apply sublist_cons.
Qed.

Lemma loaded_cells q : loaded q → cells q ≠ [] ∧ NoDup (cells q).
Proof.
  unfold loaded, cells, piece_writes.
  intros [(-> & _)|[(-> & -> & _)|(-> & -> & Ho)]]; simpl.
  - split; [done|]. repeat (constructor; [set_solver by lia|]). constructor.
  - split; [done|]. repeat (constructor; [set_solver by lia|]). constructor.
  - destruct (orientation q); [done|..]; simpl; (split; [done|]);
      repeat (constructor; [set_solver by lia|]); constructor.
Qed.

Lemma loaded_inj q1 q2 :
  loaded q1 → loaded q2 → piece_writes q1 = piece_writes q2 → q1 = q2.
Proof.
  destruct q1 as [g1 s1 x1 y1 o1], q2 as [g2 s2 x2 y2 o2].
  unfold loaded, piece_writes. simpl.
  intros [(-> & -> & ->)|[(-> & -> & ->)|(-> & -> & Ho1)]]
         [(-> & -> & ->)|[(-> & -> & ->)|(-> & -> & Ho2)]];
    try destruct o1; try destruct o2; try done; intros [= -> ->]; done.
Qed.

Lemma footprint_NoDup_intro qs :
  NoDup qs → (∀ q, q ∈ qs → NoDup (cells q)) →
  (∀ q1 q2 pos, q1 ∈ qs → q2 ∈ qs → pos ∈ cells q1 → pos ∈ cells q2 → q1 = q2) →
  NoDup (footprint qs).
Proof.
  induction 1 as [|q qs Hq Hnd IH]; intros Hcells Hdisj; [constructor|].
  rewrite footprint_cons. apply NoDup_app. split_and!.
  - apply Hcells. by left.
  - intros pos Hpos (q' & Hq' & Hpos')%elem_of_footprint.
    assert (q = q') as -> by (eapply Hdisj; [by left|by right|done..]). done.
  - apply IH.
    + intros q' Hq'. apply Hcells. by right.
    + intros q1 q2 pos H1 H2. apply Hdisj; by right.
Qed.

Lemma tidy_owner_unique ps p1 p2 pos :
  NoDup (footprint ps) → p1 ∈ ps → p2 ∈ ps → pos ∈ cells p1 → pos ∈ cells p2 → p1 = p2.
Proof.
  induction ps as [|p ps IH]; [by intros _ ?%elem_of_nil|].
  rewrite footprint_cons. intros (Hp & Hdisj & Hrest)%NoDup_app.
  intros [->|H1]%elem_of_cons [->|H2]%elem_of_cons Hpos1 Hpos2; [done| | |by apply IH].
  - destruct (Hdisj pos Hpos1). apply elem_of_footprint. by exists p2.
  - destruct (Hdisj pos Hpos2). apply elem_of_footprint. by exists p1.
Qed.

Lemma one_goal_piece ps :
  length (filter (λ p, is_goal p = true) ps) = 1%nat → ∃ p, p ∈ ps ∧ is_goal p = true.
Proof.
  intros Hlen. destruct (filter _ ps) as [|p l] eqn:Hf; [done|].
  assert (p ∈ filter (λ p, is_goal p = true) ps) as Hp by (rewrite Hf; by left).
  apply list_elem_of_filter in Hp as [? ?]. by exists p.
Qed.

Section RoundTrip.
Variables (ps : list Piece) (b : Board).
Hypothesis Hb : Board.init ps = Ok b.
Hypothesis Hl : legal ps.

Lemma grid_cell_owner pos c :
  on_grid pos → grid_get (grid b) pos = Some c → c ≠ char_empty →
  ∃ p, p ∈ ps ∧ (pos, c) ∈ piece_writes p.
Proof.
  intros Hpos Hget Hc.
  apply (tidy_grid_get ps b pos c Hb (legal_tidy _ Hl) Hpos) in Hget as [Hw|[? _]]; [|done].
  by apply elem_of_all_writes in Hw.
Qed.

Lemma piece_cell_shown p wr :
  p ∈ ps → wr ∈ piece_writes p → on_grid wr.1 ∧ grid_get (grid b) wr.1 = Some wr.2.
Proof.
  intros Hp Hwr. destruct Hl as [Htidy _].
  assert (wr ∈ all_writes ps) as Hall by (apply elem_of_all_writes; eauto).
  assert (on_grid wr.1) as Hpos.
  { destruct Htidy as [Hgrid _ _]. eapply Forall_forall in Hgrid; [done|].
    apply list_elem_of_fmap. by exists wr. }
  split; [done|]. apply (tidy_grid_get ps b wr.1 wr.2 Hb Htidy Hpos). left.
  by destruct wr.
Qed.

(** The pieces read back from the rows of the grid. *)
Lemma read_back :
  ∃ p0 pre post,
    p0 ∈ ps ∧ is_goal p0 = true ∧
    marks 0 (grid_lines (grid b)) = pre ++ (coord_y p0, coord_x p0, char_goal) :: post ∧
    read_pieces (grid_lines (grid b)) =
      omap mark_piece pre ++
      mkPiece true false (coord_x p0) (coord_y p0) OrientNone :: omap mark_piece post.
Proof.
  destruct (one_goal_piece ps (legal_one_goal _ Hl)) as (p0 & Hp0 & Hg0).
  assert (piece_writes p0 =
    [(coord_y p0, coord_x p0, char_goal); (coord_y p0, coord_x p0 + 1, char_goal);
     (coord_y p0 + 1, coord_x p0, char_goal); (coord_y p0 + 1, coord_x p0 + 1, char_goal)])
    as Hw0 by (unfold piece_writes; by rewrite Hg0).
  destruct (piece_cell_shown p0 (coord_y p0, coord_x p0, char_goal) Hp0) as [Hpos0 Hget0].
  { rewrite Hw0. by left. }
  simpl in Hpos0, Hget0.
  pose proof (grid_marks_cell _ _ _ (init_shape _ _ Hb) Hpos0 Hget0) as Hm0.
  apply list_elem_of_split in Hm0 as (pre & post & Hsplit).
  exists p0, pre, post. split_and!; [done..|].
  unfold read_pieces. rewrite read_lines_marks, Hsplit, read_marks_split; [done|].
  apply Forall_forall. intros m Hm Hone.
  pose proof (marks_sorted (grid_lines (grid b)) 0) as Hsorted. rewrite Hsplit in Hsorted.
  pose proof (StronglySorted_app_1_elem_of _ _ _ m (coord_y p0, coord_x p0, char_goal)
                Hsorted Hm) as Hbefore.
  specialize (Hbefore ltac:(by left)). unfold before in Hbefore. simpl in Hbefore.
  assert (m ∈ marks 0 (grid_lines (grid b))) as Hin.
  { rewrite Hsplit. apply elem_of_app. by left. }
  apply (grid_marks_inv _ _ (init_shape _ _ Hb)) in Hin as [Hnl|[Hpos Hget]].
  { rewrite Hone in Hnl. done. }
  rewrite Hone in Hget.
  destruct (grid_cell_owner m.1 char_goal Hpos Hget) as (p & Hp & Hwr); [done|].
  pose proof (proj1 (goal_writes p _ Hwr) eq_refl) as Hpg.
  rewrite <- (one_goal_unique ps p0 p (legal_one_goal _ Hl) Hp0 Hp Hg0 Hpg) in Hwr.
  rewrite Hw0 in Hwr. destruct m as [[y x] c]. simpl in *.
  rewrite !elem_of_cons, elem_of_nil in Hwr.
  destruct Hwr as [[=]|[[=]|[[=]|[[=]|[]]]]]; lia.
Qed.

End RoundTrip.

Lemma mark_piece_symbol m q :
  mark_piece m = Some q → m.2 ≠ "010"%char ∧ m.2 ≠ char_empty ∧ m.2 ≠ char_goal.
Proof.
  unfold mark_piece, char_single, char_empty, char_goal.
  repeat case_decide; intros [= <-]; split_and!; congruence.
Qed.

Lemma first_write_mark p c rest :
  is_goal p = false → piece_writes p = (start p, c) :: rest →
  ∃ q, mark_piece (start p, c) = Some q ∧ piece_writes q = piece_writes p.
Proof.
  unfold piece_writes, mark_piece, start. intros -> Hw. simpl.
  destruct (is_single p) eqn:Hs.
  - injection Hw as <- <-. eexists. split; [done|]. unfold piece_writes. by simpl.
  - destruct (orientation p) eqn:Ho; [done|..]; injection Hw as <- <-;
      (eexists; split; [done|]); unfold piece_writes; by simpl.
Qed.

Lemma mark_piece_no_goal l :
  filter (λ p, is_goal p = true) (omap mark_piece l) = [].
Proof.
  induction l as [|m l IH]; [done|].
  change (omap mark_piece (m :: l)) with
    (match mark_piece m with Some q => q :: omap mark_piece l | None => omap mark_piece l end).
  destruct (mark_piece m) as [q|] eqn:Hq; [|done].
  apply mark_piece_inv in Hq as (_ & _ & Hg & _).
  rewrite filter_cons_False; [done|]. by rewrite Hg.
Qed.

(** X21: a board built from a legal layout can be saved and loaded again:
    on the rows of its grid, written one per line, the loader returns a
    board with the same grid and the same string, whose piece list is a
    legal layout. *)
Theorem loader_round_trip (ps : list Piece) (b : Board) :
  Board.init ps = Ok b → legal ps →
  ∃ b', read_from_file (grid_lines (grid b)) = Ok b' ∧
        grid b' = grid b ∧ board_string b' = board_string b ∧
        legal (pieces b').
Proof.
  intros Hb Hl.
  destruct (read_back ps b Hb Hl) as (p0 & pre & post & Hp0 & Hg0 & Hsplit & Hread).
  pose proof (legal_tidy _ Hl) as Htidy.
  pose proof (init_shape _ _ Hb) as Hshape.
  set (qs := read_pieces (grid_lines (grid b))) in *.
  set (g0 := mkPiece true false (coord_x p0) (coord_y p0) OrientNone) in *.
  assert (piece_writes g0 = piece_writes p0) as Hw0.
  { unfold piece_writes. by rewrite Hg0. }
  assert (∀ l q, l ⊆ marks 0 (grid_lines (grid b)) → q ∈ omap mark_piece l →
            loaded q ∧ ∃ p, p ∈ ps ∧ piece_writes q = piece_writes p) as Hmarked.
  { intros l q Hsub (m & Hm & Hq)%list_elem_of_omap.
    pose proof (mark_piece_symbol _ _ Hq) as (Hnl & Hne & _).
    apply mark_piece_inv in Hq as (_ & Hload & Hng & rest & Hw).
    split; [done|].
    destruct (grid_marks_inv _ m Hshape (Hsub _ Hm)) as [?|[Hpos Hget]]; [done|].
    destruct (grid_cell_owner ps b Hb Hl m.1 m.2 Hpos Hget Hne) as (p & Hp & Hwr).
    exists p. split; [done|]. symmetry.
    apply (nongoal_match q p (m.1, m.2) rest Hng Hw Hwr). }
  assert (∀ q, q ∈ qs → loaded q ∧ ∃ p, p ∈ ps ∧ piece_writes q = piece_writes p) as Hqs.
  { intros q. rewrite Hread, elem_of_app, elem_of_cons. intros [Hq|[->|Hq]].
    - apply (Hmarked pre); [|done]. rewrite Hsplit. set_solver.
    - split; [left; done|]. by exists p0.
    - apply (Hmarked post); [|done]. rewrite Hsplit. set_solver. }
  assert (∀ p, p ∈ ps → ∃ q, q ∈ qs ∧ piece_writes q = piece_writes p) as Hps.
  { intros p Hp. destruct (is_goal p) eqn:Hg.
    - rewrite <- (one_goal_unique ps p0 p (legal_one_goal _ Hl) Hp0 Hp Hg0 Hg).
      exists g0. split; [|done]. rewrite Hread. set_solver.
    - assert (cells p ≠ []) as Hsolid.
      { destruct Htidy as [_ _ Hs]. by eapply Forall_forall in Hs. }
      destruct (first_write p Hsolid) as (c & rest & Hw).
      destruct (first_write_mark p c rest Hg Hw) as (q & Hq & Hwq).
      destruct (piece_cell_shown ps b Hb Hl p (start p, c) Hp) as [Hpos Hget].
      { rewrite Hw. by left. }
      simpl in Hpos, Hget.
      pose proof (grid_marks_cell _ _ _ Hshape Hpos Hget) as Hm.
      pose proof (mark_piece_symbol _ _ Hq) as (_ & _ & Hc). simpl in Hc.
      exists q. split; [|done]. rewrite Hread.
      rewrite Hsplit, elem_of_app, elem_of_cons in Hm.
      rewrite elem_of_app, elem_of_cons.
      destruct Hm as [Hm|[[=]|Hm]]; [left| |right; right].
      + apply list_elem_of_omap. eauto.
      + congruence.
      + apply list_elem_of_omap. eauto. }
  assert (NoDup qs) as Hnd.
  { apply (NoDup_fmap_1 start). rewrite Hread, fmap_app, fmap_cons.
    eapply sublist_NoDup.
    - apply (sorted_marks_NoDup _ (marks_sorted (grid_lines (grid b)) 0)).
    - rewrite Hsplit, fmap_app, fmap_cons.
      apply sublist_app; [apply mark_piece_starts|].
      apply sublist_skip, mark_piece_starts. }
  assert (tidy qs) as Htq.
  { split.
    - apply Forall_forall. intros pos (q & Hq & Hpos)%elem_of_footprint.
      destruct (Hqs q Hq) as (_ & p & Hp & Hw). unfold cells in Hpos. rewrite Hw in Hpos.
      destruct Htidy as [Hgrid _ _]. eapply Forall_forall in Hgrid; [done|].
      apply elem_of_footprint. by exists p.
    - apply footprint_NoDup_intro; [done| |].
      + intros q Hq. apply loaded_cells. by apply Hqs.
      + intros q1 q2 pos H1 H2 Hpos1 Hpos2.
        destruct (Hqs q1 H1) as (Hl1 & p1 & Hp1 & Hw1).
        destruct (Hqs q2 H2) as (Hl2 & p2 & Hp2 & Hw2).
        apply loaded_inj; [done..|]. rewrite Hw1, Hw2. f_equal.
        unfold cells in Hpos1, Hpos2. rewrite Hw1 in Hpos1. rewrite Hw2 in Hpos2.
        destruct Htidy as [_ Hdisj _].
        by apply (tidy_owner_unique ps p1 p2 pos).
    - apply Forall_forall. intros q Hq. apply loaded_cells. by apply Hqs. }
  assert (all_writes ps ≡ₚ all_writes qs) as Hperm.
  { apply NoDup_Permutation; [by apply tidy_writes_NoDup..|].
    intros wr. rewrite !elem_of_all_writes. split.
    - intros (p & Hp & Hwr). destruct (Hps p Hp) as (q & Hq & Hw).
      exists q. by rewrite Hw.
    - intros (q & Hq & Hwr). destruct (Hqs q Hq) as (_ & p & Hp & Hw).
      exists p. by rewrite <- Hw. }
  assert (do_writes (blank_grid 4 5) (all_writes qs) = Ok (grid b)) as Hwrites.
  { apply (do_writes_perm (all_writes ps)); [apply board_grid_shape|done|..].
    - by destruct Htidy.
    - by destruct Htidy.
    - by apply init_grid_writes. }
  pose proof (init_of_writes qs (grid b) Hwrites (init_count _ _ Hb)) as Hb'.
  eexists. split; [exact Hb'|]. split; [done|]. simpl.
  split; [by rewrite (init_board_string _ _ Hb)|]. split; [done|].
  rewrite Hread, filter_app, filter_cons_True by done.
  by rewrite !mark_piece_no_goal.
Qed.

Lemma loader_round_trip_witness :
  ∃ b', read_from_file (grid_lines (grid classic_board)) = Ok b' ∧
        grid b' = grid classic_board ∧
        board_string b' = board_string classic_board ∧
        legal (pieces b').
Proof.
  apply (loader_round_trip classic_pieces classic_board); [reflexivity|].
  apply (bool_decide_unpack _). vm_compute. exact I.
Defined.
